(** * Golden model of the NoC core array (router_golden_model)

    Shallow embedding of [golden_model/memory.py], [golden_model/prims.py],
    [golden_model/router_table.py] and [golden_model/core.py].

    - Python integers are [Z]; [>>], [&], [|], [^] are [Z.shiftr], [Z.land],
      [Z.lor], [Z.lxor] (both follow two's complement on negative numbers,
      as Python does); [//] and [%] with a positive divisor are [Z.div] and
      [Z.modulo].
    - A [bytes] / [bytearray] value is a [list Z] of values in [0, 256).
    - Raised exceptions are the [Err] case of [result]. *)

From Stdlib Require Import ZArith Lia List Bool.
From Stdlib Require Ascii.
From stdpp Require Import base gmap list sets.

Import ListNotations.
Local Open Scope Z_scope.

(* ------------------------------------------------------------------ *)
(** ** Exceptions and the error monad *)

Inductive exc :=
| ValueError
| IndexError
| KeyError
| OverflowError
| AttributeError
| AssertionError.

Inductive result (A : Type) :=
| Ok : A -> result A
| Err : exc -> result A.
Arguments Ok {A} _.
Arguments Err {A} _.

Definition rbind {A B} (m : result A) (k : A -> result B) : result B :=
  match m with Ok a => k a | Err e => Err e end.

Notation "'let!' x ':=' m 'in' k" := (rbind m (fun x => k))
  (at level 200, x name, m at level 100, k at level 200).

(* ------------------------------------------------------------------ *)
(** ** [int.to_bytes(n, 'big')] and [int.from_bytes(b, 'big')] *)

Fixpoint le_split (n : nat) (v : Z) : list Z :=
  match n with
  | O => []
  | S n' => v mod 256 :: le_split n' (v / 256)
  end.

(** [v.to_bytes(n, byteorder='big')]: [OverflowError] when [v] does not fit. *)
Definition int_to_bytes (n : nat) (v : Z) : result (list Z) :=
  if (0 <=? v) && (v <? 256 ^ Z.of_nat n) then Ok (rev (le_split n v))
  else Err OverflowError.

(** [int.from_bytes(b, byteorder='big')] *)
Definition int_from_bytes (b : list Z) : Z :=
  fold_left (fun acc x => acc * 256 + x) b 0.

(* ------------------------------------------------------------------ *)
(** ** myhdl [intbv] slices (bit [j] up to, excluding, bit [i]) *)

(** [pic[i:j]] *)
Definition get_slice (x i j : Z) : Z := Z.land (Z.shiftr x j) (Z.ones (i - j)).

(** the update done by [pic[i:j] = v] once [v] passed the range check *)
Definition set_slice (x i j v : Z) : Z :=
  Z.lor (Z.land x (Z.lnot (Z.shiftl (Z.ones (i - j)) j))) (Z.shiftl v j).

(** [pic[i:j] = v]: [intbv.__setitem__] raises [ValueError] when
    [v >= 2**(i-j)] or [v < -2**(i-j)].  The [_handleBounds] check against
    [max=1<<256] never fires: every slice written ends at or below bit 256
    and every value written is non-negative. *)
Definition setslice (x i j v : Z) : result Z :=
  if (v >=? 2 ^ (i - j)) || (v <? - 2 ^ (i - j)) then Err ValueError
  else Ok (set_slice x i j v).

(** [pic[i] = v] *)
Definition setbit (x i v : Z) : result Z :=
  if v =? 1 then Ok (Z.setbit x i)
  else if v =? 0 then Ok (Z.clearbit x i)
  else Err ValueError.

(* ------------------------------------------------------------------ *)
(** ** Range-checked conversions of [prims.py] *)

Definition to_signed_bits (val width : Z) : result Z :=
  if negb ((- 2 ^ (width - 1) <=? val) && (val <? 2 ^ (width - 1)))
  then Err ValueError
  else Ok (Z.land val (2 ^ width - 1)).

Definition to_unsigned_bits (val width : Z) : result Z :=
  if negb ((0 <=? val) && (val <? 2 ^ width))
  then Err ValueError
  else Ok (Z.land val (2 ^ width - 1)).

(* ------------------------------------------------------------------ *)
(** ** Primitives ([prims.py]) *)

(** [RouterTableEntry] of [router_table.py]; also the field dict that
    [encode_packet_from_fields] reads (a missing key of a Python message
    dict takes the default of [encode_packet_from_fields]). *)
Record RouterTableEntry := mkRTE {
  rte_s : Z; rte_t : Z; rte_e : Z; rte_q : Z;
  rte_y : Z; rte_x : Z;
  rte_a0 : Z; rte_cnt : Z; rte_a_offset : Z; rte_const_raw : Z;
  rte_handshake : bool; rte_tag_id : Z; rte_en : bool }.

Record SendPrim := mkSendPrim {
  sp_deps : Z;
  sp_cell_or_neuron : Z;
  sp_neuron_type : Z;
  sp_message_num : Z;
  sp_send_addr : Z;
  sp_para_addr : Z;
  sp_messages : option (list RouterTableEntry) }.

Record RecvPrim := mkRecvPrim {
  rp_deps : Z;
  rp_recv_addr : Z;
  rp_tag_id : Z;
  rp_end_num : Z;
  rp_relay_mode : Z;
  rp_CXY : Z;
  rp_mc_y : Z;
  rp_mc_x : Z;
  rp_use_end_num : bool }.

Inductive StopPrim := mkStopPrim.

Inductive Kind := KSend | KRecv | KStop.

Record PrimOp := mkPrimOp {
  kind : Kind;
  op_send : option SendPrim;
  op_recv : option RecvPrim;
  op_stop : option StopPrim;
  mem_addr : option Z }.

(** Dataclass defaults. *)
Definition SendPrim_default : SendPrim := mkSendPrim 0 0 0 0 0 0 None.
Definition RecvPrim_default : RecvPrim := mkRecvPrim 0 0 0 0 0 0 0 0 false.

Definition PRIM_KIND_SEND := 1.
Definition PRIM_KIND_RECV := 2.
Definition PRIM_KIND_STOP := 3.

(** Send half of [encode_prim_cell] ([if op.send is not None: ...]). *)
Definition encode_send_half (pic : Z) (sp : SendPrim) : result Z :=
  let! pic := setslice pic 4 0 6 in
  let! pic := setbit pic 4 1 in
  let! d := to_unsigned_bits (sp_deps sp) 16 in
  let! pic := setslice pic 16 8 d in
  let! a := to_unsigned_bits (sp_send_addr sp) 16 in
  let! pic := setslice pic 64 48 a in
  let! c := to_unsigned_bits (sp_cell_or_neuron sp) 1 in
  let! pic := setbit pic 168 c in
  let! m := to_unsigned_bits (Z.max 0 (sp_message_num sp - 1)) 8 in
  let! pic := setslice pic 184 176 m in
  let! p := to_unsigned_bits (sp_para_addr sp) 16 in
  setslice pic 256 240 p.

(** Recv half of [encode_prim_cell] ([if op.recv is not None: ...]). *)
Definition encode_recv_half (pic : Z) (rp : RecvPrim) : result Z :=
  let! pic := setslice pic 4 0 6 in
  let! pic := setbit pic 5 1 in
  let! d := to_unsigned_bits (rp_deps rp) 16 in
  let! pic := setslice pic 16 8 d in
  let! a := to_unsigned_bits (rp_recv_addr rp) 16 in
  let! pic := setslice pic 48 32 a in
  let! c := to_unsigned_bits (rp_CXY rp) 2 in
  let! pic := setslice pic 174 172 c in
  let! mx := to_signed_bits (rp_mc_x rp) 6 in
  let! pic := setslice pic 198 192 mx in
  let! my := to_signed_bits (rp_mc_y rp) 6 in
  let! pic := setslice pic 190 184 my in
  let! t := to_unsigned_bits (rp_tag_id rp) 8 in
  let! pic := setslice pic 208 200 t in
  let! e := to_unsigned_bits (rp_end_num rp) 8 in
  setslice pic 216 208 e.

Definition encode_prim_cell (op : PrimOp) : result (list Z) :=
  match kind op with
  | KStop =>
      let! pic := setslice 0 4 0 0 in
      let! pic := setslice pic 8 4 3 in
      int_to_bytes 32 pic
  | _ =>
      let! pic := match op_send op with
                  | Some sp => encode_send_half 0 sp
                  | None => Ok 0
                  end in
      let! pic := match op_recv op with
                  | Some rp => encode_recv_half pic rp
                  | None => Ok pic
                  end in
      int_to_bytes 32 pic
  end.

Definition decode_prim_cell (cell_bytes : list Z) : result (option PrimOp) :=
  if negb (Nat.eqb (length cell_bytes) 32) then Err ValueError else
  let pic := int_from_bytes cell_bytes in
  if pic =? 0 then Ok None else
  if get_slice pic 8 0 =? PRIM_KIND_STOP then
    Ok (Some (mkPrimOp KStop None None (Some mkStopPrim) None)) else
  let send_valid := Z.testbit pic 4 in
  let recv_valid := Z.testbit pic 5 in
  if negb send_valid && negb recv_valid then Ok None else
  let send_prim :=
    if send_valid then
      Some (mkSendPrim (get_slice pic 16 8) (Z.b2z (Z.testbit pic 168)) 0
              (get_slice pic 184 176 + 1) (get_slice pic 64 48)
              (get_slice pic 256 240) None)
    else None in
  let recv_prim :=
    if recv_valid then
      Some (mkRecvPrim (get_slice pic 16 8) (get_slice pic 48 32)
              (get_slice pic 208 200) (get_slice pic 216 208)
              (get_slice pic 174 172) 0
              (get_slice pic 190 184) (get_slice pic 198 192) false)
    else None in
  let k := if send_valid then KSend else KRecv in
  Ok (Some (mkPrimOp k send_prim recv_prim None None)).

Definition stop_op := mkPrimOp KStop None None (Some mkStopPrim) None.

(* ------------------------------------------------------------------ *)
(** ** Router-table entries ([router_table.py]) *)

Definition _sign_extend (value bits : Z) : Z :=
  let sign_bit := Z.shiftl 1 (bits - 1) in
  let mask := Z.shiftl 1 bits - 1 in
  let value := Z.land value mask in
  Z.lxor value sign_bit - sign_bit.

Definition group_size (r : RouterTableEntry) : Z :=
  if rte_const_raw r =? 0 then 1 else rte_const_raw r + 1.

Definition from_packet128 (packet : Z) : RouterTableEntry :=
  {| rte_s := Z.land (Z.shiftr packet 0) 1;
     rte_t := Z.land (Z.shiftr packet 1) 1;
     rte_e := Z.land (Z.shiftr packet 2) 1;
     rte_q := Z.land (Z.shiftr packet 3) 1;
     rte_y := _sign_extend (Z.land (Z.shiftr packet 6) 63) 6;
     rte_x := _sign_extend (Z.land (Z.shiftr packet 12) 63) 6;
     rte_a0 := Z.land (Z.shiftr packet 18) 16383;
     rte_cnt := Z.land (Z.shiftr packet 32) 4095;
     rte_a_offset := _sign_extend (Z.land (Z.shiftr packet 44) 4095) 12;
     rte_const_raw := Z.land (Z.shiftr packet 56) 127;
     rte_handshake := Z.land (Z.shiftr packet 63) 1 =? 1;
     rte_tag_id := Z.land (Z.shiftr packet 64) 255;
     rte_en := Z.land (Z.shiftr packet 72) 1 =? 1 |}.

Definition to_twos (v bits : Z) : Z := Z.land v (Z.shiftl 1 bits - 1).

Definition encode_packet_from_fields (f : RouterTableEntry) : Z :=
  let pkt := 0 in
  let pkt := Z.lor pkt (Z.shiftl (Z.land (rte_s f) 1) 0) in
  let pkt := Z.lor pkt (Z.shiftl (Z.land (rte_t f) 1) 1) in
  let pkt := Z.lor pkt (Z.shiftl (Z.land (rte_e f) 1) 2) in
  let pkt := Z.lor pkt (Z.shiftl (Z.land (rte_q f) 1) 3) in
  let pkt := Z.lor pkt (Z.shiftl (to_twos (rte_y f) 6) 6) in
  let pkt := Z.lor pkt (Z.shiftl (to_twos (rte_x f) 6) 12) in
  let pkt := Z.lor pkt (Z.shiftl (Z.land (rte_a0 f) 16383) 18) in
  let pkt := Z.lor pkt (Z.shiftl (Z.land (rte_cnt f) 4095) 32) in
  let pkt := Z.lor pkt (Z.shiftl (to_twos (rte_a_offset f) 12) 44) in
  let pkt := Z.lor pkt (Z.shiftl (Z.land (rte_const_raw f) 127) 56) in
  let pkt := Z.lor pkt (Z.shiftl (if rte_handshake f then 1 else 0) 63) in
  let pkt := Z.lor pkt (Z.shiftl (Z.land (rte_tag_id f) 255) 64) in
  let pkt := Z.lor pkt (Z.shiftl (if rte_en f then 1 else 0) 72) in
  Z.land pkt (Z.shiftl 1 128 - 1).

Definition decode_two_packets_from_cell (cell_bytes : list Z) : result (Z * Z) :=
  if negb (Nat.eqb (length cell_bytes) 32) then Err ValueError else
  let word256 := int_from_bytes cell_bytes in
  let lower128 := Z.land word256 (Z.shiftl 1 128 - 1) in
  let upper128 := Z.land (Z.shiftr word256 128) (Z.shiftl 1 128 - 1) in
  Ok (lower128, upper128).

(* ------------------------------------------------------------------ *)
(** ** Cell memory ([memory.py]) *)

Definition MEM_CELL_BYTES : Z := 32.

Record CoreMemory := mkCoreMemory {
  num_cells : Z;
  _cells : gmap Z (list Z) }.

Definition CoreMemory_new : CoreMemory := mkCoreMemory 24576 ∅.

Definition zero_cell : list Z := repeat 0 32.

Definition _bounds_check_cell (m : CoreMemory) (addr : Z) : result unit :=
  if (0 <=? addr) && (addr <? num_cells m) then Ok tt else Err IndexError.

Definition read_cell (m : CoreMemory) (addr : Z) : result (list Z) :=
  let! _ := _bounds_check_cell m addr in
  Ok (default zero_cell (_cells m !! addr)).

Definition _get_cell_buf (m : CoreMemory) (addr : Z) : list Z :=
  default zero_cell (_cells m !! addr).

Definition set_cell (m : CoreMemory) (addr : Z) (buf : list Z) : CoreMemory :=
  mkCoreMemory (num_cells m) (<[addr := buf]> (_cells m)).

(** Python slice assignment [base[start:start+8] = data8]. *)
Definition splice (base : list Z) (start : nat) (data : list Z) : list Z :=
  firstn start base ++ data ++ skipn (start + length data) base.

Definition write_8B (m : CoreMemory) (cell_addr segment_idx : Z) (data8 : list Z)
  : result CoreMemory :=
  let! _ := _bounds_check_cell m cell_addr in
  if negb ((0 <=? segment_idx) && (segment_idx <=? 3)) then Err ValueError else
  if negb (Nat.eqb (length data8) 8) then Err ValueError else
  let base := _get_cell_buf m cell_addr in
  Ok (set_cell m cell_addr (splice base (Z.to_nat (segment_idx * 8)) data8)).

Definition write_1B (m : CoreMemory) (cell_addr byte_idx value : Z) : result CoreMemory :=
  let! _ := _bounds_check_cell m cell_addr in
  if negb ((0 <=? byte_idx) && (byte_idx <? MEM_CELL_BYTES)) then Err ValueError else
  if negb ((0 <=? value) && (value <=? 255)) then Err ValueError else
  let base := _get_cell_buf m cell_addr in
  Ok (set_cell m cell_addr (<[Z.to_nat byte_idx := value]> base)).

(** Python [data[off : off + chunk]]. *)
Definition pyslice (l : list Z) (lo hi : Z) : list Z :=
  firstn (Z.to_nat hi - Z.to_nat lo) (skipn (Z.to_nat lo) l).

(** The [while remaining > 0] loop of [read_bytes_linear]; every pass
    consumes at least one byte ([off < 32]), so [remaining] passes of fuel
    are enough. *)
Fixpoint read_bytes_loop (fuel : nat) (m : CoreMemory) (cell off remaining : Z)
  (out : list Z) : result (list Z) :=
  match fuel with
  | O => Ok out
  | S fuel' =>
      if remaining <=? 0 then Ok out else
      let chunk := Z.min remaining (MEM_CELL_BYTES - off) in
      let! data := read_cell m cell in
      read_bytes_loop fuel' m (cell + 1) 0 (remaining - chunk)
        (out ++ pyslice data off (off + chunk))
  end.

Definition read_bytes_linear (m : CoreMemory) (start_cell start_off length : Z)
  : result (list Z) :=
  if negb ((0 <=? start_off) && (start_off <? MEM_CELL_BYTES)) then Err AssertionError else
  read_bytes_loop (Z.to_nat length) m start_cell start_off length [].

Definition iter_cells_span_from_A_8B (a : Z) : Z * Z := (Z.shiftr a 2, Z.land a 3).
Definition iter_cells_span_from_A_1B (a : Z) : Z * Z := (Z.shiftr a 5, Z.land a 31).

(** [parse_router_table_from_memory]: the [for i in range(needed_cells)] loop. *)
Fixpoint parse_rt_loop (mem : CoreMemory) (base_addr message_num i : Z) (k : nat)
  (entries : list RouterTableEntry) : result (list RouterTableEntry) :=
  match k with
  | O => Ok entries
  | S k' =>
      let! cell := read_cell mem (base_addr + i) in
      let! lu := decode_two_packets_from_cell cell in
      let entries := entries ++ [from_packet128 (fst lu)] in
      let entries := if Z.of_nat (length entries) <? message_num
                     then entries ++ [from_packet128 (snd lu)] else entries in
      parse_rt_loop mem base_addr message_num (i + 1) k' entries
  end.

Definition parse_router_table_from_memory (mem : CoreMemory) (base_addr message_num : Z)
  : result (list RouterTableEntry) :=
  let needed_cells := (message_num + 1) / 2 in
  let! entries := parse_rt_loop mem base_addr message_num 0 (Z.to_nat needed_cells) [] in
  Ok (firstn (Z.to_nat message_num) entries).

(** [write_router_table_to_memory]: two packets per cell, written straight
    into [mem._cells] (no bounds check). *)
Fixpoint write_rt_loop (mem : CoreMemory) (addr : Z) (packets : list Z)
  : result CoreMemory :=
  let put low up k :=
    let word256 := Z.lor (Z.shiftl up 128) low in
    let! b := int_to_bytes 32 word256 in
    k (mkCoreMemory (num_cells mem) (<[addr := b]> (_cells mem))) in
  match packets with
  | [] => Ok mem
  | [low] => put low 0 (fun mem => Ok mem)
  | low :: up :: rest => put low up (fun mem => write_rt_loop mem (addr + 1) rest)
  end.

Definition write_router_table_to_memory (mem : CoreMemory) (base_addr : Z) (packets : list Z)
  : result CoreMemory :=
  write_rt_loop mem base_addr packets.

(* ------------------------------------------------------------------ *)
(** ** Cores and the simulator state ([core.py]) *)

Definition PendingEntry := (bool * RouterTableEntry * list Z)%type.

Record CoreNode := mkCoreNode {
  cy : Z;
  cx : Z;
  mem : CoreMemory;
  prim_queue : list PrimOp;
  pending_by_tag : gmap Z (list PendingEntry) }.

Definition set_mem (n : CoreNode) (m : CoreMemory) : CoreNode :=
  mkCoreNode (cy n) (cx n) m (prim_queue n) (pending_by_tag n).
Definition set_pending (n : CoreNode) (p : gmap Z (list PendingEntry)) : CoreNode :=
  mkCoreNode (cy n) (cx n) (mem n) (prim_queue n) p.
Definition set_queue (n : CoreNode) (q : list PrimOp) : CoreNode :=
  mkCoreNode (cy n) (cx n) (mem n) q (pending_by_tag n).

(** [NoCSimulator]: the grid shape and [self.cores], keyed by [(y, x)]. *)
Record Sim := mkSim {
  sim_h : Z;
  sim_w : Z;
  cores : gmap (Z * Z) CoreNode }.

(** Source accesses made by a Send.  This log has no counterpart in the
    Python code: it only records which source cells / bytes the router
    engine reads, so that properties of the source stream can be stated. *)
Inductive SrcAccess :=
| SrcCell (addr : Z)
| SrcByte (cell off : Z).

(** State-and-error monad threading the whole simulator; every core is
    looked up in [cores] at each access, so a Send whose destination is its
    own source core sees its own earlier writes, as the Python objects do. *)
Definition St := (Sim * list SrcAccess)%type.
Definition M (A : Type) := St -> result (A * St).

Definition ret {A} (a : A) : M A := fun s => Ok (a, s).
Definition mbind_M {A B} (m : M A) (k : A -> M B) : M B :=
  fun s => match m s with Ok (a, s') => k a s' | Err e => Err e end.
Definition lift {A} (r : result A) : M A :=
  fun s => match r with Ok a => Ok (a, s) | Err e => Err e end.

Notation "'let#' x ':=' m 'in' k" := (mbind_M m (fun x => k))
  (at level 200, x name, m at level 100, k at level 200).
Notation "m ;;; k" := (mbind_M m (fun _ => k)) (at level 100, right associativity).

Definition get_sim : M Sim := fun s => Ok (fst s, s).

(** [self.cores[c]] *)
Definition get_core (c : Z * Z) : M CoreNode :=
  fun s => match cores (fst s) !! c with
           | Some n => Ok (n, s)
           | None => Err KeyError
           end.

Definition put_core (c : Z * Z) (n : CoreNode) : M unit :=
  fun s => let sim := fst s in
           Ok (tt, (mkSim (sim_h sim) (sim_w sim) (<[c := n]> (cores sim)), snd s)).

Definition log_src (a : SrcAccess) : M unit := fun s => Ok (tt, (fst s, snd s ++ [a])).

(** Apply an in-place memory operation to core [c]'s memory. *)
Definition update_mem (c : Z * Z) (f : CoreMemory -> result CoreMemory) : M unit :=
  let# n := get_core c in
  let# m := lift (f (mem n)) in
  put_core c (set_mem n m).

(** [src_core.mem.read_cell(addr)] *)
Definition src_read_cell (src : Z * Z) (addr : Z) : M (list Z) :=
  let# n := get_core src in
  let# cell := lift (read_cell (mem n) addr) in
  log_src (SrcCell addr) ;;;
  ret cell.

(** [src_core.mem.read_bytes_linear(cell, off, 1)] *)
Definition src_read_byte (src : Z * Z) (cell off : Z) : M (list Z) :=
  let# n := get_core src in
  let# b := lift (read_bytes_linear (mem n) cell off 1) in
  log_src (SrcByte cell off) ;;;
  ret b.

Definition zrange (n : Z) : list Z := map Z.of_nat (seq 0 (Z.to_nat n)).

Fixpoint sum_list (l : list Z) : Z :=
  match l with [] => 0 | v :: l' => v + sum_list l' end.

Definition _wrap_coord (sim : Sim) (y x : Z) : Z * Z := (y mod sim_h sim, x mod sim_w sim).

(** [dst_core_offset_cell]: base of the first Recv of the queue with the
    RTE's tag (0 if none), plus the cell delta. *)
Fixpoint recv_base (q : list PrimOp) (tag : Z) : Z :=
  match q with
  | [] => 0
  | op :: q' =>
      match op_recv op with
      | Some rp => if rp_tag_id rp =? tag then rp_recv_addr rp else recv_base q' tag
      | None => recv_base q' tag
      end
  end.

Definition dst_core_offset_cell (q : list PrimOp) (rte : RouterTableEntry) (cell_delta : Z) : Z :=
  recv_base q (rte_tag_id rte) + cell_delta.

Definition has_recv_tag (tag : Z) (op : PrimOp) : bool :=
  match op_recv op with Some rp => rp_tag_id rp =? tag | None => false end.

Definition _find_recv_acceptor (dst : Z * Z) (tag : Z) : M bool :=
  let# n := get_core dst in
  ret (existsb (has_recv_tag tag) (prim_queue n)).

Definition unit_count (r : RouterTableEntry) : Z := if rte_cnt r =? 0 then 1 else rte_cnt r.

(* ------------------------------------------------------------------ *)
(** ** Router engine: Send *)

(** [for seg in range(4)]: one 8B segment per step, [A += 1]. *)
Fixpoint seg_loop (dst : Z * Z) (q : list PrimOp) (rte : RouterTableEntry)
  (cell_data : list Z) (segs : list Z) (a : Z) : M Z :=
  match segs with
  | [] => ret a
  | seg :: segs' =>
      let data8 := pyslice cell_data (seg * 8) (seg * 8 + 8) in
      let '(cell_delta, seg_idx) := iter_cells_span_from_A_8B a in
      let dst_cell_addr := dst_core_offset_cell q rte cell_delta in
      update_mem dst (fun m => write_8B m dst_cell_addr seg_idx data8) ;;;
      seg_loop dst q rte cell_data segs' (a + 1)
  end.

(** [for i in range(cell_per_message)] of [_send_cell_mode]. *)
Fixpoint cell_loop (src dst : Z * Z) (q : list PrimOp) (rte : RouterTableEntry)
  (gs src_cell_base : Z) (is : list Z) (a : Z) : M Z :=
  match is with
  | [] => ret a
  | i :: is' =>
      let# cell_data := src_read_cell src (src_cell_base + i) in
      let# a := seg_loop dst q rte cell_data [0; 1; 2; 3] a in
      let a := if (i + 1) mod gs =? 0 then a + (rte_a_offset rte - 1) else a in
      cell_loop src dst q rte gs src_cell_base is' a
  end.

Definition _send_cell_mode (src dst : Z * Z) (sp : SendPrim) (rte : RouterTableEntry)
  (msg_idx : nat) (msg_counts : list Z) : M unit :=
  let# dst_core := get_core dst in
  let cell_per_message := unit_count rte in
  let gs := group_size rte in
  let a := rte_a0 rte in
  let src_cell_base := sp_send_addr sp + sum_list (firstn msg_idx msg_counts) in
  let# _ := cell_loop src dst (prim_queue dst_core) rte gs src_cell_base
              (zrange cell_per_message) a in
  ret tt.

(** [while remaining > 0] of [_send_neuron_mode]; one byte per pass. *)
Fixpoint neuron_loop (fuel : nat) (src dst : Z * Z) (q : list PrimOp)
  (rte : RouterTableEntry) (gs neuron_per_message : Z)
  (start_cell start_off remaining a : Z) : M unit :=
  match fuel with
  | O => ret tt
  | S fuel' =>
      if remaining <=? 0 then ret tt else
      let# data_byte := src_read_byte src start_cell start_off in
      let# byte_val := lift (match data_byte with b :: _ => Ok b | [] => Err IndexError end) in
      let '(cell_delta, byte_idx) := iter_cells_span_from_A_1B a in
      let dst_cell_addr := dst_core_offset_cell q rte cell_delta in
      update_mem dst (fun m => write_1B m dst_cell_addr byte_idx byte_val) ;;;
      let start_off := start_off + 1 in
      let start_cell := if start_off =? 32 then start_cell + 1 else start_cell in
      let start_off := if start_off =? 32 then 0 else start_off in
      let remaining := remaining - 1 in
      let a := a + 1 in
      let sent_count := neuron_per_message - remaining in
      let a := if sent_count mod gs =? 0 then a + (rte_a_offset rte - 1) else a in
      neuron_loop fuel' src dst q rte gs neuron_per_message start_cell start_off remaining a
  end.

Definition _send_neuron_mode (src dst : Z * Z) (sp : SendPrim) (rte : RouterTableEntry)
  (msg_idx : nat) (msg_counts : list Z) : M unit :=
  let# dst_core := get_core dst in
  let neuron_per_message := unit_count rte in
  let gs := group_size rte in
  let a := rte_a0 rte in
  let prev_neurons := sum_list (firstn msg_idx msg_counts) in
  let start_cell := sp_send_addr sp + prev_neurons / 32 in
  let start_off := prev_neurons mod 32 in
  neuron_loop (Z.to_nat neuron_per_message) src dst (prim_queue dst_core) rte gs
    neuron_per_message start_cell start_off neuron_per_message a.

(** Payload materialisation of [_buffer_send_payload]. *)
Fixpoint buf_cells (src : Z * Z) (src_cell_base : Z) (is : list Z) (data : list Z)
  : M (list Z) :=
  match is with
  | [] => ret data
  | i :: is' =>
      let# cell := src_read_cell src (src_cell_base + i) in
      buf_cells src src_cell_base is' (data ++ cell)
  end.

Fixpoint buf_bytes (fuel : nat) (src : Z * Z) (start_cell start_off : Z) (data : list Z)
  : M (list Z) :=
  match fuel with
  | O => ret data
  | S fuel' =>
      let# b := src_read_byte src start_cell start_off in
      let start_off := start_off + 1 in
      let start_cell := if start_off =? 32 then start_cell + 1 else start_cell in
      let start_off := if start_off =? 32 then 0 else start_off in
      buf_bytes fuel' src start_cell start_off (data ++ b)
  end.

(** [if tag not in dst_core.pending_by_tag: dst_core.pending_by_tag[tag] = []] *)
Definition ensure_pending (dst : Z * Z) (tag : Z) : M unit :=
  let# n := get_core dst in
  match pending_by_tag n !! tag with
  | Some _ => ret tt
  | None => put_core dst (set_pending n (<[tag := []]> (pending_by_tag n)))
  end.

(** [dst_core.pending_by_tag[tag].append(entry)] *)
Definition append_pending (dst : Z * Z) (tag : Z) (entry : PendingEntry) : M unit :=
  let# n := get_core dst in
  let l := default [] (pending_by_tag n !! tag) in
  put_core dst (set_pending n (<[tag := l ++ [entry]]> (pending_by_tag n))).

Definition _buffer_send_payload (src dst : Z * Z) (sp : SendPrim) (rte : RouterTableEntry)
  (msg_idx : nat) (msg_counts : list Z) : M unit :=
  let# _ := get_core dst in
  let tag := rte_tag_id rte in
  ensure_pending dst tag ;;;
  if sp_cell_or_neuron sp =? 0 then
    let cell_per_message := unit_count rte in
    let src_cell_base := sp_send_addr sp + sum_list (firstn msg_idx msg_counts) in
    let# data := buf_cells src src_cell_base (zrange cell_per_message) [] in
    append_pending dst tag (true, rte, data)
  else
    let neuron_per_message := unit_count rte in
    let prev := sum_list (firstn msg_idx msg_counts) in
    let start_cell := sp_send_addr sp + prev / 32 in
    let start_off := prev mod 32 in
    let# data := buf_bytes (Z.to_nat neuron_per_message) src start_cell start_off [] in
    append_pending dst tag (false, rte, data).

(** The [for msg_idx, rte in enumerate(rtes)] loop of [_execute_send]. *)
Fixpoint send_loop (src : Z * Z) (src_core : CoreNode) (sp : SendPrim)
  (rtes : list RouterTableEntry) (msg_idx : nat) (msg_counts : list Z) : M unit :=
  match rtes with
  | [] => ret tt
  | rte :: rtes' =>
      (if negb (rte_en rte) then ret tt else
       let# sim := get_sim in
       let dst := _wrap_coord sim (cy src_core + rte_y rte) (cx src_core + rte_x rte) in
       let# acceptor := (if rte_handshake rte then _find_recv_acceptor dst (rte_tag_id rte)
                         else ret true) in
       if negb acceptor then _buffer_send_payload src dst sp rte msg_idx msg_counts
       else if sp_cell_or_neuron sp =? 0 then _send_cell_mode src dst sp rte msg_idx msg_counts
       else _send_neuron_mode src dst sp rte msg_idx msg_counts) ;;;
      send_loop src src_core sp rtes' (S msg_idx) msg_counts
  end.

(** [sp.normalized_message_num()]: [SendPrim] (prims.py) defines no
    attribute [normalized_message_num], so the lookup raises
    [AttributeError]. *)
Definition SendPrim_normalized_message_num (sp : SendPrim) : result Z := Err AttributeError.

Definition _execute_send (src : Z * Z) (sp : SendPrim) : M unit :=
  let# src_core := get_core src in
  let# msg_num := lift (SendPrim_normalized_message_num sp) in
  let# rtes := lift (parse_router_table_from_memory (mem src_core) (sp_para_addr sp) msg_num) in
  let msg_counts := map unit_count rtes in
  send_loop src src_core sp rtes 0 msg_counts.

(* ------------------------------------------------------------------ *)
(** ** Router engine: Recv *)

(** [for i in range(0, len(payload), 32)] of [_execute_recv] (cell mode);
    [i] is [32 * k]. *)
Fixpoint replay_cells (dst : Z * Z) (q : list PrimOp) (rte : RouterTableEntry) (gs : Z)
  (payload : list Z) (ks : list Z) (a : Z) : M Z :=
  match ks with
  | [] => ret a
  | k :: ks' =>
      let i := 32 * k in
      let cell_bytes := pyslice payload i (i + 32) in
      let# a := seg_loop dst q rte cell_bytes [0; 1; 2; 3] a in
      let sent_cells := i / 32 + 1 in
      let a := if sent_cells mod gs =? 0 then a + (rte_a_offset rte - 1) else a in
      replay_cells dst q rte gs payload ks' a
  end.

(** [for idx, byte_val in enumerate(payload)] of [_execute_recv] (neuron mode). *)
Fixpoint replay_bytes (dst : Z * Z) (q : list PrimOp) (rte : RouterTableEntry) (gs : Z)
  (payload : list Z) (idx a : Z) : M unit :=
  match payload with
  | [] => ret tt
  | byte_val :: payload' =>
      let '(cell_delta, byte_idx) := iter_cells_span_from_A_1B a in
      let dst_cell_addr := dst_core_offset_cell q rte cell_delta in
      update_mem dst (fun m => write_1B m dst_cell_addr byte_idx byte_val) ;;;
      let a := a + 1 in
      let a := if (idx + 1) mod gs =? 0 then a + (rte_a_offset rte - 1) else a in
      replay_bytes dst q rte gs payload' (idx + 1) a
  end.

Definition replay_entry (dst : Z * Z) (q : list PrimOp) (e : PendingEntry) : M unit :=
  let '(is_cell_mode, rte_fields, payload) := e in
  let rte := from_packet128 (encode_packet_from_fields rte_fields) in
  if is_cell_mode then
    let# _ := replay_cells dst q rte (group_size rte) payload
                (zrange ((Z.of_nat (length payload) + 31) / 32)) (rte_a0 rte) in
    ret tt
  else replay_bytes dst q rte (group_size rte) payload 0 (rte_a0 rte).

Fixpoint replay_list (dst : Z * Z) (q : list PrimOp) (es : list PendingEntry) : M unit :=
  match es with
  | [] => ret tt
  | e :: es' => replay_entry dst q e ;;; replay_list dst q es'
  end.

Definition _execute_recv (dst : Z * Z) (rp : RecvPrim) : M unit :=
  let# dst_core := get_core dst in
  let tag := rp_tag_id rp in
  match pending_by_tag dst_core !! tag with
  | None => ret tt
  | Some pending_list =>
      put_core dst (set_pending dst_core (delete tag (pending_by_tag dst_core))) ;;;
      replay_list dst (prim_queue dst_core) pending_list
  end.

(* ------------------------------------------------------------------ *)
(** ** Scheduler ([NoCSimulator.run]) *)

Definition messages_truthy (sp : SendPrim) : option (list RouterTableEntry) :=
  match sp_messages sp with Some (_ :: _ as l) => Some l | _ => None end.

Definition _prepare_router_msgs_if_needed (src : Z * Z) (sp : SendPrim) : M unit :=
  match messages_truthy sp with
  | Some msgs =>
      let packets := map encode_packet_from_fields msgs in
      update_mem src (fun m => write_router_table_to_memory m (sp_para_addr sp) packets)
  | None => ret tt
  end.

(** The [else] branch of the scheduler: recv-side effects, then send-side. *)
Definition exec_op (coord : Z * Z) (op : PrimOp) : M unit :=
  (match op_recv op with Some rp => _execute_recv coord rp | None => ret tt end) ;;;
  match op_send op with
  | Some sp => _prepare_router_msgs_if_needed coord sp ;;; _execute_send coord sp
  | None => ret tt
  end.

(** Local variables of [run]: [indices], [stopped] and [remaining]. *)
Record Sched := mkSched {
  sc_st : St;
  indices : gmap (Z * Z) nat;
  stopped : gmap (Z * Z) bool;
  remaining : Z }.

Definition idx_of (ss : Sched) (c : Z * Z) : nat := default 0%nat (indices ss !! c).
Definition stopped_of (ss : Sched) (c : Z * Z) : bool := default false (stopped ss !! c).

(** The queue of core [c] in state [ss] ([node.prim_queue]). *)
Definition queue_of (ss : Sched) (c : Z * Z) : list PrimOp :=
  match cores (fst (sc_st ss)) !! c with Some n => prim_queue n | None => [] end.

(** A core takes part in a pass when it is not stopped and has ops left. *)
Definition eligible (ss : Sched) (c : Z * Z) : bool :=
  negb (stopped_of ss c) && (idx_of ss c <? length (queue_of ss c))%nat.

(** One iteration of [for coord, node in self.cores.items()]. *)
Definition core_step (ss : Sched) (c : Z * Z) : result (Sched * bool) :=
  if stopped_of ss c then Ok (ss, false) else
  let idx := idx_of ss c in
  match nth_error (queue_of ss c) idx with
  | None => Ok (ss, false)
  | Some op =>
      let! st' :=
        match kind op with
        | KStop => Ok (sc_st ss)
        | _ => match exec_op c op (sc_st ss) with Ok (_, st') => Ok st' | Err e => Err e end
        end in
      let stopped' := match kind op with
                      | KStop => <[c := true]> (stopped ss)
                      | _ => stopped ss
                      end in
      Ok (mkSched st' (<[c := S idx]> (indices ss)) stopped' (remaining ss - 1), true)
  end.

(** One pass over the cores, in the order of [cs]. *)
Fixpoint round (ss : Sched) (cs : list (Z * Z)) (progressed : bool) : result (Sched * bool) :=
  match cs with
  | [] => Ok (ss, progressed)
  | c :: cs' =>
      let! r := core_step ss c in
      round (fst r) cs' (progressed || snd r)
  end.

(** Row-major order of [self.cores] (insertion order of the dict). *)
Definition coords (h w : Z) : list (Z * Z) :=
  flat_map (fun y => map (fun x => (y, x)) (zrange w)) (zrange h).

(** [while remaining > 0: ... if not progressed: break].  Every pass that
    progresses decreases [remaining]; [fuel] only has to exceed the initial
    [remaining]. *)
Fixpoint run_loop (fuel : nat) (cs : list (Z * Z)) (ss : Sched) : result Sched :=
  match fuel with
  | O => Ok ss
  | S fuel' =>
      if remaining ss <=? 0 then Ok ss else
      let! r := round ss cs false in
      if snd r then run_loop fuel' cs (fst r) else Ok (fst r)
  end.

Definition sched_init (sim : Sim) : Sched :=
  let cs := coords (sim_h sim) (sim_w sim) in
  mkSched (sim, [])
    (list_to_map (map (fun c => (c, 0%nat)) cs))
    (list_to_map (map (fun c => (c, false)) cs))
    (sum_list (map (fun c => match cores sim !! c with
                             | Some n => Z.of_nat (length (prim_queue n))
                             | None => 0 end) cs)).

Definition run (sim : Sim) : result Sim :=
  let ss := sched_init sim in
  let! ss' := run_loop (S (Z.to_nat (remaining ss))) (coords (sim_h sim) (sim_w sim)) ss in
  Ok (fst (sc_st ss')).

(* ------------------------------------------------------------------ *)
(** ** Construction: seeding and parsing ([NoCSimulator.__init__]) *)

(** [CoreConfig]; [init_mem] stands for the [(addr, cell bytes)] lines of
    the init file (file reading and hex decoding are outside the model). *)
Record CoreConfig := mkCoreConfig {
  init_mem : option (list (Z * list Z));
  cfg_prim_queue : list PrimOp }.

Definition CoreConfig_default : CoreConfig := mkCoreConfig None [].

(** [load_from_inputs_file]: out-of-range lines are skipped. *)
Definition load_init_if_any (m : CoreMemory) (init : option (list (Z * list Z))) : CoreMemory :=
  match init with
  | None => m
  | Some lines =>
      fold_left (fun m '(addr, data) =>
                   if (addr <? 0) || (addr >=? num_cells m) then m
                   else mkCoreMemory (num_cells m) (<[addr := data]> (_cells m)))
        lines m
  end.

Definition nonzero_buf (buf : list Z) : bool := existsb (fun b => negb (b =? 0)) buf.

(** [while next_addr in occupied and next_addr < num_cells: next_addr += 1] *)
Fixpoint skip_occupied (fuel : nat) (occupied : gset Z) (n nc : Z) : Z :=
  match fuel with
  | O => n
  | S fuel' =>
      if bool_decide (n ∈ occupied) && (n <? nc)
      then skip_occupied fuel' occupied (n + 1) nc else n
  end.

(** First pass: ops with an explicit [mem_addr], written straight into
    [mem._cells]. *)
Fixpoint seed_explicit (m : CoreMemory) (occupied : gset Z) (ops : list PrimOp)
  : result (CoreMemory * gset Z) :=
  match ops with
  | [] => Ok (m, occupied)
  | op :: ops' =>
      match mem_addr op with
      | Some a =>
          let! cell_bytes := encode_prim_cell op in
          seed_explicit (mkCoreMemory (num_cells m) (<[a := cell_bytes]> (_cells m)))
            ({[a]} ∪ occupied) ops'
      | None => seed_explicit m occupied ops'
      end
  end.

(** Second pass: remaining ops placed sequentially from cell 0. *)
Fixpoint seed_sequential (m : CoreMemory) (occupied : gset Z) (next_addr : Z)
  (ops : list PrimOp) : result CoreMemory :=
  match ops with
  | [] => Ok m
  | op :: ops' =>
      match mem_addr op with
      | Some _ => seed_sequential m occupied next_addr ops'
      | None =>
          let next_addr := skip_occupied (Z.to_nat (num_cells m - next_addr)) occupied
                             next_addr (num_cells m) in
          if next_addr >=? num_cells m then Ok m else
          let! cell_bytes := encode_prim_cell op in
          seed_sequential (mkCoreMemory (num_cells m) (<[next_addr := cell_bytes]> (_cells m)))
            ({[next_addr]} ∪ occupied) (next_addr + 1) ops'
      end
  end.

(** Third step: inline router-table messages written at [para_addr]. *)
Fixpoint seed_messages (m : CoreMemory) (ops : list PrimOp) : result CoreMemory :=
  match ops with
  | [] => Ok m
  | op :: ops' =>
      match op_send op with
      | Some sp =>
          match messages_truthy sp with
          | Some msgs =>
              let! m := write_router_table_to_memory m (sp_para_addr sp)
                          (map encode_packet_from_fields msgs) in
              seed_messages m ops'
          | None => seed_messages m ops'
          end
      | None => seed_messages m ops'
      end
  end.

Definition _seed_config_into_memory (m : CoreMemory) (cfg : CoreConfig) : result CoreMemory :=
  let occupied : gset Z :=
    dom (filter (fun kv : Z * list Z => nonzero_buf kv.2 = true) (_cells m)) in
  let! r := seed_explicit m occupied (cfg_prim_queue cfg) in
  let! m := seed_sequential (fst r) (snd r) 0 (cfg_prim_queue cfg) in
  seed_messages m (cfg_prim_queue cfg).

Fixpoint parse_prims_loop (fuel : nat) (m : CoreMemory) (addr : Z) (prims : list PrimOp)
  : result (list PrimOp) :=
  match fuel with
  | O => Ok prims
  | S fuel' =>
      if addr <? num_cells m then
        let! cell := read_cell m addr in
        let! op := decode_prim_cell cell in
        match op with
        | None => Ok prims
        | Some op => parse_prims_loop fuel' m (addr + 1) (prims ++ [op])
        end
      else Ok prims
  end.

Definition _parse_prims_from_memory (m : CoreMemory) : result (list PrimOp) :=
  parse_prims_loop (Z.to_nat (num_cells m)) m 0 [].

(** Body of the constructor's double loop for core [(y, x)]. *)
Definition build_core (cfgs : gmap (Z * Z) CoreConfig) (c : Z * Z) : result CoreNode :=
  let cfg := default CoreConfig_default (cfgs !! c) in
  let m := load_init_if_any CoreMemory_new (init_mem cfg) in
  let! m := _seed_config_into_memory m cfg in
  let! q := _parse_prims_from_memory m in
  Ok (mkCoreNode c.1 c.2 m q ∅).

Fixpoint build_cores (cfgs : gmap (Z * Z) CoreConfig) (cs : list (Z * Z))
  (acc : gmap (Z * Z) CoreNode) : result (gmap (Z * Z) CoreNode) :=
  match cs with
  | [] => Ok acc
  | c :: cs' =>
      let! n := build_core cfgs c in
      build_cores cfgs cs' (<[c := n]> acc)
  end.

Definition NoCSimulator_init (h w : Z) (cfgs : gmap (Z * Z) CoreConfig) : result Sim :=
  let! cs := build_cores cfgs (coords h w) ∅ in
  Ok (mkSim h w cs).

(** [run_simulation] *)
Definition run_simulation (h w : Z) (cfgs : gmap (Z * Z) CoreConfig) : result Sim :=
  let! sim := NoCSimulator_init h w cfgs in
  run sim.

(* ------------------------------------------------------------------ *)
(** ** Field ranges and what the primitive codec recovers *)

(** Values that fit the widths [encode_prim_cell] writes them into. *)
Definition send_fields_in_range (sp : SendPrim) : Prop :=
  0 <= sp_deps sp < 256 /\ 0 <= sp_cell_or_neuron sp <= 1 /\
  0 <= sp_message_num sp <= 256 /\ 0 <= sp_send_addr sp < 65536 /\
  0 <= sp_para_addr sp < 65536.

Definition recv_fields_in_range (rp : RecvPrim) : Prop :=
  0 <= rp_deps rp < 256 /\ 0 <= rp_recv_addr rp < 65536 /\ 0 <= rp_CXY rp < 4 /\
  -32 <= rp_mc_x rp < 32 /\ -32 <= rp_mc_y rp < 32 /\
  0 <= rp_tag_id rp < 256 /\ 0 <= rp_end_num rp < 256.

Definition rte_fields_in_range (r : RouterTableEntry) : Prop :=
  0 <= rte_s r <= 1 /\ 0 <= rte_t r <= 1 /\ 0 <= rte_e r <= 1 /\ 0 <= rte_q r <= 1 /\
  -32 <= rte_y r < 32 /\ -32 <= rte_x r < 32 /\ 0 <= rte_a0 r < 16384 /\
  0 <= rte_cnt r < 4096 /\ -2048 <= rte_a_offset r < 2048 /\
  0 <= rte_const_raw r < 128 /\ 0 <= rte_tag_id r < 256.

(** The send-half fields a decoded op carries back: the cell has a single
    [deps] field, written last by the recv half when both are present. *)
Definition send_half_recovered (op op' : PrimOp) : Prop :=
  match op_send op, op_send op' with
  | Some sp, Some sp' =>
      sp_deps sp' = (match op_recv op with Some rp => rp_deps rp | None => sp_deps sp end) /\
      sp_cell_or_neuron sp' = sp_cell_or_neuron sp /\
      sp_message_num sp' = Z.max 1 (sp_message_num sp) /\
      sp_send_addr sp' = sp_send_addr sp /\
      sp_para_addr sp' = sp_para_addr sp
  | None, None => True
  | _, _ => False
  end.

Definition recv_half_recovered (op op' : PrimOp) : Prop :=
  match op_recv op, op_recv op' with
  | Some rp, Some rp' =>
      rp_deps rp' = rp_deps rp /\ rp_recv_addr rp' = rp_recv_addr rp /\
      rp_tag_id rp' = rp_tag_id rp /\ rp_end_num rp' = rp_end_num rp
  | None, None => True
  | _, _ => False
  end.

(** A Send with [message_num = 0] (the spec's "N=1 if 0" case). *)
Definition send_op_mn0 : PrimOp :=
  mkPrimOp KSend (Some (mkSendPrim 0 0 0 0 16 32 None)) None None None.

(** A Send and an entry with every field in range, used as concrete inputs. *)
Definition send_op_in_range : PrimOp :=
  mkPrimOp KSend (Some (mkSendPrim 3 1 0 2 16 32 None)) None None None.

Definition rte_in_range : RouterTableEntry := mkRTE 1 0 1 0 (-3) 5 100 8 (-7) 3 true 42 true.


(* ------------------------------------------------------------------ *)
(** ** Scenarios of the specification *)

(** S1: core (0,0) sends its cell 0x10 to core (0,1), tag 7. *)
Definition s1_src_cell : list Z :=
  [1; 2; 3; 4; 5; 6; 7; 8; 17; 18; 19; 20; 21; 22; 23; 24;
   33; 34; 35; 36; 37; 38; 39; 40; 49; 50; 51; 52; 53; 54; 55; 56].

Definition s1_msg : RouterTableEntry := mkRTE 0 0 0 0 0 1 0 1 0 0 false 7 true.

Definition s1_send : PrimOp :=
  mkPrimOp KSend (Some (mkSendPrim 0 0 0 0 16 32 (Some [s1_msg]))) None None None.

Definition s1_recv : PrimOp :=
  mkPrimOp KRecv None (Some (mkRecvPrim 0 64 7 0 0 0 0 0 false)) None None.

Definition s1_cfgs : gmap (Z * Z) CoreConfig :=
  <[(0, 1) := mkCoreConfig None [s1_recv; stop_op]]>
    {[(0, 0) := mkCoreConfig (Some [(16, s1_src_cell)]) [s1_send; stop_op]]}.

(** S4: a neuron-mode Send of one message, CNT=8, A0=0, CONST=3, A_OFFSET=8,
    source bytes 0xA0..0xA7 in cell 0x10 of a 1x1 grid (self target). *)
Definition s4_src_cell : list Z := [160; 161; 162; 163; 164; 165; 166; 167] ++ repeat 0 24.

Definition s4_rte : RouterTableEntry := mkRTE 0 0 0 0 0 0 0 8 8 3 false 0 true.

Definition s4_sp : SendPrim := mkSendPrim 0 1 0 1 16 32 None.

Definition s4_sim : Sim :=
  mkSim 1 1 {[(0, 0) := mkCoreNode 0 0 (mkCoreMemory 24576 {[16 := s4_src_cell]}) [] ∅]}.

(** A Recv placed at an explicit cell address. *)
Definition recv_at (a : Z) : CoreConfig :=
  mkCoreConfig None [mkPrimOp KRecv None (Some RecvPrim_default) None (Some a)].

(* ------------------------------------------------------------------ *)
(** ** Source reads of a Send *)

(** [m] appends exactly [l] to the source-read log whenever it succeeds. *)
Definition logs {A} (m : M A) (l : list SrcAccess) : Prop :=
  forall st a st', m st = Ok (a, st') -> snd st' = snd st ++ l.

(** Unit [u] of the source stream that starts at cell [send_addr]: a cell
    in cell mode, a byte ([u / 32], [u mod 32]) in neuron mode. *)
Definition unit_access (cell_mode : bool) (send_addr u : Z) : SrcAccess :=
  if cell_mode then SrcCell (send_addr + u) else SrcByte (send_addr + u / 32) (u mod 32).

(** Message [i] reads units [S_i .. S_i + c_i - 1] where
    [S_i = sum (msg_counts[:i])], and nothing when its EN bit is 0. *)
Fixpoint expected_reads (cell_mode : bool) (send_addr : Z) (rtes : list RouterTableEntry)
  (msg_idx : nat) (msg_counts : list Z) : list SrcAccess :=
  match rtes with
  | [] => []
  | rte :: rtes' =>
      (if rte_en rte
       then map (fun k => unit_access cell_mode send_addr
                            (sum_list (firstn msg_idx msg_counts) + k))
              (zrange (unit_count rte))
       else [])
      ++ expected_reads cell_mode send_addr rtes' (S msg_idx) msg_counts
  end.

(** S3: a 1x1 grid, a cell-mode Send of two one-cell messages to itself,
    the first with EN=0; source cells 0x10 and 0x11 differ. *)
Definition s3_node : CoreNode :=
  mkCoreNode 0 0 (mkCoreMemory 24576 {[16 := repeat 1 32; 17 := repeat 2 32]}) [] ∅.

Definition s3_sim : Sim := mkSim 1 1 {[(0, 0) := s3_node]}.

Definition s3_rtes : list RouterTableEntry :=
  [mkRTE 0 0 0 0 0 0 0 1 0 0 false 0 false; mkRTE 0 0 0 0 0 0 0 1 0 0 false 0 true].

Definition s3_sp : SendPrim := mkSendPrim 0 0 0 2 16 32 None.

(** [m] leaves the simulator state unchanged (it may only log reads). *)
Definition keeps_sim {A} (m : M A) : Prop :=
  forall st a st', m st = Ok (a, st') -> fst st' = fst st.

(** A core holding two buffered payloads for tag 5 and an empty queue. *)
Definition pending_node : CoreNode :=
  mkCoreNode 0 0 CoreMemory_new []
    {[5 := [(true, s1_msg, repeat 1 32); (true, s1_msg, repeat 2 32)]]}.

Definition pending_sim : Sim := mkSim 1 1 {[(0, 0) := pending_node]}.

(** [m] leaves every core's primitive queue as it found it. *)
Definition keeps_queues {A} (m : M A) : Prop :=
  forall st a st', m st = Ok (a, st') ->
  forall c, option_map prim_queue (cores (fst st') !! c) = option_map prim_queue (cores (fst st) !! c).

(** A 1x2 array: core (0,0) holds a lone Stop, core (0,1) nothing. *)
Definition c8_sim : Sim :=
  mkSim 1 2 (<[(0, 1) := mkCoreNode 0 1 CoreMemory_new [] ∅]>
              {[(0, 0) := mkCoreNode 0 0 CoreMemory_new [stop_op] ∅]}).


(* ------------------------------------------------------------------ *)
(** ** Memory invariants *)

(** A Python [bytes] value: every element in [0, 256). *)
Definition byte_list (l : list Z) : Prop := Forall (fun b => 0 <= b < 256) l.

(** Every cell stored in [_cells] is a 32-byte buffer. *)
Definition cells_wf (m : CoreMemory) : Prop :=
  map_Forall (fun _ b => length b = 32%nat /\ byte_list b) (_cells m).

(** The byte at linear byte address [a]: cell [a / 32], offset [a mod 32]. *)
Definition byte_at (m : CoreMemory) (a : Z) : Z :=
  nth (Z.to_nat (a mod 32)) (_get_cell_buf m (a / 32)) 0.

(** The [k]-th 128-bit packet of a router table stored from cell [base]:
    the lower half of cell [base + k/2] for even [k], the upper half for odd [k]. *)
Definition rt_packet_at (m : CoreMemory) (base k : Z) : Z :=
  match decode_two_packets_from_cell (_get_cell_buf m (base + k / 2)) with
  | Ok (lo, up) => if k mod 2 =? 0 then lo else up
  | Err _ => 0
  end.

(** [m] leaves the pending buffers of every core as it found them. *)
Definition keeps_pending {A} (m : M A) : Prop :=
  forall st a st', m st = Ok (a, st') ->
  forall c, option_map pending_by_tag (cores (fst st') !! c) =
            option_map pending_by_tag (cores (fst st) !! c).

(* ------------------------------------------------------------------ *)
(** ** [_hex_to_bytes_32B] (memory.py) over strings of code points below 256 *)

(** [str.isspace] of one character: the ASCII controls 9..13 and 28..31,
    the space, U+0085 and U+00A0. [str.strip()] and [str.split()] with no
    argument cut at these characters. *)
Definition py_isspace (c : Ascii.ascii) : bool :=
  let n := Ascii.nat_of_ascii c in
  ((9 <=? n) && (n <=? 13))%nat || ((28 <=? n) && (n <=? 32))%nat ||
  (n =? 133)%nat || (n =? 160)%nat.

(** The whitespace [bytes.fromhex] skips between two hex pairs ([Py_ISSPACE]). *)
Definition ascii_isspace (c : Ascii.ascii) : bool :=
  let n := Ascii.nat_of_ascii c in ((9 <=? n) && (n <=? 13))%nat || (n =? 32)%nat.

(** Value of one hex digit, either case. *)
Definition hex_digit (c : Ascii.ascii) : option Z :=
  let n := Z.of_nat (Ascii.nat_of_ascii c) in
  if (48 <=? n) && (n <=? 57) then Some (n - 48)
  else if (65 <=? n) && (n <=? 70) then Some (n - 55)
  else if (97 <=? n) && (n <=? 102) then Some (n - 87)
  else None.

(** [str.zfill(width)]: zeros padded on the left, after a leading sign. *)
Definition zfill (s : list Ascii.ascii) (width : nat) : list Ascii.ascii :=
  if (width <=? length s)%nat then s else
  let fill := repeat (Ascii.ascii_of_nat 48) (width - length s) in
  match s with
  | c :: s' =>
      if (Ascii.nat_of_ascii c =? 43)%nat || (Ascii.nat_of_ascii c =? 45)%nat
      then c :: fill ++ s' else fill ++ s
  | [] => fill
  end.

(** [bytes.fromhex(s)] *)
Fixpoint bytes_fromhex (s : list Ascii.ascii) : result (list Z) :=
  match s with
  | [] => Ok []
  | c :: s' =>
      if ascii_isspace c then bytes_fromhex s' else
      match s' with
      | [] => Err ValueError
      | d :: s'' =>
          match hex_digit c, hex_digit d with
          | Some t, Some b =>
              let! r := bytes_fromhex s'' in Ok ((16 * t + b) :: r)
          | _, _ => Err ValueError
          end
      end
  end.

Definition _hex_to_bytes_32B (hex_str : list Ascii.ascii) : result (list Z) :=
  let s := List.filter (fun c => negb (py_isspace c)) hex_str in
  let s := if (length s <? 64)%nat then zfill s 64
           else if (64 <? length s)%nat then skipn (length s - 64) s
           else s in
  bytes_fromhex s.

(** [int(s, 16)] of a string of hex digits. *)
Definition hex_value (s : list Ascii.ascii) : Z :=
  fold_left (fun acc c => acc * 16 + default 0 (hex_digit c)) s 0.

(* ------------------------------------------------------------------ *)
(** ** The buffering branch of the Send loop *)

(** Message [rte] of a Send issued by [src_core] takes the buffering branch
    of [_execute_send]'s loop with destination [dst] and tag [tag]: it is
    enabled, asks for a handshake, carries the tag, is routed to [dst], and
    [dst]'s queue holds no Recv with the tag. *)
Definition buffers_to (sim : Sim) (src_core : CoreNode) (dst : Z * Z) (tag : Z)
  (rte : RouterTableEntry) : bool :=
  rte_en rte && rte_handshake rte && (rte_tag_id rte =? tag) &&
  bool_decide (_wrap_coord sim (cy src_core + rte_y rte) (cx src_core + rte_x rte) = dst) &&
  negb (match cores sim !! dst with
        | Some n => existsb (has_recv_tag tag) (prim_queue n)
        | None => false
        end).

(** The entries [_buffer_send_payload] appends for the messages [rtes],
    carrying the payloads [datas]. *)
Definition pending_entries (sp : SendPrim) (rtes : list RouterTableEntry)
  (datas : list (list Z)) : list PendingEntry :=
  zip_with (fun r d => (sp_cell_or_neuron sp =? 0, r, d)) rtes datas.

(** A tag's pending list after appending [es] to it; the list is created
    empty before the first append. *)
Definition append_opt {A} (o : option (list A)) (es : list A) : option (list A) :=
  match es with [] => o | _ :: _ => Some (default [] o ++ es) end.

(** The pending list of core [c] for [tag], when the core exists. *)
Definition pend_at (sim : Sim) (c : Z * Z) (tag : Z) : option (option (list PendingEntry)) :=
  option_map (fun n => pending_by_tag n !! tag) (cores sim !! c).

(** [m] leaves the array's height and width as it found them. *)
Definition keeps_dims {A} (m : M A) : Prop :=
  forall st a st', m st = Ok (a, st') ->
  sim_h (fst st') = sim_h (fst st) /\ sim_w (fst st') = sim_w (fst st).

(** An enabled one-cell handshake message of tag 5 routed to its own core. *)
Definition fifo_rte : RouterTableEntry := mkRTE 0 0 0 0 0 0 0 1 0 0 true 5 true.

(* ================================================================== *)
(** * Proofs *)

(* ------------------------------------------------------------------ *)
(** ** Byte conversions *)

Definition from_le (l : list Z) : Z := fold_right (fun x acc => acc * 256 + x) 0 l.

Lemma int_from_bytes_app (l : list Z) (x : Z) :
  int_from_bytes (l ++ [x]) = int_from_bytes l * 256 + x.
Proof. unfold int_from_bytes. now rewrite fold_left_app. Qed.

Lemma int_from_bytes_rev (l : list Z) : int_from_bytes (rev l) = from_le l.
Proof.
  induction l as [|x l IH]; [reflexivity|].
  cbn [rev from_le fold_right]. rewrite int_from_bytes_app, IH. reflexivity.
Qed.

Lemma from_le_split (n : nat) (v : Z) : from_le (le_split n v) = v mod 256 ^ Z.of_nat n.
Proof.
  revert v; induction n as [|n IH]; intros v.
  - cbn. now rewrite Z.mod_1_r.
  - cbn [le_split from_le fold_right]. fold (from_le (le_split n (v / 256))).
    rewrite IH, Nat2Z.inj_succ, Z.pow_succ_r by lia.
    rewrite Z.rem_mul_r by (try apply Z.pow_pos_nonneg; lia). lia.
Qed.

Lemma le_split_length (n : nat) (v : Z) : length (le_split n v) = n.
Proof. revert v; induction n; intros; cbn; auto. Qed.

Lemma int_to_bytes_ok (v : Z) :
  0 <= v < 2 ^ 256 ->
  int_to_bytes 32 v = Ok (rev (le_split 32 v)) /\
  int_from_bytes (rev (le_split 32 v)) = v /\
  length (rev (le_split 32 v)) = 32%nat.
Proof.
  intros Hv. unfold int_to_bytes.
  replace (256 ^ Z.of_nat 32) with (2 ^ 256) by reflexivity.
  destruct (Z.leb_spec 0 v), (Z.ltb_spec v (2 ^ 256)); try lia. split; [reflexivity|].
  rewrite int_from_bytes_rev, from_le_split, length_rev, le_split_length.
  replace (256 ^ Z.of_nat 32) with (2 ^ 256) by reflexivity.
  split; [apply Z.mod_small; lia | reflexivity].
Qed.

Lemma int_from_bytes_nonneg (l : list Z) :
  Forall (fun b => 0 <= b < 256) l -> 0 <= int_from_bytes l.
Proof.
  intros Hl. rewrite <- (rev_involutive l), int_from_bytes_rev.
  apply Forall_rev in Hl. induction (rev l) as [|x l' IH]; cbn; [lia|].
  inversion Hl; subst. fold (from_le l'). specialize (IH H2). lia.
Qed.

(** The low byte of the big-endian word is the last byte of the cell. *)
Lemma int_from_bytes_low_byte (l : list Z) (b : Z) :
  Forall (fun b => 0 <= b < 256) l -> 0 <= b < 256 ->
  int_from_bytes (l ++ [b]) mod 256 = b /\ int_from_bytes (l ++ [b]) / 256 = int_from_bytes l.
Proof.
  intros Hl Hb. rewrite int_from_bytes_app. pose proof (int_from_bytes_nonneg l Hl).
  split.
  - rewrite Z.add_comm, Z.mod_add by lia. apply Z.mod_small; lia.
  - rewrite Z.add_comm, Z.div_add by lia. rewrite Z.div_small by lia. lia.
Qed.

(* ------------------------------------------------------------------ *)
(** ** Bit slices *)

Lemma testbit_small (v w m : Z) : 0 <= v < 2 ^ w -> 0 <= w <= m -> Z.testbit v m = false.
Proof.
  intros Hv Hm. rewrite <- (Z.mod_small v (2 ^ w)) by lia.
  apply Z.mod_pow2_bits_high. lia.
Qed.

Lemma testbit_get_slice (x i j n : Z) :
  0 <= j <= i -> 0 <= n ->
  Z.testbit (get_slice x i j) n = (n <? i - j) && Z.testbit x (n + j).
Proof.
  intros Hj Hn. unfold get_slice.
  rewrite Z.land_spec, Z.shiftr_spec, Z.testbit_ones_nonneg by lia.
  apply andb_comm.
Qed.

Lemma testbit_set_slice (x i j v n : Z) :
  0 <= j <= i -> 0 <= v < 2 ^ (i - j) -> 0 <= n ->
  Z.testbit (set_slice x i j v) n =
  if (j <=? n) && (n <? i) then Z.testbit v (n - j) else Z.testbit x n.
Proof.
  intros Hj Hv Hn. unfold set_slice.
  rewrite Z.lor_spec, Z.land_spec, Z.lnot_spec, !Z.shiftl_spec, Z.testbit_ones by lia.
  destruct (Z.leb_spec j n), (Z.ltb_spec n i), (Z.leb_spec 0 (n - j)),
    (Z.ltb_spec (n - j) (i - j)); try lia; cbn;
    rewrite ?andb_false_r, ?andb_true_r;
    try rewrite (testbit_small v (i - j) (n - j)) by lia;
    try rewrite (Z.testbit_neg_r v (n - j)) by lia;
    rewrite ?orb_false_r; reflexivity.
Qed.

Lemma get_set_slice_same (x i j v : Z) :
  0 <= j <= i -> 0 <= v < 2 ^ (i - j) -> get_slice (set_slice x i j v) i j = v.
Proof.
  intros Hj Hv. apply Z.bits_inj'; intros n Hn.
  rewrite testbit_get_slice, testbit_set_slice by lia.
  destruct (Z.ltb_spec n (i - j)); cbn.
  - destruct (Z.leb_spec j (n + j)), (Z.ltb_spec (n + j) i); try lia; cbn.
    f_equal; lia.
  - symmetry. apply (testbit_small v (i - j)); lia.
Qed.

Lemma get_set_slice_other (x i j i' j' v : Z) :
  0 <= j <= i -> 0 <= j' <= i' -> 0 <= v < 2 ^ (i' - j') -> (i <= j' \/ i' <= j) ->
  get_slice (set_slice x i' j' v) i j = get_slice x i j.
Proof.
  intros Hj Hj' Hv Hd. apply Z.bits_inj'; intros n Hn.
  rewrite !testbit_get_slice by lia.
  destruct (Z.ltb_spec n (i - j)); cbn; [|reflexivity].
  rewrite testbit_set_slice by lia.
  destruct (Z.leb_spec j' (n + j)), (Z.ltb_spec (n + j) i'); cbn; auto; lia.
Qed.

Lemma testbit_set_slice_other (x i j v n : Z) :
  0 <= j <= i -> 0 <= v < 2 ^ (i - j) -> 0 <= n -> (n < j \/ i <= n) ->
  Z.testbit (set_slice x i j v) n = Z.testbit x n.
Proof.
  intros Hj Hv Hn Hd. rewrite testbit_set_slice by lia.
  destruct (Z.leb_spec j n), (Z.ltb_spec n i); cbn; auto; lia.
Qed.

Lemma get_setbit_other (x i j b : Z) :
  0 <= j <= i -> 0 <= b -> (b < j \/ i <= b) ->
  get_slice (Z.setbit x b) i j = get_slice x i j.
Proof.
  intros Hj Hb Hd. apply Z.bits_inj'; intros n Hn.
  rewrite !testbit_get_slice by lia.
  destruct (Z.ltb_spec n (i - j)); cbn; [|reflexivity].
  apply Z.setbit_neq; lia.
Qed.

Lemma get_clearbit_other (x i j b : Z) :
  0 <= j <= i -> 0 <= b -> (b < j \/ i <= b) ->
  get_slice (Z.clearbit x b) i j = get_slice x i j.
Proof.
  intros Hj Hb Hd. apply Z.bits_inj'; intros n Hn.
  rewrite !testbit_get_slice by lia.
  destruct (Z.ltb_spec n (i - j)); cbn; [|reflexivity].
  apply Z.clearbit_neq; lia.
Qed.

Lemma get_slice_0 (i j : Z) : get_slice 0 i j = 0.
Proof. unfold get_slice. now rewrite Z.shiftr_0_l, Z.land_0_l. Qed.

Lemma get_slice_low_nibble (x : Z) : get_slice (get_slice x 8 0) 4 0 = get_slice x 4 0.
Proof.
  apply Z.bits_inj'; intros n Hn.
  rewrite !testbit_get_slice by lia.
  destruct (Z.ltb_spec n (4 - 0)); cbn; [|reflexivity].
  destruct (Z.ltb_spec (n + 0) (8 - 0)); cbn; [f_equal; lia | lia].
Qed.

(** A non-negative number without bits at or above [k] is below [2^k]. *)
Lemma bits_bound (x k : Z) :
  0 <= x -> 0 <= k -> (forall n, k <= n -> Z.testbit x n = false) -> x < 2 ^ k.
Proof.
  intros Hx Hk Hb.
  assert (E : x mod 2 ^ k = x).
  { apply Z.bits_inj'; intros n Hn. destruct (Z.ltb_spec n k).
    - now rewrite Z.mod_pow2_bits_low.
    - rewrite Z.mod_pow2_bits_high by lia. symmetry; auto. }
  rewrite <- E. apply Z.mod_pos_bound. apply Z.pow_pos_nonneg; lia.
Qed.

Lemma get_slice_8_0 (x : Z) : get_slice x 8 0 = x mod 256.
Proof. unfold get_slice. rewrite Z.shiftr_0_r, Z.land_ones by lia. reflexivity. Qed.

(* ------------------------------------------------------------------ *)
(** ** C9: the Stop check of [decode_prim_cell]; the Stop encoding *)

(** C9 (code_bug).  Every well-formed 32-byte cell whose low byte is 0x03
    decodes to Stop, whatever its other 248 bits (the Stop check comes
    before the flag check).  But [encode_prim_cell] writes 3 into
    [pic[8:4]] instead of [pic[8:0]]: its Stop cell has low byte 0x30,
    which sets the send and recv flags and decodes as a Send. *)
Theorem stop_decoding_and_encoding :
  (forall l : list Z, length l = 31%nat -> Forall (fun b => 0 <= b < 256) l ->
     decode_prim_cell (l ++ [3]) = Ok (Some stop_op))
  /\ encode_prim_cell stop_op = Ok (repeat 0 31 ++ [48])
  /\ exists op, decode_prim_cell (repeat 0 31 ++ [48]) = Ok (Some op) /\ kind op = KSend.
Proof.
  split; [|split].
  - intros l Hlen Hl. unfold decode_prim_cell.
    rewrite length_app, Hlen. cbn [Nat.eqb negb length plus].
    destruct (int_from_bytes_low_byte l 3 Hl ltac:(lia)) as [Hm _].
    assert (Hnz : int_from_bytes (l ++ [3]) <> 0).
    { intros E. rewrite E in Hm. discriminate. }
    apply Z.eqb_neq in Hnz. rewrite Hnz.
    rewrite get_slice_8_0, Hm. reflexivity.
  - vm_compute. reflexivity.
  - eexists. split; [vm_compute; reflexivity | reflexivity].
Qed.

(* ------------------------------------------------------------------ *)
(** ** C6: terminator cells *)

Lemma parse_prims_loop_prefix (m : CoreMemory) (ops : list PrimOp) :
  Z.of_nat (length ops) < num_cells m ->
  (forall i op, ops !! i = Some op ->
     exists c, read_cell m (Z.of_nat i) = Ok c /\ decode_prim_cell c = Ok (Some op)) ->
  (exists c, read_cell m (Z.of_nat (length ops)) = Ok c /\ decode_prim_cell c = Ok None) ->
  forall fuel j, (j <= length ops)%nat -> (length ops - j < fuel)%nat ->
  parse_prims_loop fuel m (Z.of_nat j) (take j ops) = Ok ops.
Proof.
  intros Hk Hops Hend fuel. induction fuel as [|fuel IH]; intros j Hj Hf; [lia|].
  cbn [parse_prims_loop].
  destruct (Z.ltb_spec (Z.of_nat j) (num_cells m)); [|lia].
  destruct (decide (j = length ops)) as [->|Hne].
  - destruct Hend as (c & Hc & Hd). rewrite Hc. cbn [rbind]. rewrite Hd.
    now rewrite firstn_all.
  - destruct (lookup_lt_is_Some_2 ops j ltac:(lia)) as [op Hop].
    destruct (Hops j op Hop) as (c & Hc & Hd). rewrite Hc. cbn [rbind]. rewrite Hd.
    replace (Z.of_nat j + 1) with (Z.of_nat (S j)) by lia.
    cbn [rbind].
    rewrite <- (take_S_r ops j op Hop). apply IH; lia.
Qed.

(** C6 (confirmed).  The all-zero cell decodes to end-of-queue; parsing the queue from
    memory returns exactly the ops of the cells before the first cell that
    decodes to end-of-queue; and a cell whose low nibble is 0x6 with both
    the send flag (bit 4) and the recv flag (bit 5) clear decodes to
    end-of-queue. *)
Theorem terminator_cells :
  decode_prim_cell zero_cell = Ok None
  /\ (forall (m : CoreMemory) (ops : list PrimOp),
        Z.of_nat (length ops) < num_cells m ->
        (forall i op, ops !! i = Some op ->
           exists c, read_cell m (Z.of_nat i) = Ok c /\ decode_prim_cell c = Ok (Some op)) ->
        (exists c, read_cell m (Z.of_nat (length ops)) = Ok c /\ decode_prim_cell c = Ok None) ->
        _parse_prims_from_memory m = Ok ops)
  /\ (forall l : list Z, length l = 32%nat -> Forall (fun b => 0 <= b < 256) l ->
        get_slice (int_from_bytes l) 4 0 = 6 ->
        Z.testbit (int_from_bytes l) 4 = false ->
        Z.testbit (int_from_bytes l) 5 = false ->
        decode_prim_cell l = Ok None).
Proof.
  split; [|split].
  - vm_compute. reflexivity.
  - intros m ops Hk Hops Hend. unfold _parse_prims_from_memory.
    change 0 with (Z.of_nat 0). change (@nil PrimOp) with (take 0 ops).
    apply parse_prims_loop_prefix; auto; lia.
  - intros l Hlen Hl Hn H4 H5. unfold decode_prim_cell.
    rewrite Hlen. cbn [Nat.eqb negb].
    assert (Hnz : int_from_bytes l <> 0).
    { intros E. rewrite E, get_slice_0 in Hn. discriminate. }
    apply Z.eqb_neq in Hnz. rewrite Hnz.
    assert (Hs : get_slice (int_from_bytes l) 8 0 <> PRIM_KIND_STOP).
    { intros E. pose proof (get_slice_low_nibble (int_from_bytes l)) as G.
      rewrite E, Hn in G. discriminate. }
    apply Z.eqb_neq in Hs. rewrite Hs, H4, H5. reflexivity.
Qed.

(* ------------------------------------------------------------------ *)
(** ** Encoding steps as slice updates *)

Lemma setslice_ok (x i j v : Z) :
  0 <= j <= i -> 0 <= v < 2 ^ (i - j) -> setslice x i j v = Ok (set_slice x i j v).
Proof.
  intros Hj Hv. unfold setslice.
  destruct (Z.geb_spec v (2 ^ (i - j))), (Z.ltb_spec v (- 2 ^ (i - j))); cbn; auto; lia.
Qed.

Lemma setbit_as_slice (x b v : Z) :
  0 <= b -> 0 <= v <= 1 -> setbit x b v = Ok (set_slice x (b + 1) b v).
Proof.
  intros Hb Hv. unfold setbit.
  assert (Hv' : 0 <= v < 2 ^ (b + 1 - b)) by (replace (b + 1 - b) with 1 by lia; cbn; lia).
  destruct (Z.eqb_spec v 1) as [E1|N1]; [|destruct (Z.eqb_spec v 0) as [E0|N0]; [|lia]]; subst v; f_equal;
    apply Z.bits_inj'; intros n Hn; rewrite testbit_set_slice by lia;
    destruct (Z.eqb_spec n b) as [->|Hnb].
  - rewrite Z.setbit_eq by lia.
    destruct (Z.leb_spec b b), (Z.ltb_spec b (b + 1)); try lia. cbn. rewrite Z.sub_diag. reflexivity.
  - rewrite Z.setbit_neq by lia.
    destruct (Z.leb_spec b n), (Z.ltb_spec n (b + 1)); cbn; auto; lia.
  - rewrite Z.clearbit_eq by lia.
    destruct (Z.leb_spec b b), (Z.ltb_spec b (b + 1)); try lia. cbn. rewrite Z.sub_diag. reflexivity.
  - rewrite Z.clearbit_neq by lia.
    destruct (Z.leb_spec b n), (Z.ltb_spec n (b + 1)); cbn; auto; lia.
Qed.

Lemma land_ones_small (v w : Z) : 0 <= w -> 0 <= v < 2 ^ w -> Z.land v (Z.ones w) = v.
Proof. intros Hw Hv. rewrite Z.land_ones by lia. apply Z.mod_small; lia. Qed.

Lemma pow_pred_ones (w : Z) : 0 <= w -> 2 ^ w - 1 = Z.ones w.
Proof. intros Hw. rewrite Z.ones_equiv. lia. Qed.

Lemma to_unsigned_bits_ok (v w : Z) :
  0 <= w -> 0 <= v < 2 ^ w -> to_unsigned_bits v w = Ok v.
Proof.
  intros Hw Hv. unfold to_unsigned_bits.
  destruct (Z.leb_spec 0 v), (Z.ltb_spec v (2 ^ w)); try lia. cbn.
  rewrite pow_pred_ones, land_ones_small by lia. reflexivity.
Qed.

Lemma to_signed_bits_ok (v w : Z) :
  1 <= w -> - 2 ^ (w - 1) <= v < 2 ^ (w - 1) -> to_signed_bits v w = Ok (v mod 2 ^ w).
Proof.
  intros Hw Hv. unfold to_signed_bits.
  destruct (Z.leb_spec (- 2 ^ (w - 1)) v), (Z.ltb_spec v (2 ^ (w - 1))); try lia. cbn.
  rewrite pow_pred_ones, Z.land_ones by lia. reflexivity.
Qed.

Lemma set_slice_bound (x i j v : Z) :
  0 <= x < 2 ^ 256 -> 0 <= j <= i -> i <= 256 -> 0 <= v < 2 ^ (i - j) ->
  0 <= set_slice x i j v < 2 ^ 256.
Proof.
  intros Hx Hj Hi Hv.
  assert (Hnn : 0 <= set_slice x i j v).
  { unfold set_slice. apply Z.lor_nonneg. split.
    - apply Z.land_nonneg. lia.
    - apply Z.shiftl_nonneg. lia. }
  split; [exact Hnn|]. apply bits_bound; try lia.
  intros n Hn. rewrite testbit_set_slice_other by lia.
  apply (testbit_small x 256); lia.
Qed.

Lemma testbit_set_slice_in (x i j v n : Z) :
  0 <= j <= n -> n < i -> 0 <= v < 2 ^ (i - j) ->
  Z.testbit (set_slice x i j v) n = Z.testbit v (n - j).
Proof.
  intros Hj Hn Hv. rewrite testbit_set_slice by lia.
  destruct (Z.leb_spec j n), (Z.ltb_spec n i); cbn; auto; lia.
Qed.

Ltac pow_lia :=
  repeat match goal with
  | |- context [2 ^ ?e] =>
      let v := eval vm_compute in (2 ^ e) in change (2 ^ e) with v
  end; lia.

Ltac slice_simpl :=
  repeat first
    [ rewrite get_set_slice_same by pow_lia
    | rewrite get_set_slice_other by pow_lia
    | rewrite testbit_set_slice_in by pow_lia
    | rewrite testbit_set_slice_other by pow_lia
    | rewrite get_slice_0
    | rewrite Z.bits_0 ].

Ltac enc_steps :=
  repeat (first
    [ rewrite to_unsigned_bits_ok by pow_lia
    | rewrite to_signed_bits_ok by pow_lia
    | rewrite setbit_as_slice by pow_lia
    | rewrite setslice_ok by pow_lia ]; cbn [rbind]).

Lemma encode_send_half_ok (pic : Z) (sp : SendPrim) :
  send_fields_in_range sp ->
  encode_send_half pic sp =
  Ok (set_slice (set_slice (set_slice (set_slice (set_slice (set_slice (set_slice pic
        4 0 6) 5 4 1) 16 8 (sp_deps sp)) 64 48 (sp_send_addr sp))
        169 168 (sp_cell_or_neuron sp)) 184 176 (Z.max 0 (sp_message_num sp - 1)))
        256 240 (sp_para_addr sp)).
Proof.
  intros (Hd & Hc & Hm & Ha & Hp). unfold encode_send_half.
  enc_steps. reflexivity.
Qed.

Lemma encode_recv_half_ok (pic : Z) (rp : RecvPrim) :
  recv_fields_in_range rp ->
  encode_recv_half pic rp =
  Ok (set_slice (set_slice (set_slice (set_slice (set_slice (set_slice (set_slice
        (set_slice (set_slice pic 4 0 6) 6 5 1) 16 8 (rp_deps rp)) 48 32 (rp_recv_addr rp))
        174 172 (rp_CXY rp)) 198 192 (rp_mc_x rp mod 2 ^ 6))
        190 184 (rp_mc_y rp mod 2 ^ 6)) 208 200 (rp_tag_id rp)) 216 208 (rp_end_num rp)).
Proof.
  intros (Hd & Ha & Hc & Hx & Hy & Ht & He). unfold encode_recv_half.
  pose proof (Z.mod_pos_bound (rp_mc_x rp) 64 ltac:(reflexivity)).
  pose proof (Z.mod_pos_bound (rp_mc_y rp) 64 ltac:(reflexivity)).
  enc_steps. reflexivity.
Qed.

Lemma b2z_testbit0 (c : Z) : 0 <= c <= 1 -> Z.b2z (Z.testbit c 0) = c.
Proof. intros Hc. destruct (Z.eq_dec c 0) as [->|]; [reflexivity|]. now replace c with 1 by lia. Qed.

Ltac word_bound :=
  repeat (apply set_slice_bound; try pow_lia); pow_lia.

Ltac decode_checks :=
  match goal with |- context [?pic =? 0] =>
    destruct (Z.eqb_spec pic 0) as [Z0|_];
    [ exfalso; assert (G : get_slice pic 4 0 = 6) by (slice_simpl; reflexivity);
      rewrite Z0, get_slice_0 in G; discriminate | ]
  end;
  match goal with |- context [get_slice ?pic 8 0 =? PRIM_KIND_STOP] =>
    destruct (Z.eqb_spec (get_slice pic 8 0) PRIM_KIND_STOP) as [S3|_];
    [ exfalso; assert (G : get_slice pic 4 0 = 6) by (slice_simpl; reflexivity);
      rewrite <- get_slice_low_nibble, S3 in G; vm_compute in G; discriminate | ]
  end.

Ltac codec_case :=
  match goal with |- context [int_to_bytes 32 ?pic] =>
    let B := fresh "B" in
    assert (B : 0 <= pic < 2 ^ 256) by word_bound;
    let E1 := fresh "E" in let E2 := fresh "E" in let E3 := fresh "E" in
    destruct (int_to_bytes_ok pic B) as (E1 & E2 & E3); rewrite E1;
    eexists _, _; split; [reflexivity|];
    unfold decode_prim_cell; rewrite E3, E2; cbn [Nat.eqb negb]; clear B E1 E2 E3
  end;
  decode_checks; slice_simpl; rewrite ?Z.sub_diag; cbn -[Z.max];
  split; [reflexivity|]; cbn -[Z.max];
  repeat split; first [lia | apply b2z_testbit0; lia].

Lemma prim_codec_fields : forall op : PrimOp, kind op <> KStop -> (op_send op <> None \/ op_recv op <> None) ->
     (forall sp, op_send op = Some sp -> send_fields_in_range sp) ->
     (forall rp, op_recv op = Some rp -> recv_fields_in_range rp) ->
     exists cell op', encode_prim_cell op = Ok cell /\ decode_prim_cell cell = Ok (Some op') /\
       kind op' = (if op_send op then KSend else KRecv) /\
       send_half_recovered op op' /\ recv_half_recovered op op'.
Proof.
  intros [k osp orp ost ma] Hk Hne Hs Hr; cbn [kind op_send op_recv] in *.
  unfold encode_prim_cell; cbn [kind op_send op_recv].
  destruct osp as [sp|], orp as [rp|]; [ | | | exfalso; tauto ].
  - pose proof (Hs sp eq_refl) as Hsp; pose proof (Hr rp eq_refl) as Hrp.
    rewrite encode_send_half_ok by exact Hsp; cbn [rbind].
    rewrite encode_recv_half_ok by exact Hrp; cbn [rbind].
    destruct sp as [d cn nt mn sa pa msgs], rp as [rd ra rt re rm rc my mx ue].
    unfold send_fields_in_range, recv_fields_in_range in *; cbn in Hsp, Hrp |- *.
    pose proof (Z.mod_pos_bound mx 64 ltac:(reflexivity)).
    pose proof (Z.mod_pos_bound my 64 ltac:(reflexivity)).
    destruct k; [ | | contradiction]; codec_case.
  - pose proof (Hs sp eq_refl) as Hsp; clear Hs Hr Hne.
    rewrite encode_send_half_ok by exact Hsp; cbn [rbind].
    destruct sp as [d cn nt mn sa pa msgs].
    unfold send_fields_in_range in *; cbn in Hsp |- *.
    destruct k; [ | | contradiction]; codec_case.
  - pose proof (Hr rp eq_refl) as Hrp; clear Hs Hr Hne.
    cbn [rbind]. rewrite encode_recv_half_ok by exact Hrp; cbn [rbind].
    destruct rp as [rd ra rt re rm rc my mx ue].
    unfold recv_fields_in_range in *; cbn in Hrp |- *.
    pose proof (Z.mod_pos_bound mx 64 ltac:(reflexivity)).
    pose proof (Z.mod_pos_bound my 64 ltac:(reflexivity)).
    destruct k; [ | | contradiction]; codec_case.
Qed.

(* ------------------------------------------------------------------ *)
(** ** The 128-bit router-table packet *)

Lemma lor_shiftl_as_set_slice (x i j v : Z) :
  0 <= j <= i -> 0 <= v < 2 ^ (i - j) -> get_slice x i j = 0 ->
  Z.lor x (Z.shiftl v j) = set_slice x i j v.
Proof.
  intros Hj Hv Hx. apply Z.bits_inj'; intros n Hn.
  rewrite Z.lor_spec, testbit_set_slice by lia.
  destruct (Z.leb_spec j n), (Z.ltb_spec n i); cbn.
  - rewrite Z.shiftl_spec by lia.
    assert (Hb : Z.testbit (get_slice x i j) (n - j) = false) by (rewrite Hx; apply Z.bits_0).
    rewrite testbit_get_slice in Hb by lia.
    replace (n - j + j) with n in Hb by lia.
    destruct (Z.ltb_spec (n - j) (i - j)); [|lia]. cbn in Hb. now rewrite Hb.
  - rewrite Z.shiftl_spec by lia. rewrite (testbit_small v (i - j)) by lia.
    apply orb_false_r.
  - rewrite Z.shiftl_spec_low by lia. apply orb_false_r.
  - rewrite Z.shiftl_spec_low by lia. apply orb_false_r.
Qed.

Lemma get_slice_land_low (x i j : Z) :
  0 <= j <= i -> i <= 128 -> get_slice (Z.land x (Z.shiftl 1 128 - 1)) i j = get_slice x i j.
Proof.
  intros Hj Hi. apply Z.bits_inj'; intros n Hn.
  rewrite !testbit_get_slice by lia.
  destruct (Z.ltb_spec n (i - j)); cbn; [|reflexivity].
  rewrite Z.shiftl_1_l, pow_pred_ones, Z.land_spec, Z.testbit_ones by lia.
  destruct (Z.leb_spec 0 (n + j)), (Z.ltb_spec (n + j) 128); try lia. apply andb_true_r.
Qed.

Lemma field_slice (p k i m : Z) : m = Z.ones (i - k) -> Z.land (Z.shiftr p k) m = get_slice p i k.
Proof. intros ->. reflexivity. Qed.

Lemma land_lit (v m w : Z) : m = Z.ones w -> 0 <= w -> 0 <= v < 2 ^ w -> Z.land v m = v.
Proof. intros -> Hw Hv. now apply land_ones_small. Qed.

Lemma to_twos_mod (v w : Z) : 0 <= w -> to_twos v w = v mod 2 ^ w.
Proof. intros Hw. unfold to_twos. now rewrite Z.shiftl_1_l, pow_pred_ones, Z.land_ones. Qed.

Lemma forall_range (P : Z -> bool) (lo : Z) (n : nat) :
  forallb P (map (fun k => lo + Z.of_nat k) (seq 0 n)) = true ->
  forall v, lo <= v < lo + Z.of_nat n -> P v = true.
Proof.
  intros H v Hv. rewrite forallb_forall in H. apply H.
  apply in_map_iff. exists (Z.to_nat (v - lo)). split; [lia|]. apply in_seq. lia.
Qed.

Lemma sign_extend_6 (v : Z) : -32 <= v < 32 -> _sign_extend (v mod 2 ^ 6) 6 = v.
Proof.
  intros Hv. apply Z.eqb_eq.
  apply (forall_range (fun v => _sign_extend (v mod 2 ^ 6) 6 =? v) (-32) 64); [|lia].
  vm_compute. reflexivity.
Qed.

Lemma sign_extend_12 (v : Z) : -2048 <= v < 2048 -> _sign_extend (v mod 2 ^ 12) 12 = v.
Proof.
  intros Hv. apply Z.eqb_eq.
  apply (forall_range (fun v => _sign_extend (v mod 2 ^ 12) 12 =? v) (-2048) 4096); [|lia].
  vm_compute. reflexivity.
Qed.

Ltac chain_side := first [ pow_lia | slice_simpl; reflexivity ].

Lemma rte_packet_roundtrip (r : RouterTableEntry) :
  rte_fields_in_range r -> from_packet128 (encode_packet_from_fields r) = r.
Proof.
  destruct r as [s t e q y x a0 cnt aoff cr hs tag en].
  unfold rte_fields_in_range; cbn [rte_s rte_t rte_e rte_q rte_y rte_x rte_a0 rte_cnt
    rte_a_offset rte_const_raw rte_tag_id].
  intros (Hs & Ht & He & Hq & Hy & Hx & Ha & Hc & Ho & Hr & Hg).
  pose proof (Z.mod_pos_bound y 64 ltac:(reflexivity)).
  pose proof (Z.mod_pos_bound x 64 ltac:(reflexivity)).
  pose proof (Z.mod_pos_bound aoff 4096 ltac:(reflexivity)).
  unfold encode_packet_from_fields; cbv zeta;
    cbn [rte_s rte_t rte_e rte_q rte_y rte_x rte_a0 rte_cnt rte_a_offset rte_const_raw
      rte_handshake rte_tag_id rte_en].
  rewrite (land_lit s 1 1), (land_lit t 1 1), (land_lit e 1 1), (land_lit q 1 1),
    (land_lit a0 16383 14), (land_lit cnt 4095 12), (land_lit cr 127 7), (land_lit tag 255 8)
    by first [reflexivity | pow_lia].
  rewrite !to_twos_mod by lia.
  change (if hs then 1 else 0) with (Z.b2z hs); change (if en then 1 else 0) with (Z.b2z en).
  assert (Hhs : 0 <= Z.b2z hs <= 1) by (destruct hs; cbn; lia).
  assert (Hen : 0 <= Z.b2z en <= 1) by (destruct en; cbn; lia).
  rewrite (lor_shiftl_as_set_slice _ 1 0), (lor_shiftl_as_set_slice _ 2 1),
    (lor_shiftl_as_set_slice _ 3 2), (lor_shiftl_as_set_slice _ 4 3),
    (lor_shiftl_as_set_slice _ 12 6), (lor_shiftl_as_set_slice _ 18 12),
    (lor_shiftl_as_set_slice _ 32 18), (lor_shiftl_as_set_slice _ 44 32),
    (lor_shiftl_as_set_slice _ 56 44), (lor_shiftl_as_set_slice _ 63 56),
    (lor_shiftl_as_set_slice _ 64 63), (lor_shiftl_as_set_slice _ 72 64),
    (lor_shiftl_as_set_slice _ 73 72) by chain_side.
  unfold from_packet128.
  rewrite (field_slice _ 0 1 1), (field_slice _ 1 2 1), (field_slice _ 2 3 1),
    (field_slice _ 3 4 1), (field_slice _ 6 12 63), (field_slice _ 12 18 63),
    (field_slice _ 18 32 16383), (field_slice _ 32 44 4095), (field_slice _ 44 56 4095),
    (field_slice _ 56 63 127), (field_slice _ 63 64 1), (field_slice _ 64 72 255),
    (field_slice _ 72 73 1) by reflexivity.
  rewrite !get_slice_land_low by lia.
  slice_simpl.
  rewrite sign_extend_6, sign_extend_6, sign_extend_12 by lia.
  destruct hs, en; reflexivity.
Qed.

(** C2 (corrected).  The cell codec keeps only what the 256-bit layout
    stores: for a non-Stop op with a send or a recv half whose fields fit
    their widths, encoding succeeds and decoding gives back the kind (send
    when a send half is present), the deps (the recv's when both halves are
    present), cell_or_neuron, max 1 message_num, send_addr, para_addr,
    recv_addr, tag_id and end_num.  Every router-table entry with fields in
    range survives the 128-bit packet codec unchanged. *)
Theorem codec_roundtrips_amended :
  (forall op : PrimOp, kind op <> KStop -> (op_send op <> None \/ op_recv op <> None) ->
     (forall sp, op_send op = Some sp -> send_fields_in_range sp) ->
     (forall rp, op_recv op = Some rp -> recv_fields_in_range rp) ->
     exists cell op', encode_prim_cell op = Ok cell /\ decode_prim_cell cell = Ok (Some op') /\
       kind op' = (if op_send op then KSend else KRecv) /\
       send_half_recovered op op' /\ recv_half_recovered op op')
  /\ (forall r : RouterTableEntry, rte_fields_in_range r ->
        from_packet128 (encode_packet_from_fields r) = r).
Proof. split; [exact prim_codec_fields | exact rte_packet_roundtrip]. Qed.

Lemma codec_roundtrips_amended_witness :
  (exists cell op', encode_prim_cell send_op_in_range = Ok cell /\
     decode_prim_cell cell = Ok (Some op') /\ kind op' = KSend /\
     send_half_recovered send_op_in_range op' /\ recv_half_recovered send_op_in_range op')
  /\ from_packet128 (encode_packet_from_fields rte_in_range) = rte_in_range.
Proof.
  split.
  - apply (proj1 codec_roundtrips_amended send_op_in_range).
    + discriminate.
    + left; discriminate.
    + intros sp Hsp; injection Hsp as <-; unfold send_fields_in_range; cbn; lia.
    + intros rp Hrp; discriminate.
  - apply (proj2 codec_roundtrips_amended rte_in_range).
    unfold rte_fields_in_range; cbn; lia.
Defined.

(** C2 counterexample: a Send with [message_num = 0] encodes, but decodes
    with [message_num = 1], so [decode(encode(op)) <> op]. *)
Lemma codec_roundtrip_counterexample :
  exists cell op', encode_prim_cell send_op_mn0 = Ok cell /\
    decode_prim_cell cell = Ok (Some op') /\ op' <> send_op_mn0.
Proof.
  vm_compute. do 2 eexists. split; [reflexivity|]. split; [reflexivity|]. discriminate.
Qed.


(* ------------------------------------------------------------------ *)
(** ** Two packets per cell *)

Lemma pack_word_bound (low up : Z) :
  0 <= low < 2 ^ 128 -> 0 <= up < 2 ^ 128 -> 0 <= Z.lor (Z.shiftl up 128) low < 2 ^ 256.
Proof.
  intros Hl Hu.
  assert (Hn : 0 <= Z.lor (Z.shiftl up 128) low)
    by (apply Z.lor_nonneg; split; [apply Z.shiftl_nonneg|]; lia).
  split; [exact Hn|]. apply bits_bound; try lia. intros n Hn'.
  rewrite Z.lor_spec, Z.shiftl_spec by lia.
  rewrite (testbit_small up 128), (testbit_small low 128) by lia. reflexivity.
Qed.

Lemma cell_pack (low up : Z) :
  0 <= low < 2 ^ 128 -> 0 <= up < 2 ^ 128 ->
  int_to_bytes 32 (Z.lor (Z.shiftl up 128) low) =
    Ok (rev (le_split 32 (Z.lor (Z.shiftl up 128) low))) /\
  decode_two_packets_from_cell (rev (le_split 32 (Z.lor (Z.shiftl up 128) low))) = Ok (low, up).
Proof.
  intros Hl Hu. pose proof (pack_word_bound low up Hl Hu) as Hw.
  set (w := Z.lor (Z.shiftl up 128) low) in *.
  destruct (int_to_bytes_ok w Hw) as (E1 & E2 & E3). split; [exact E1|].
  unfold decode_two_packets_from_cell. rewrite E3, E2. cbn [Nat.eqb negb].
  rewrite Z.shiftl_1_l, pow_pred_ones by lia. f_equal. f_equal.
  - apply Z.bits_inj'; intros n Hn. unfold w.
    rewrite Z.land_spec, Z.lor_spec, Z.testbit_ones_nonneg by lia.
    destruct (Z.ltb_spec n 128).
    + rewrite Z.shiftl_spec_low by lia. now rewrite andb_true_r.
    + rewrite andb_false_r. symmetry. apply (testbit_small low 128); lia.
  - apply Z.bits_inj'; intros n Hn. unfold w.
    rewrite Z.land_spec, Z.shiftr_spec, Z.lor_spec, Z.shiftl_spec, Z.testbit_ones_nonneg by lia.
    replace (n + 128 - 128) with n by lia.
    rewrite (testbit_small low 128 (n + 128)) by lia. rewrite orb_false_r.
    destruct (Z.ltb_spec n 128).
    + now rewrite andb_true_r.
    + rewrite andb_false_r. symmetry. apply (testbit_small up 128); lia.
Qed.

Lemma cells_needed_SS (r : nat) :
  Z.to_nat ((Z.of_nat (S (S r)) + 1) / 2) = S (Z.to_nat ((Z.of_nat r + 1) / 2)).
Proof.
  replace (Z.of_nat (S (S r)) + 1) with ((Z.of_nat r + 1) + 1 * 2) by lia.
  rewrite Z.div_add by lia.
  assert (0 <= (Z.of_nat r + 1) / 2) by (apply Z.div_pos; lia).
  rewrite Z2Nat.inj_add by lia. cbn. lia.
Qed.

Lemma read_cell_in (m : CoreMemory) (a : Z) (b : list Z) :
  0 <= a < num_cells m -> _cells m !! a = Some b -> read_cell m a = Ok b.
Proof.
  intros Ha Hb. unfold read_cell, _bounds_check_cell.
  destruct (Z.leb_spec 0 a), (Z.ltb_spec a (num_cells m)); try lia. cbn. now rewrite Hb.
Qed.

Lemma write_rt_loop_spec (n : nat) : forall (pkts : list Z) (mem : CoreMemory) (addr : Z),
  (length pkts <= n)%nat -> Forall (fun p => 0 <= p < 2 ^ 128) pkts ->
  exists mem', write_rt_loop mem addr pkts = Ok mem' /\ num_cells mem' = num_cells mem /\
    (forall a, a < addr -> _cells mem' !! a = _cells mem !! a) /\
    (forall p0 p1 rest, pkts = p0 :: p1 :: rest ->
       _cells mem' !! addr = Some (rev (le_split 32 (Z.lor (Z.shiftl p1 128) p0)))) /\
    (forall base i entries, base + i = addr -> 0 <= addr ->
       addr + (Z.of_nat (length pkts) + 1) / 2 <= num_cells mem ->
       parse_rt_loop mem' base (Z.of_nat (length entries + length pkts)) i
         (Z.to_nat ((Z.of_nat (length pkts) + 1) / 2)) entries
       = Ok (entries ++ map from_packet128 pkts)).
Proof.
  induction n as [|n IH]; intros pkts mem addr Hlen Hrng.
  - destruct pkts; [|cbn in Hlen; lia].
    exists mem. repeat split; try easy. intros base i entries _ _ _. cbn.
    now rewrite app_nil_r.
  - destruct pkts as [|p0 [|p1 rest]].
    + exists mem. repeat split; try easy. intros base i entries _ _ _. cbn.
      now rewrite app_nil_r.
    + inversion Hrng as [|? ? Hp0 _]; subst.
      destruct (cell_pack p0 0 Hp0 ltac:(pow_lia)) as (E1 & E2).
      exists (mkCoreMemory (num_cells mem)
               (<[addr := rev (le_split 32 (Z.lor (Z.shiftl 0 128) p0))]> (_cells mem))).
      split; [cbn; rewrite E1; reflexivity|].
      split; [reflexivity|]. split.
      { intros a Ha. cbn. apply lookup_insert_ne. lia. }
      split; [discriminate|].
      intros base i entries Hbi Ha Hn. cbn [length] in Hn |- *.
      change (Z.to_nat ((Z.of_nat 1 + 1) / 2)) with 1%nat. cbn [parse_rt_loop].
      rewrite (read_cell_in _ (base + i) (rev (le_split 32 (Z.lor (Z.shiftl 0 128) p0)))).
      2: change ((Z.of_nat 1 + 1) / 2) with 1 in Hn; cbn; lia.
      2: cbn [_cells]; rewrite Hbi; apply lookup_insert_eq.
      cbn [rbind]. rewrite E2. cbn [rbind fst snd].
      rewrite length_app. cbn [length].
      destruct (Z.ltb_spec (Z.of_nat (length entries + 1)) (Z.of_nat (length entries + 1)));
        [lia|]. reflexivity.
    + inversion Hrng as [|? ? Hp0 Hrng']; subst. inversion Hrng' as [|? ? Hp1 Hrest]; subst.
      destruct (cell_pack p0 p1 Hp0 Hp1) as (E1 & E2).
      set (b := rev (le_split 32 (Z.lor (Z.shiftl p1 128) p0))) in *.
      set (mem1 := mkCoreMemory (num_cells mem) (<[addr := b]> (_cells mem))).
      destruct (IH rest mem1 (addr + 1) ltac:(cbn in Hlen; lia) Hrest)
        as (mem' & W & Nc & Pre & _ & Parse).
      exists mem'.
      assert (Hb : _cells mem' !! addr = Some b).
      { rewrite Pre by lia. cbn. apply lookup_insert_eq. }
      split; [cbn; rewrite E1; cbn [rbind]; exact W|].
      split; [rewrite Nc; reflexivity|]. split.
      { intros a Ha. rewrite Pre by lia. cbn. apply lookup_insert_ne. lia. }
      split; [intros ? ? ? [= <- <- <-]; exact Hb|].
      intros base i entries Hbi Ha Hn. cbn [length] in Hn |- *.
      rewrite cells_needed_SS. cbn [parse_rt_loop].
      rewrite (read_cell_in _ (base + i) b)
        by first [rewrite Hbi; exact Hb | rewrite ?Nc; cbn;
            assert (0 <= (Z.of_nat (length rest) + 1) / 2) by (apply Z.div_pos; lia);
            replace (Z.of_nat (S (S (length rest))) + 1) with
              ((Z.of_nat (length rest) + 1) + 1 * 2) in Hn by lia;
            rewrite Z.div_add in Hn by lia; lia].
      cbn [rbind]. rewrite E2. cbn [rbind fst snd].
      rewrite length_app. cbn [length].
      destruct (Z.ltb_spec (Z.of_nat (length entries + 1))
                  (Z.of_nat (length entries + S (S (length rest))))); [|lia].
      replace (base + i + 1) with (base + (i + 1)) by lia.
      specialize (Parse base (i + 1) ((entries ++ [from_packet128 p0]) ++ [from_packet128 p1])).
      rewrite !length_app in Parse. cbn [length] in Parse.
      replace (length entries + 1 + 1 + length rest)%nat
        with (length entries + S (S (length rest)))%nat in Parse by lia.
      rewrite Parse; [| lia | lia |].
      * rewrite <- !app_assoc. reflexivity.
      * cbn [num_cells mem1].
        replace (Z.of_nat (S (S (length rest))) + 1) with
          ((Z.of_nat (length rest) + 1) + 1 * 2) in Hn by lia.
        rewrite Z.div_add in Hn by lia. lia.
Qed.

(** C5 (confirmed).  Writing in-range packets two per cell from [base] and
    parsing [len pkts] entries back from [base] gives the decoded packets,
    in order; a cell holds the lower packet in bits [127:0] and the upper
    one in bits [255:128] of its big-endian 256-bit value. *)
Theorem router_table_write_parse (mem : CoreMemory) (base : Z) (pkts : list Z) :
  0 <= base -> base + (Z.of_nat (length pkts) + 1) / 2 <= num_cells mem ->
  Forall (fun p => 0 <= p < 2 ^ 128) pkts ->
  exists mem', write_router_table_to_memory mem base pkts = Ok mem' /\
    (forall p0 p1 rest, pkts = p0 :: p1 :: rest ->
       exists cell, read_cell mem' base = Ok cell /\ length cell = 32%nat /\
         int_from_bytes cell = Z.lor (Z.shiftl p1 128) p0 /\
         decode_two_packets_from_cell cell = Ok (p0, p1)) /\
    parse_router_table_from_memory mem' base (Z.of_nat (length pkts))
      = Ok (map from_packet128 pkts).
Proof.
  intros Hb Hn Hr.
  destruct (write_rt_loop_spec (length pkts) pkts mem base (le_n _) Hr)
    as (mem' & W & Nc & _ & First & Parse).
  exists mem'. split; [exact W|]. split.
  - intros p0 p1 rest ->. inversion Hr as [|? ? Hp0 Hr']; subst.
    inversion Hr' as [|? ? Hp1 _]; subst.
    destruct (int_to_bytes_ok _ (pack_word_bound p0 p1 Hp0 Hp1)) as (_ & E2 & E3).
    exists (rev (le_split 32 (Z.lor (Z.shiftl p1 128) p0))).
    split; [|split; [exact E3|split; [exact E2|apply (cell_pack p0 p1 Hp0 Hp1)]]].
    apply read_cell_in; [|exact (First _ _ _ eq_refl)].
    rewrite Nc. cbn [length] in Hn.
    assert (0 <= (Z.of_nat (length rest) + 1) / 2) by (apply Z.div_pos; lia).
    replace (Z.of_nat (S (S (length rest))) + 1) with
      ((Z.of_nat (length rest) + 1) + 1 * 2) in Hn by lia.
    rewrite Z.div_add in Hn by lia. lia.
  - unfold parse_router_table_from_memory.
    specialize (Parse base 0 [] ltac:(lia) Hb Hn). cbn [length app Nat.add] in Parse.
    rewrite Parse. cbn [rbind]. f_equal.
    rewrite Nat2Z.id, <- (length_map from_packet128 pkts). apply firstn_all.
Qed.

Lemma router_table_write_parse_witness :
  exists mem', write_router_table_to_memory CoreMemory_new 0 [1; 2; 3] = Ok mem' /\
    (forall p0 p1 rest, [1; 2; 3] = p0 :: p1 :: rest ->
       exists cell, read_cell mem' 0 = Ok cell /\ length cell = 32%nat /\
         int_from_bytes cell = Z.lor (Z.shiftl p1 128) p0 /\
         decode_two_packets_from_cell cell = Ok (p0, p1)) /\
    parse_router_table_from_memory mem' 0 (Z.of_nat (length [1; 2; 3]))
      = Ok (map from_packet128 [1; 2; 3]).
Proof.
  apply (router_table_write_parse CoreMemory_new 0 [1; 2; 3]).
  - lia.
  - vm_compute. discriminate.
  - repeat constructor; vm_compute; discriminate.
Defined.


(** C1 (code_bug).  [_execute_send] calls [sp.normalized_message_num()],
    which [SendPrim] does not define: on every state where the source core
    exists it raises AttributeError before any entry is parsed; the whole
    simulation of scenario S1 ends in that error. *)
Theorem execute_send_attribute_error :
  (forall (src : Z * Z) (sp : SendPrim) (st : St),
     _execute_send src sp st =
     Err (match cores (fst st) !! src with Some _ => AttributeError | None => KeyError end))
  /\ run_simulation 2 2 s1_cfgs = Err AttributeError.
Proof.
  split.
  - intros src sp st. unfold _execute_send, mbind_M, get_core, lift.
    destruct (cores (fst st) !! src); reflexivity.
  - vm_compute. reflexivity.
Qed.

(** C3 (corrected).  In scenario S4 the first four bytes land at offsets
    0..3 of destination cell 0 and the next four at offsets 11..14:
    after the group [A] is 4 and [A += A_OFFSET - 1] moves it to 11. *)
Theorem neuron_group_stride_s4 :
  exists st', _send_neuron_mode (0, 0) (0, 0) s4_sp s4_rte 0 [8] (s4_sim, []) = Ok (tt, st') /\
    exists n, cores (fst st') !! (0, 0) = Some n /\
      read_cell (mem n) 0 =
        Ok ([160; 161; 162; 163] ++ repeat 0 7 ++ [164; 165; 166; 167] ++ repeat 0 17).
Proof.
  eexists. split; [vm_compute; reflexivity|].
  eexists. split; vm_compute; reflexivity.
Qed.

(** C3 counterexample: in scenario S4 byte 8 of destination cell 0 stays 0
    instead of receiving 0xA4. *)
Lemma neuron_group_stride_counterexample :
  exists st' n cell,
    _send_neuron_mode (0, 0) (0, 0) s4_sp s4_rte 0 [8] (s4_sim, []) = Ok (tt, st') /\
    cores (fst st') !! (0, 0) = Some n /\ read_cell (mem n) 0 = Ok cell /\
    nth 8 cell 0 <> 164.
Proof.
  do 3 eexists. split; [vm_compute; reflexivity|].
  split; [vm_compute; reflexivity|]. split; [vm_compute; reflexivity|].
  vm_compute. discriminate.
Qed.

(** C10 (confirmed).  Seeding writes an op with an explicit [mem_addr]
    straight into the cell map: with [mem_addr >= num_cells] seeding
    succeeds, the cell exists, and [read_cell] refuses its address. *)
Theorem seeding_bypasses_bounds (a : Z) :
  num_cells CoreMemory_new <= a ->
  exists m, _seed_config_into_memory CoreMemory_new (recv_at a) = Ok m /\
    num_cells m = num_cells CoreMemory_new /\
    _cells m !! a <> None /\ read_cell m a = Err IndexError.
Proof.
  intros Ha. change (num_cells CoreMemory_new) with 24576 in Ha.
  set (op := mkPrimOp KRecv None (Some RecvPrim_default) None (Some a)).
  assert (E : exists b, encode_prim_cell op = Ok b) by (eexists; vm_compute; reflexivity).
  destruct E as [b E].
  exists (mkCoreMemory (num_cells CoreMemory_new) (<[a := b]> (_cells CoreMemory_new))).
  split; [|split; [reflexivity|split]].
  - unfold _seed_config_into_memory, recv_at. fold op.
    cbn [cfg_prim_queue seed_explicit]. unfold op at 1. cbn [mem_addr].
    rewrite E. cbn [rbind seed_explicit fst snd seed_sequential]. unfold op at 1.
    cbn [mem_addr seed_messages op_send rbind]. reflexivity.
  - cbn [_cells]. rewrite lookup_insert_eq. discriminate.
  - unfold read_cell, _bounds_check_cell. cbn [num_cells CoreMemory_new].
    destruct (Z.ltb_spec a 24576); [lia|]. rewrite andb_false_r. reflexivity.
Qed.

Lemma seeding_bypasses_bounds_witness :
  exists m, _seed_config_into_memory CoreMemory_new (recv_at 30000) = Ok m /\
    num_cells m = num_cells CoreMemory_new /\
    _cells m !! 30000 <> None /\ read_cell m 30000 = Err IndexError.
Proof. apply (seeding_bypasses_bounds 30000). vm_compute. discriminate. Defined.

Lemma stop_decoding_and_encoding_witness :
  decode_prim_cell (repeat 255 31 ++ [3]) = Ok (Some stop_op).
Proof.
  apply (proj1 stop_decoding_and_encoding).
  - reflexivity.
  - repeat constructor; lia.
Defined.

Lemma terminator_cells_witness :
  _parse_prims_from_memory (mkCoreMemory 24576 {[0 := repeat 0 31 ++ [3]]}) = Ok [stop_op] /\
  decode_prim_cell (repeat 0 31 ++ [6]) = Ok None.
Proof.
  split.
  - apply (proj1 (proj2 terminator_cells)).
    + vm_compute. reflexivity.
    + intros [|i] op H; [|discriminate].
      injection H as <-. exists (repeat 0 31 ++ [3]). split; vm_compute; reflexivity.
    + exists zero_cell. split; vm_compute; reflexivity.
  - apply (proj2 (proj2 terminator_cells)).
    + reflexivity.
    + repeat constructor; lia.
    + vm_compute. reflexivity.
    + vm_compute. reflexivity.
    + vm_compute. reflexivity.
Defined.


Section Logs.

Lemma logs_bind {A B} (m : M A) (k : A -> M B) (l1 l2 : list SrcAccess) :
  logs m l1 -> (forall a, logs (k a) l2) -> logs (mbind_M m k) (l1 ++ l2).
Proof.
  intros Hm Hk st b st''. unfold mbind_M.
  destruct (m st) as [[a st']|e] eqn:E; [|discriminate].
  intros H. rewrite (Hk a st' b st'' H), (Hm st a st' E). symmetry; apply app_assoc.
Qed.

Lemma logs_bind0 {A B} (m : M A) (k : A -> M B) (l : list SrcAccess) :
  logs m [] -> (forall a, logs (k a) l) -> logs (mbind_M m k) l.
Proof. intros Hm Hk. exact (logs_bind m k [] l Hm Hk). Qed.

Lemma logs_ret {A} (a : A) : logs (ret a) [].
Proof. intros st b st' H. injection H as _ <-. now rewrite app_nil_r. Qed.

Lemma logs_lift {A} (r : result A) : logs (lift r) [].
Proof.
  intros st b st' H. unfold lift in H. destruct r; [|discriminate].
  injection H as _ <-. now rewrite app_nil_r.
Qed.

Lemma logs_get_core (c : Z * Z) : logs (get_core c) [].
Proof.
  intros st b st' H. unfold get_core in H. destruct (cores (fst st) !! c); [|discriminate].
  injection H as _ <-. now rewrite app_nil_r.
Qed.

Lemma logs_put_core (c : Z * Z) (n : CoreNode) : logs (put_core c n) [].
Proof. intros st b st' H. injection H as _ <-. cbn. now rewrite app_nil_r. Qed.

Lemma logs_get_sim : logs get_sim [].
Proof. intros st b st' H. injection H as _ <-. now rewrite app_nil_r. Qed.

Lemma logs_log_src (x : SrcAccess) : logs (log_src x) [x].
Proof. intros st b st' H. injection H as _ <-. reflexivity. Qed.

Lemma logs_app_nil {A} (m : M A) (l : list SrcAccess) : logs m l -> logs m (l ++ []).
Proof. now rewrite app_nil_r. Qed.

Lemma logs_ext {A} (m : M A) (l l' : list SrcAccess) : l = l' -> logs m l -> logs m l'.
Proof. now intros ->. Qed.

End Logs.

Create HintDb logs_db.
#[local] Hint Resolve logs_ret logs_lift logs_get_core logs_put_core logs_get_sim
  logs_log_src : logs_db.

Ltac logs_step :=
  first
    [ apply logs_bind0; [solve [eauto with logs_db] | intros ?]
    | apply logs_bind; [solve [eauto with logs_db] | intros ?]
    | solve [eauto with logs_db] ].

Lemma logs_update_mem (c : Z * Z) f : logs (update_mem c f) [].
Proof. unfold update_mem. repeat logs_step. Qed.
#[local] Hint Resolve logs_update_mem : logs_db.

Lemma logs_src_read_cell (src : Z * Z) (addr : Z) : logs (src_read_cell src addr) [SrcCell addr].
Proof.
  unfold src_read_cell. apply logs_bind0; [auto with logs_db| intros n].
  apply logs_bind0; [auto with logs_db| intros c].
  apply (logs_ext _ ([SrcCell addr] ++ [])); [reflexivity|].
  apply logs_bind; auto with logs_db.
Qed.

Lemma logs_src_read_byte (src : Z * Z) (cell off : Z) :
  logs (src_read_byte src cell off) [SrcByte cell off].
Proof.
  unfold src_read_byte. apply logs_bind0; [auto with logs_db| intros n].
  apply logs_bind0; [auto with logs_db| intros c].
  apply (logs_ext _ ([SrcByte cell off] ++ [])); [reflexivity|].
  apply logs_bind; auto with logs_db.
Qed.

Lemma logs_seg_loop dst q rte cell_data segs a : logs (seg_loop dst q rte cell_data segs a) [].
Proof.
  revert a. induction segs as [|seg segs IH]; intros a; cbn [seg_loop]; [auto with logs_db|].
  destruct (iter_cells_span_from_A_8B a). apply logs_bind0; auto with logs_db.
Qed.
#[local] Hint Resolve logs_seg_loop : logs_db.

Lemma logs_find_recv_acceptor dst tag : logs (_find_recv_acceptor dst tag) [].
Proof. unfold _find_recv_acceptor. repeat logs_step. Qed.

Lemma logs_ensure_pending dst tag : logs (ensure_pending dst tag) [].
Proof.
  unfold ensure_pending. apply logs_bind0; [auto with logs_db| intros n].
  destruct (pending_by_tag n !! tag); auto with logs_db.
Qed.

Lemma logs_append_pending dst tag e : logs (append_pending dst tag e) [].
Proof. unfold append_pending. repeat logs_step. Qed.
#[local] Hint Resolve logs_find_recv_acceptor logs_ensure_pending logs_append_pending : logs_db.

Lemma logs_cell_loop src dst q rte gs base is a :
  logs (cell_loop src dst q rte gs base is a) (map (fun i => SrcCell (base + i)) is).
Proof.
  revert a. induction is as [|i is IH]; intros a; cbn [cell_loop map]; [auto with logs_db|].
  change (SrcCell (base + i) :: map (fun i => SrcCell (base + i)) is)
    with ([SrcCell (base + i)] ++ map (fun i => SrcCell (base + i)) is).
  apply logs_bind; [apply logs_src_read_cell| intros c].
  apply logs_bind0; [auto with logs_db| intros a']. apply IH.
Qed.

Lemma logs_buf_cells src base is data :
  logs (buf_cells src base is data) (map (fun i => SrcCell (base + i)) is).
Proof.
  revert data. induction is as [|i is IH]; intros data; cbn [buf_cells map]; [auto with logs_db|].
  change (SrcCell (base + i) :: map (fun i => SrcCell (base + i)) is)
    with ([SrcCell (base + i)] ++ map (fun i => SrcCell (base + i)) is).
  apply logs_bind; [apply logs_src_read_cell| intros c]. apply IH.
Qed.

(** Byte [k] of a run that starts at ([sc], [so]). *)
Lemma byte_step (sc so : Z) (k : nat) :
  0 <= so < 32 ->
  SrcByte (sc + (so + Z.of_nat (S k)) / 32) ((so + Z.of_nat (S k)) mod 32) =
  SrcByte ((if so + 1 =? 32 then sc + 1 else sc)
             + ((if so + 1 =? 32 then 0 else so + 1) + Z.of_nat k) / 32)
          (((if so + 1 =? 32 then 0 else so + 1) + Z.of_nat k) mod 32).
Proof.
  intros Hso. destruct (Z.eqb_spec (so + 1) 32) as [E|E].
  - replace (so + Z.of_nat (S k)) with (Z.of_nat k + 1 * 32) by lia.
    rewrite Z.div_add, Z.mod_add, Z.add_0_l by lia. f_equal; lia.
  - replace (so + Z.of_nat (S k)) with (so + 1 + Z.of_nat k) by lia. reflexivity.
Qed.

Lemma logs_neuron_loop (fuel : nat) src dst q rte gs npm :
  forall sc so rem a, rem = Z.of_nat fuel -> 0 <= so < 32 ->
  logs (neuron_loop fuel src dst q rte gs npm sc so rem a)
    (map (fun k => SrcByte (sc + (so + Z.of_nat k) / 32) ((so + Z.of_nat k) mod 32))
       (seq 0 fuel)).
Proof.
  induction fuel as [|fuel IH]; intros sc so rem a Hrem Hso; cbn [neuron_loop seq map];
    [auto with logs_db|].
  destruct (Z.leb_spec rem 0); [lia|].
  change (Z.of_nat 0) with 0.
  rewrite !Z.add_0_r, (Z.div_small so 32), (Z.mod_small so 32), Z.add_0_r by lia.
  change (SrcByte sc so :: ?l) with ([SrcByte sc so] ++ l).
  apply logs_bind; [apply logs_src_read_byte| intros b].
  apply logs_bind0; [auto with logs_db| intros bv].
  destruct (iter_cells_span_from_A_1B a) as [cd bi].
  apply logs_bind0; [auto with logs_db| intros u].
  rewrite <- seq_shift, map_map.
  eapply logs_ext; [|apply IH; [lia|]].
  - apply map_ext. intros k. symmetry. apply byte_step. exact Hso.
  - destruct (Z.eqb_spec (so + 1) 32); lia.
Qed.

Lemma logs_buf_bytes (fuel : nat) src :
  forall sc so data, 0 <= so < 32 ->
  logs (buf_bytes fuel src sc so data)
    (map (fun k => SrcByte (sc + (so + Z.of_nat k) / 32) ((so + Z.of_nat k) mod 32))
       (seq 0 fuel)).
Proof.
  induction fuel as [|fuel IH]; intros sc so data Hso; cbn [buf_bytes seq map];
    [auto with logs_db|].
  change (Z.of_nat 0) with 0.
  rewrite !Z.add_0_r, (Z.div_small so 32), (Z.mod_small so 32), Z.add_0_r by lia.
  change (SrcByte sc so :: ?l) with ([SrcByte sc so] ++ l).
  apply logs_bind; [apply logs_src_read_byte| intros b].
  rewrite <- seq_shift, map_map.
  eapply logs_ext; [|apply IH].
  - apply map_ext. intros k. symmetry. apply byte_step. exact Hso.
  - destruct (Z.eqb_spec (so + 1) 32); lia.
Qed.

Lemma neuron_addr (sa prev : Z) (k : nat) :
  SrcByte (sa + prev / 32 + (prev mod 32 + Z.of_nat k) / 32) ((prev mod 32 + Z.of_nat k) mod 32)
  = unit_access false sa (prev + Z.of_nat k).
Proof.
  unfold unit_access. pose proof (Z.div_mod prev 32 ltac:(lia)) as E.
  replace (prev + Z.of_nat k) with ((prev mod 32 + Z.of_nat k) + prev / 32 * 32) by lia.
  rewrite Z.div_add, Z.mod_add by lia. f_equal. lia.
Qed.

Lemma logs_neuron_run {A} (v : A) (sa prev c : Z) (run : nat -> Z -> Z -> Z -> M A) :
  (forall fuel sc so rem, rem = Z.of_nat fuel -> 0 <= so < 32 ->
     logs (run fuel sc so rem)
       (map (fun k => SrcByte (sc + (so + Z.of_nat k) / 32) ((so + Z.of_nat k) mod 32))
          (seq 0 fuel))) ->
  (forall sc so rem, run O sc so rem = ret v) ->
  logs (run (Z.to_nat c) (sa + prev / 32) (prev mod 32) c)
    (map (fun k => unit_access false sa (prev + k)) (zrange c)).
Proof.
  intros Hrun H0. unfold zrange. rewrite map_map.
  destruct (Z.leb_spec c 0).
  - replace (Z.to_nat c) with O by lia. rewrite H0. cbn. apply logs_ret.
  - eapply logs_ext; [|apply Hrun; [lia | apply Z.mod_pos_bound; lia]].
    apply map_ext. intros k. apply neuron_addr.
Qed.

Lemma cell_addrs (sa prev c : Z) :
  map (fun i => SrcCell (sa + prev + i)) (zrange c)
  = map (fun k => unit_access true sa (prev + k)) (zrange c).
Proof. apply map_ext. intros k. unfold unit_access. f_equal. lia. Qed.

Lemma send_loop_reads src src_core sp rtes : forall msg_idx counts,
  logs (send_loop src src_core sp rtes msg_idx counts)
    (expected_reads (sp_cell_or_neuron sp =? 0) (sp_send_addr sp) rtes msg_idx counts).
Proof.
  induction rtes as [|rte rtes IH]; intros msg_idx counts; cbn [send_loop expected_reads];
    [apply logs_ret|].
  apply logs_bind; [|intros; apply IH].
  destruct (rte_en rte); cbn [negb]; [|apply logs_ret].
  apply logs_bind0; [apply logs_get_sim| intros sim].
  apply logs_bind0.
  { destruct (rte_handshake rte); [apply logs_find_recv_acceptor | apply logs_ret]. }
  intros acc.
  set (prev := sum_list (firstn msg_idx counts)).
  set (c := unit_count rte).
  destruct acc; cbn [negb].
  - destruct (Z.eqb_spec (sp_cell_or_neuron sp) 0) as [Hm|Hm].
    + unfold _send_cell_mode. apply logs_bind0; [apply logs_get_core| intros d].
      rewrite <- (app_nil_r (map _ _)). apply logs_bind; [|intros; apply logs_ret].
      rewrite <- cell_addrs. apply logs_cell_loop.
    + unfold _send_neuron_mode. apply logs_bind0; [apply logs_get_core| intros d].
      apply (logs_neuron_run tt (sp_send_addr sp) prev c
               (fun fuel sc so rem => neuron_loop fuel src _ (prim_queue d) rte (group_size rte)
                                        c sc so rem (rte_a0 rte))).
      * intros. apply logs_neuron_loop; assumption.
      * reflexivity.
  - unfold _buffer_send_payload. apply logs_bind0; [apply logs_get_core| intros d].
    apply logs_bind0; [apply logs_ensure_pending| intros u].
    destruct (Z.eqb_spec (sp_cell_or_neuron sp) 0) as [Hm|Hm].
    + rewrite <- (app_nil_r (map _ _)). apply logs_bind; [|intros; apply logs_append_pending].
      rewrite <- cell_addrs. apply logs_buf_cells.
    + rewrite <- (app_nil_r (map _ _)). apply logs_bind; [|intros; apply logs_append_pending].
      apply (logs_neuron_run [] (sp_send_addr sp) prev c
               (fun fuel sc so rem => buf_bytes fuel src sc so [])).
      * intros. apply logs_buf_bytes; assumption.
      * reflexivity.
Qed.

(** C4 (confirmed).  Over the message loop of a Send, with
    [msg_counts = map unit_count rtes] as [_execute_send] builds it, the
    source reads are, message after message, the units
    [S_i .. S_i + c_i - 1] of the source stream for every message with
    EN=1 and nothing for EN=0, where [S_i] is the sum of the counts of
    all earlier messages, enabled or not. *)
Theorem send_source_offsets (src : Z * Z) (src_core : CoreNode) (sp : SendPrim)
  (rtes : list RouterTableEntry) (st st' : St) :
  send_loop src src_core sp rtes 0 (map unit_count rtes) st = Ok (tt, st') ->
  snd st' = snd st ++ expected_reads (sp_cell_or_neuron sp =? 0) (sp_send_addr sp) rtes 0
                        (map unit_count rtes).
Proof. intros H. exact (send_loop_reads src src_core sp rtes 0 _ st tt st' H). Qed.

Lemma send_source_offsets_witness :
  exists st', send_loop (0, 0) s3_node s3_sp s3_rtes 0 (map unit_count s3_rtes) (s3_sim, [])
                = Ok (tt, st') /\ snd st' = [SrcCell 17].
Proof.
  assert (H : exists st', send_loop (0, 0) s3_node s3_sp s3_rtes 0 (map unit_count s3_rtes)
                            (s3_sim, []) = Ok (tt, st'))
    by (eexists; vm_compute; reflexivity).
  destruct H as [st' H]. exists st'. split; [exact H|].
  rewrite (send_source_offsets (0, 0) s3_node s3_sp s3_rtes (s3_sim, []) st' H).
  vm_compute. reflexivity.
Defined.

(* ------------------------------------------------------------------ *)
(** ** Buffered payloads *)

Lemma bind_ok {A B} (m : M A) (k : A -> M B) st b st'' :
  mbind_M m k st = Ok (b, st'') -> exists a st', m st = Ok (a, st') /\ k a st' = Ok (b, st'').
Proof.
  unfold mbind_M. destruct (m st) as [[a st']|e]; [|discriminate]. intros H. eauto.
Qed.

Lemma get_core_ok c st n s :
  get_core c st = Ok (n, s) -> s = st /\ cores (fst st) !! c = Some n.
Proof.
  unfold get_core. destruct (cores (fst st) !! c); [|discriminate].
  intros H. injection H as <- <-. auto.
Qed.

Lemma put_core_ok c n st u s :
  put_core c n st = Ok (u, s) -> cores (fst s) = <[c := n]> (cores (fst st)).
Proof. unfold put_core. intros H. injection H as _ <-. reflexivity. Qed.

Lemma ensure_pending_ok dst tag st u s :
  ensure_pending dst tag st = Ok (u, s) ->
  exists n n2, cores (fst st) !! dst = Some n /\ cores (fst s) !! dst = Some n2 /\
    pending_by_tag n2 !! tag = Some (default [] (pending_by_tag n !! tag)) /\
    (forall t, t <> tag -> pending_by_tag n2 !! t = pending_by_tag n !! t).
Proof.
  unfold ensure_pending. intros H.
  destruct (bind_ok _ _ _ _ _ H) as (n & s1 & G & H1).
  destruct (get_core_ok _ _ _ _ G) as [-> Hn].
  exists n. destruct (pending_by_tag n !! tag) as [l|] eqn:E.
  - injection H1 as _ <-. exists n. auto.
  - exists (set_pending n (<[tag := []]> (pending_by_tag n))).
    rewrite (put_core_ok _ _ _ _ _ H1), lookup_insert_eq. cbn.
    split; [exact Hn|]. split; [reflexivity|]. split.
    + apply lookup_insert_eq.
    + intros t Ht. apply lookup_insert_ne. congruence.
Qed.

Lemma append_pending_ok dst tag e st u s :
  append_pending dst tag e st = Ok (u, s) ->
  exists n, cores (fst st) !! dst = Some n /\
    cores (fst s) !! dst =
      Some (set_pending n (<[tag := default [] (pending_by_tag n !! tag) ++ [e]]>
                             (pending_by_tag n))).
Proof.
  unfold append_pending. intros H.
  destruct (bind_ok _ _ _ _ _ H) as (n & s1 & G & H1).
  destruct (get_core_ok _ _ _ _ G) as [-> Hn].
  exists n. split; [exact Hn|]. rewrite (put_core_ok _ _ _ _ _ H1). apply lookup_insert_eq.
Qed.

Lemma keeps_src_read_cell src addr : keeps_sim (src_read_cell src addr).
Proof.
  intros st a st' H. unfold src_read_cell in H.
  destruct (bind_ok _ _ _ _ _ H) as (n & s1 & G & H1).
  destruct (get_core_ok _ _ _ _ G) as [-> _].
  destruct (bind_ok _ _ _ _ _ H1) as (c & s2 & L & H2).
  unfold lift in L. destruct (read_cell (mem n) addr); [|discriminate]. injection L as _ <-.
  destruct (bind_ok _ _ _ _ _ H2) as (v & s3 & Lg & H3).
  injection Lg as _ <-. injection H3 as _ <-. reflexivity.
Qed.

Lemma keeps_src_read_byte src cell off : keeps_sim (src_read_byte src cell off).
Proof.
  intros st a st' H. unfold src_read_byte in H.
  destruct (bind_ok _ _ _ _ _ H) as (n & s1 & G & H1).
  destruct (get_core_ok _ _ _ _ G) as [-> _].
  destruct (bind_ok _ _ _ _ _ H1) as (c & s2 & L & H2).
  unfold lift in L. destruct (read_bytes_linear (mem n) cell off 1); [|discriminate].
  injection L as _ <-.
  destruct (bind_ok _ _ _ _ _ H2) as (v & s3 & Lg & H3).
  injection Lg as _ <-. injection H3 as _ <-. reflexivity.
Qed.

Lemma keeps_buf_cells src base is : forall data, keeps_sim (buf_cells src base is data).
Proof.
  induction is as [|i is IH]; intros data st a st' H; cbn [buf_cells] in H.
  - injection H as _ <-. reflexivity.
  - destruct (bind_ok _ _ _ _ _ H) as (c & s1 & R & H1).
    rewrite (IH _ _ _ _ H1). exact (keeps_src_read_cell _ _ _ _ _ R).
Qed.

Lemma keeps_buf_bytes (fuel : nat) src : forall sc so data, keeps_sim (buf_bytes fuel src sc so data).
Proof.
  induction fuel as [|fuel IH]; intros sc so data st a st' H; cbn [buf_bytes] in H.
  - injection H as _ <-. reflexivity.
  - destruct (bind_ok _ _ _ _ _ H) as (c & s1 & R & H1).
    rewrite (IH _ _ _ _ _ _ H1). exact (keeps_src_read_byte _ _ _ _ _ _ R).
Qed.

Lemma buffer_appends src dst sp rte i counts st st' :
  _buffer_send_payload src dst sp rte i counts st = Ok (tt, st') ->
  exists n n' data, cores (fst st) !! dst = Some n /\ cores (fst st') !! dst = Some n' /\
    pending_by_tag n' !! rte_tag_id rte =
      Some (default [] (pending_by_tag n !! rte_tag_id rte)
            ++ [(sp_cell_or_neuron sp =? 0, rte, data)]) /\
    (forall t, t <> rte_tag_id rte -> pending_by_tag n' !! t = pending_by_tag n !! t).
Proof.
  unfold _buffer_send_payload. intros H.
  destruct (bind_ok _ _ _ _ _ H) as (n0 & s1 & G & H1).
  destruct (get_core_ok _ _ _ _ G) as [-> _].
  destruct (bind_ok _ _ _ _ _ H1) as (u & s2 & Ens & H2).
  destruct (ensure_pending_ok _ _ _ _ _ Ens) as (n & n2 & Hn & Hn2 & P2 & O2).
  assert (Fin : forall (data : list Z) (b : bool) s3,
            fst s3 = fst s2 -> append_pending dst (rte_tag_id rte) (b, rte, data) s3 = Ok (tt, st') ->
            exists n', cores (fst st') !! dst = Some n' /\
              pending_by_tag n' !! rte_tag_id rte =
                Some (default [] (pending_by_tag n !! rte_tag_id rte) ++ [(b, rte, data)]) /\
              (forall t, t <> rte_tag_id rte -> pending_by_tag n' !! t = pending_by_tag n !! t)).
  { intros data b s3 E3 Ap. destruct (append_pending_ok _ _ _ _ _ _ Ap) as (n3 & Hn3 & Hn').
    rewrite E3, Hn2 in Hn3. injection Hn3 as <-.
    eexists. split; [exact Hn'|]. cbn. split.
    - rewrite lookup_insert_eq, P2. reflexivity.
    - intros t Ht. rewrite lookup_insert_ne by congruence. apply O2. exact Ht. }
  destruct (Z.eqb_spec (sp_cell_or_neuron sp) 0).
  - destruct (bind_ok _ _ _ _ _ H2) as (data & s3 & B & Ap).
    destruct (Fin data true s3 (keeps_buf_cells _ _ _ _ _ _ _ B) Ap) as (n' & ? & ? & ?).
    exists n, n', data. auto.
  - destruct (bind_ok _ _ _ _ _ H2) as (data & s3 & B & Ap).
    destruct (Fin data false s3 (keeps_buf_bytes _ _ _ _ _ _ _ _ B) Ap) as (n' & ? & ? & ?).
    exists n, n', data. auto.
Qed.

Lemma replay_list_in_order dst q (l : list PendingEntry) :
  replay_list dst q l = fold_right (fun e k => replay_entry dst q e ;;; k) (ret tt) l.
Proof. induction l as [|e l IH]; cbn; [reflexivity|]. now rewrite IH. Qed.

(* ------------------------------------------------------------------ *)
(** ** Primitive queues are never rewritten *)

Lemma kq_bind {A B} (m : M A) (k : A -> M B) :
  keeps_queues m -> (forall a, keeps_queues (k a)) -> keeps_queues (mbind_M m k).
Proof.
  intros Hm Hk st b st'' H c.
  destruct (bind_ok _ _ _ _ _ H) as (a & st' & E1 & E2).
  rewrite (Hk a st' b st'' E2 c). exact (Hm st a st' E1 c).
Qed.

Lemma kq_ret {A} (a : A) : keeps_queues (ret a).
Proof. intros st b st' H c. now injection H as _ <-. Qed.

Lemma kq_lift {A} (r : result A) : keeps_queues (lift r).
Proof. intros st b st' H c. unfold lift in H. destruct r; [|discriminate]. now injection H as _ <-. Qed.

Lemma kq_get_core c : keeps_queues (get_core c).
Proof. intros st b st' H c'. now destruct (get_core_ok _ _ _ _ H) as [-> _]. Qed.

Lemma kq_get_sim : keeps_queues get_sim.
Proof. intros st b st' H c. now injection H as _ <-. Qed.

Lemma kq_log_src x : keeps_queues (log_src x).
Proof. intros st b st' H c. now injection H as _ <-. Qed.

(** Writing back a node whose queue is that of the node in place. *)
Lemma kq_put_same c n n0 st u st' :
  cores (fst st) !! c = Some n0 -> prim_queue n = prim_queue n0 ->
  put_core c n st = Ok (u, st') ->
  forall c', option_map prim_queue (cores (fst st') !! c') =
             option_map prim_queue (cores (fst st) !! c').
Proof.
  intros Hn0 Hq H c'. rewrite (put_core_ok _ _ _ _ _ H).
  destruct (decide (c = c')) as [<-|Hne].
  - rewrite lookup_insert_eq, Hn0. cbn. now rewrite Hq.
  - now rewrite lookup_insert_ne.
Qed.

Lemma lift_ok {A} (r : result A) st a s : lift r st = Ok (a, s) -> s = st.
Proof. unfold lift. destruct r; [|discriminate]. now intros [= _ <-]. Qed.

Lemma kq_update_mem c f : keeps_queues (update_mem c f).
Proof.
  intros st u st' H. unfold update_mem in H.
  destruct (bind_ok _ _ _ _ _ H) as (n & s1 & G & H1).
  destruct (get_core_ok _ _ _ _ G) as [-> Hn].
  destruct (bind_ok _ _ _ _ _ H1) as (m & s2 & L & H2).
  rewrite (lift_ok _ _ _ _ L) in H2.
  eapply kq_put_same; [exact Hn| |exact H2]; reflexivity.
Qed.

Lemma kq_ensure_pending dst tag : keeps_queues (ensure_pending dst tag).
Proof.
  intros st u st' H. unfold ensure_pending in H.
  destruct (bind_ok _ _ _ _ _ H) as (n & s1 & G & H1).
  destruct (get_core_ok _ _ _ _ G) as [-> Hn].
  destruct (pending_by_tag n !! tag).
  - intros c. now injection H1 as _ <-.
  - eapply kq_put_same; [exact Hn| |exact H1]; reflexivity.
Qed.

Lemma kq_append_pending dst tag e : keeps_queues (append_pending dst tag e).
Proof.
  intros st u st' H. unfold append_pending in H.
  destruct (bind_ok _ _ _ _ _ H) as (n & s1 & G & H1).
  destruct (get_core_ok _ _ _ _ G) as [-> Hn].
  eapply kq_put_same; [exact Hn| |exact H1]; reflexivity.
Qed.

Create HintDb kq_db.
#[local] Hint Resolve kq_ret kq_lift kq_get_core kq_get_sim kq_log_src kq_update_mem
  kq_ensure_pending kq_append_pending : kq_db.

Ltac kq_solve :=
  repeat first
    [ solve [eauto with kq_db]
    | apply kq_bind; [|intros ?]
    | match goal with
      | |- keeps_queues (if ?b then _ else _) => destruct b
      | |- keeps_queues (match ?e with pair _ _ => _ end) => destruct e
      end ].

Lemma kq_src_read_cell src addr : keeps_queues (src_read_cell src addr).
Proof. unfold src_read_cell. kq_solve. Qed.

Lemma kq_src_read_byte src cell off : keeps_queues (src_read_byte src cell off).
Proof. unfold src_read_byte. kq_solve. Qed.
#[local] Hint Resolve kq_src_read_cell kq_src_read_byte : kq_db.

Lemma kq_seg_loop dst q rte cell_data segs a : keeps_queues (seg_loop dst q rte cell_data segs a).
Proof. revert a; induction segs as [|seg segs IH]; intros a; cbn [seg_loop]; kq_solve. Qed.
#[local] Hint Resolve kq_seg_loop : kq_db.

Lemma kq_cell_loop src dst q rte gs base is a : keeps_queues (cell_loop src dst q rte gs base is a).
Proof. revert a; induction is as [|i is IH]; intros a; cbn [cell_loop]; kq_solve. Qed.

Lemma kq_neuron_loop fuel src dst q rte gs npm :
  forall sc so rem a, keeps_queues (neuron_loop fuel src dst q rte gs npm sc so rem a).
Proof.
  induction fuel; intros sc so rem a; cbn [neuron_loop]; kq_solve.
Qed.

Lemma kq_buf_cells src base is data : keeps_queues (buf_cells src base is data).
Proof. revert data; induction is as [|i is IH]; intros data; cbn [buf_cells]; kq_solve. Qed.

Lemma kq_buf_bytes fuel src : forall sc so data, keeps_queues (buf_bytes fuel src sc so data).
Proof. induction fuel; intros sc so data; cbn [buf_bytes]; kq_solve. Qed.
#[local] Hint Resolve kq_cell_loop kq_neuron_loop kq_buf_cells kq_buf_bytes : kq_db.

Lemma kq_send_cell_mode src dst sp rte i counts : keeps_queues (_send_cell_mode src dst sp rte i counts).
Proof. unfold _send_cell_mode. kq_solve. Qed.

Lemma kq_send_neuron_mode src dst sp rte i counts :
  keeps_queues (_send_neuron_mode src dst sp rte i counts).
Proof. unfold _send_neuron_mode. kq_solve. Qed.

Lemma kq_buffer_send_payload src dst sp rte i counts :
  keeps_queues (_buffer_send_payload src dst sp rte i counts).
Proof. unfold _buffer_send_payload. kq_solve. Qed.

Lemma kq_find_recv_acceptor dst tag : keeps_queues (_find_recv_acceptor dst tag).
Proof. unfold _find_recv_acceptor. kq_solve. Qed.
#[local] Hint Resolve kq_send_cell_mode kq_send_neuron_mode kq_buffer_send_payload
  kq_find_recv_acceptor : kq_db.

Lemma kq_send_loop src src_core sp rtes : forall i counts,
  keeps_queues (send_loop src src_core sp rtes i counts).
Proof. induction rtes as [|rte rtes IH]; intros i counts; cbn [send_loop]; kq_solve. Qed.
#[local] Hint Resolve kq_send_loop : kq_db.

Lemma kq_execute_send src sp : keeps_queues (_execute_send src sp).
Proof. unfold _execute_send. kq_solve. Qed.

Lemma kq_replay_cells dst q rte gs payload ks a :
  keeps_queues (replay_cells dst q rte gs payload ks a).
Proof. revert a; induction ks as [|k ks IH]; intros a; cbn [replay_cells]; kq_solve. Qed.

Lemma kq_replay_bytes dst q rte gs payload : forall idx a,
  keeps_queues (replay_bytes dst q rte gs payload idx a).
Proof. induction payload as [|bv payload IH]; intros idx a; cbn [replay_bytes]; kq_solve. Qed.
#[local] Hint Resolve kq_replay_cells kq_replay_bytes : kq_db.

Lemma kq_replay_list dst q es : keeps_queues (replay_list dst q es).
Proof.
  induction es as [|[[b r] p] es IH]; cbn [replay_list]; [kq_solve|].
  apply kq_bind; [|intros; exact IH]. unfold replay_entry. kq_solve.
Qed.

Lemma kq_execute_recv dst rp : keeps_queues (_execute_recv dst rp).
Proof.
  intros st u st' H. unfold _execute_recv in H.
  destruct (bind_ok _ _ _ _ _ H) as (n & s1 & G & H1).
  destruct (get_core_ok _ _ _ _ G) as [-> Hn].
  destruct (pending_by_tag n !! rp_tag_id rp) as [l|].
  - destruct (bind_ok _ _ _ _ _ H1) as (v & s2 & P & R) .
    intros c. rewrite (kq_replay_list _ _ _ _ _ _ R c).
    revert c. eapply kq_put_same; [exact Hn| |exact P]; reflexivity.
  - intros c. now injection H1 as _ <-.
Qed.
#[local] Hint Resolve kq_execute_send kq_execute_recv : kq_db.

Lemma kq_exec_op c op : keeps_queues (exec_op c op).
Proof.
  unfold exec_op, _prepare_router_msgs_if_needed.
  apply kq_bind; [destruct (op_recv op); kq_solve | intros _].
  destruct (op_send op); [|kq_solve]. apply kq_bind; [|intros; kq_solve].
  destruct (messages_truthy _); kq_solve.
Qed.

(* ------------------------------------------------------------------ *)
(** ** One pass of the scheduler *)

Lemma queue_of_same (x y : option CoreNode) :
  option_map prim_queue x = option_map prim_queue y ->
  match x with Some n => prim_queue n | None => [] end =
  match y with Some n => prim_queue n | None => [] end.
Proof. destruct x, y; cbn; congruence. Qed.

Lemma core_step_spec ss c ss' b :
  core_step ss c = Ok (ss', b) ->
  b = eligible ss c /\
  idx_of ss' c = (idx_of ss c + if b then 1 else 0)%nat /\
  (forall c', c' <> c -> idx_of ss' c' = idx_of ss c' /\ stopped_of ss' c' = stopped_of ss c') /\
  (forall c', queue_of ss' c' = queue_of ss c').
Proof.
  unfold core_step, eligible. intros H.
  destruct (stopped_of ss c) eqn:Es.
  - injection H as <- <-. cbn. rewrite Nat.add_0_r. auto.
  - destruct (nth_error (queue_of ss c) (idx_of ss c)) as [op|] eqn:En.
    + assert (Hlt : (idx_of ss c < length (queue_of ss c))%nat)
        by (apply nth_error_Some; congruence).
      assert (Hst : forall st', match kind op with
                                | KStop => Ok (sc_st ss)
                                | _ => match exec_op c op (sc_st ss) with
                                       | Ok (_, st') => Ok st' | Err e => Err e end
                                end = Ok st' ->
                    forall c', option_map prim_queue (cores (fst st') !! c') =
                               option_map prim_queue (cores (fst (sc_st ss)) !! c')).
      { intros st' E c'. destruct (kind op);
          try (injection E as <-; reflexivity);
          destruct (exec_op c op (sc_st ss)) as [[[] s]|] eqn:X; try discriminate;
          injection E as <-; exact (kq_exec_op _ _ _ _ _ X c'). }
      revert Hst H.
      destruct (match kind op with
                | KStop => Ok (sc_st ss)
                | _ => match exec_op c op (sc_st ss) with
                       | Ok (_, st') => Ok st' | Err e => Err e end
                end) as [st'|e]; [|discriminate].
      intros Hst H. cbn in H. injection H as <- <-.
      apply Nat.ltb_lt in Hlt. rewrite Hlt. cbn.
      split; [reflexivity|]. split.
      { unfold idx_of at 1. cbn. rewrite lookup_insert_eq. cbn. lia. }
      split.
      { intros c' Hc'. unfold idx_of, stopped_of. cbn.
        rewrite lookup_insert_ne by congruence. split; [reflexivity|].
        destruct (kind op); try reflexivity. cbn. now rewrite lookup_insert_ne by congruence. }
      intros c'. unfold queue_of. cbn. apply queue_of_same, (Hst st' eq_refl).
    + injection H as <- <-. apply nth_error_None in En.
      assert (Hge : (idx_of ss c <? length (queue_of ss c))%nat = false)
        by (apply Nat.ltb_ge; exact En).
      rewrite Hge. cbn. rewrite Nat.add_0_r. auto.
Qed.

Lemma existsb_in_ext {A} (f g : A -> bool) (l : list A) :
  (forall x, In x l -> f x = g x) -> existsb f l = existsb g l.
Proof.
  induction l as [|x l IH]; intros H; cbn; [reflexivity|].
  rewrite (H x (or_introl eq_refl)), IH; [reflexivity|]. intros y Hy. apply H. now right.
Qed.

Lemma round_spec cs : NoDup cs -> forall ss p ss' p',
  round ss cs p = Ok (ss', p') ->
  (forall c, idx_of ss' c =
             (idx_of ss c + if bool_decide (c ∈ cs) && eligible ss c then 1 else 0)%nat) /\
  p' = p || existsb (eligible ss) cs.
Proof.
  induction cs as [|c0 cs IH]; intros Hnd ss p ss' p' H; cbn [round] in H.
  - injection H as <- <-. split; [|cbn; now rewrite orb_false_r].
    intros c. rewrite bool_decide_false by apply not_elem_of_nil. cbn. lia.
  - apply NoDup_cons in Hnd as [Hc0 Hnd].
    destruct (core_step ss c0) as [[s1 b]|e] eqn:E; [|discriminate]. cbn in H.
    destruct (core_step_spec _ _ _ _ E) as (Hb & Hi0 & Ho & Hq).
    destruct (IH Hnd _ _ _ _ H) as [Hi Hp].
    assert (Hel : forall c, c ∈ cs -> eligible s1 c = eligible ss c).
    { intros c Hc. assert (c <> c0) by (intros ->; contradiction).
      destruct (Ho c) as [E1 E2]; [assumption|].
      unfold eligible. now rewrite E1, E2, Hq. }
    split.
    + intros c. rewrite Hi. destruct (decide (c = c0)) as [->|Hne].
      * rewrite (bool_decide_false (c0 ∈ cs)) by exact Hc0.
        rewrite (bool_decide_true (c0 ∈ c0 :: cs)) by (apply elem_of_cons; left; reflexivity).
        rewrite Hi0, <- Hb. cbn. lia.
      * destruct (Ho c Hne) as [E1 _]. rewrite E1.
        destruct (decide (c ∈ cs)) as [Hin|Hin].
        -- rewrite (bool_decide_true (c ∈ cs)) by exact Hin.
           rewrite (bool_decide_true (c ∈ c0 :: cs)) by (apply elem_of_cons; right; exact Hin).
           now rewrite Hel.
        -- rewrite (bool_decide_false (c ∈ cs)) by exact Hin.
           rewrite (bool_decide_false (c ∈ c0 :: cs)); [reflexivity|].
           rewrite elem_of_cons. intros [?|?]; contradiction.
    + rewrite Hp, Hb. cbn. rewrite <- orb_assoc. f_equal. f_equal.
      apply existsb_in_ext. intros c Hc. apply Hel. now apply list_elem_of_In.
Qed.

(* ------------------------------------------------------------------ *)
(** ** Row-major order of the cores *)

Lemma nth_error_seq_lt (s n i : nat) : (i < n)%nat -> nth_error (seq s n) i = Some (s + i)%nat.
Proof.
  revert s i. induction n as [|n IH]; intros s i Hi; [lia|].
  destruct i as [|i]; cbn; [f_equal; lia|]. rewrite IH by lia. f_equal. lia.
Qed.

Lemma nth_error_zrange (n y : Z) : 0 <= y < n -> nth_error (zrange n) (Z.to_nat y) = Some y.
Proof.
  intros Hy. unfold zrange. rewrite nth_error_map, nth_error_seq_lt by lia. cbn. f_equal. lia.
Qed.

Lemma length_zrange (n : Z) : length (zrange n) = Z.to_nat n.
Proof. unfold zrange. now rewrite length_map, length_seq. Qed.

Lemma NoDup_map_inj {A B} (f : A -> B) (l : list A) :
  (forall a b, f a = f b -> a = b) -> NoDup l -> NoDup (map f l).
Proof.
  intros Hf Hl. induction Hl as [|x l Hx Hl IH]; cbn; constructor; [|exact IH].
  intros Hin. apply list_elem_of_In, in_map_iff in Hin as (y & E & Hy). apply Hf in E. subst.
  apply Hx, list_elem_of_In, Hy.
Qed.

Lemma NoDup_zrange (n : Z) : NoDup (zrange n).
Proof.
  unfold zrange. apply NoDup_map_inj; [intros a b; lia|]. apply NoDup_seq.
Qed.

Lemma nth_error_flat_map_blocks {A B} (f : A -> list B) (w : nat) (ys : list A) (k j : nat) :
  (forall y, length (f y) = w) -> (j < w)%nat ->
  nth_error (flat_map f ys) (k * w + j) =
  match nth_error ys k with Some y => nth_error (f y) j | None => None end.
Proof.
  intros Hl Hj. revert k. induction ys as [|y ys IH]; intros k; [cbn [flat_map]; now rewrite !nth_error_nil|].
  cbn [flat_map]. destruct k as [|k].
  - cbn. rewrite nth_error_app1 by (rewrite Hl; lia). reflexivity.
  - rewrite nth_error_app2 by (rewrite Hl; lia).
    replace (S k * w + j - length (f y))%nat with (k * w + j)%nat by (rewrite Hl; lia).
    apply IH.
Qed.

Lemma coords_nth (h w y x : Z) :
  0 <= y < h -> 0 <= x < w -> nth_error (coords h w) (Z.to_nat (y * w + x)) = Some (y, x).
Proof.
  intros Hy Hx. unfold coords.
  replace (Z.to_nat (y * w + x)) with (Z.to_nat y * Z.to_nat w + Z.to_nat x)%nat by lia.
  rewrite (nth_error_flat_map_blocks _ (Z.to_nat w)).
  - rewrite nth_error_zrange by lia. rewrite nth_error_map, nth_error_zrange by lia.
    reflexivity.
  - intros y'. now rewrite length_map, length_zrange.
  - lia.
Qed.

Lemma coords_NoDup (h w : Z) : NoDup (coords h w).
Proof.
  unfold coords. generalize (NoDup_zrange h). induction (zrange h) as [|y ys IH]; intros Hnd.
  - constructor.
  - apply NoDup_cons in Hnd as [Hy Hnd]. cbn [flat_map]. apply NoDup_app. split; [|split].
    + apply NoDup_map_inj; [intros a b E; now injection E|]. apply NoDup_zrange.
    + intros [y' x'] H1 H2. apply list_elem_of_In in H1, H2.
      apply in_map_iff in H1 as (x1 & E1 & _). injection E1 as <- _.
      apply in_flat_map in H2 as (y2 & Hy2 & H2).
      apply in_map_iff in H2 as (x2 & E2 & _). injection E2 as <- _.
      apply Hy. now apply list_elem_of_In.
    + now apply IH.
Qed.

(** C8 (confirmed).  The simulator is a function of its inputs, so equal
    grid shapes and configurations give equal outcomes (the same final
    memories, or the same exception).  [run] passes over the cores in
    [coords h w], which lists every (y, x) once, at index [y*w + x]
    (row-major).  In one pass every listed core advances its index by one
    exactly when it is eligible (not stopped, ops left) and no other index
    moves.  The pass reports progress exactly when some core was eligible. *)
Theorem round_robin_deterministic :
  (forall h w cfgs1 cfgs2, cfgs1 = cfgs2 ->
     run_simulation h w cfgs1 = run_simulation h w cfgs2) /\
  (forall h w, NoDup (coords h w) /\
     forall y x, 0 <= y < h -> 0 <= x < w ->
       nth_error (coords h w) (Z.to_nat (y * w + x)) = Some (y, x)) /\
  (forall cs ss p ss' p', NoDup cs -> round ss cs p = Ok (ss', p') ->
     (forall c, idx_of ss' c =
                (idx_of ss c + if bool_decide (c ∈ cs) && eligible ss c then 1 else 0)%nat) /\
     p' = p || existsb (eligible ss) cs).
Proof.
  split; [intros h w cfgs1 cfgs2 ->; reflexivity|].
  split; [intros h w; split; [apply coords_NoDup | apply coords_nth]|].
  intros cs ss p ss' p' Hnd H. exact (round_spec cs Hnd ss p ss' p' H).
Qed.

Lemma round_robin_deterministic_witness :
  exists ss', round (sched_init c8_sim) (coords 1 2) false = Ok (ss', true) /\
    idx_of ss' (0, 0) = 1%nat /\ idx_of ss' (0, 1) = 0%nat.
Proof.
  assert (H : exists ss', round (sched_init c8_sim) (coords 1 2) false = Ok (ss', true))
    by (eexists; vm_compute; reflexivity).
  destruct H as [ss' H]. exists ss'. split; [exact H|].
  destruct (proj2 (proj2 round_robin_deterministic) _ _ _ _ _
              (proj1 (proj1 (proj2 round_robin_deterministic) 1 2)) H) as [Hi _].
  rewrite !Hi. vm_compute. split; reflexivity.
Defined.

(* ------------------------------------------------------------------ *)
(** ** Masked writes and reads of [CoreMemory] *)

Lemma get_cell_buf_wf (m : CoreMemory) (a : Z) :
  cells_wf m -> length (_get_cell_buf m a) = 32%nat /\ byte_list (_get_cell_buf m a).
Proof.
  intros Hwf. unfold _get_cell_buf. destruct (_cells m !! a) as [b|] eqn:E; cbn.
  - exact (Hwf a b E).
  - split; [reflexivity|]. unfold byte_list, zero_cell.
    repeat (apply Forall_cons; split; [lia|]). apply Forall_nil. exact I.
Qed.

Lemma read_cell_range (m : CoreMemory) (a : Z) :
  0 <= a < num_cells m -> read_cell m a = Ok (_get_cell_buf m a).
Proof.
  intros Ha. unfold read_cell, _bounds_check_cell.
  destruct (Z.leb_spec 0 a), (Z.ltb_spec a (num_cells m)); try lia. reflexivity.
Qed.

Lemma read_cell_out (m : CoreMemory) (a : Z) :
  ~ (0 <= a < num_cells m) -> read_cell m a = Err IndexError.
Proof.
  intros Ha. unfold read_cell, _bounds_check_cell.
  destruct (Z.leb_spec 0 a), (Z.ltb_spec a (num_cells m)); try lia; reflexivity.
Qed.

Lemma bounds_ok (m : CoreMemory) (a : Z) :
  0 <= a < num_cells m -> _bounds_check_cell m a = Ok tt.
Proof.
  intros Ha. unfold _bounds_check_cell.
  destruct (Z.leb_spec 0 a), (Z.ltb_spec a (num_cells m)); try lia. reflexivity.
Qed.

Lemma bounds_out (m : CoreMemory) (a : Z) :
  ~ (0 <= a < num_cells m) -> _bounds_check_cell m a = Err IndexError.
Proof.
  intros Ha. unfold _bounds_check_cell.
  destruct (Z.leb_spec 0 a), (Z.ltb_spec a (num_cells m)); try lia; reflexivity.
Qed.

Lemma splice_length (base data : list Z) (start : nat) :
  (start + length data <= length base)%nat -> length (splice base start data) = length base.
Proof.
  intros H. unfold splice. rewrite !length_app, length_skipn, firstn_length_le; lia.
Qed.

Lemma splice_nth (base data : list Z) (start k : nat) :
  (start + length data <= length base)%nat ->
  nth k (splice base start data) 0 =
  if (start <=? k)%nat && (k <? start + length data)%nat then nth (k - start) data 0
  else nth k base 0.
Proof.
  intros H. unfold splice.
  destruct (Nat.ltb_spec k start).
  - rewrite app_nth1 by (rewrite firstn_length_le; lia).
    rewrite nth_firstn. destruct (Nat.ltb_spec k start); [|lia].
    destruct (Nat.leb_spec start k); [lia|]. reflexivity.
  - rewrite app_nth2 by (rewrite firstn_length_le; lia). rewrite firstn_length_le by lia.
    destruct (Nat.leb_spec start k); [|lia]. cbn [andb].
    destruct (Nat.ltb_spec k (start + length data)).
    + rewrite app_nth1 by lia. reflexivity.
    + rewrite app_nth2 by lia. rewrite nth_skipn. f_equal. lia.
Qed.

Lemma splice_bytes (base data : list Z) (start : nat) :
  byte_list base -> byte_list data -> byte_list (splice base start data).
Proof.
  intros Hb Hd. unfold splice, byte_list in *.
  apply Forall_app; split; [apply Forall_take; exact Hb|].
  apply Forall_app; split; [exact Hd|]. apply Forall_drop. exact Hb.
Qed.

Lemma insert_bytes (base : list Z) (i : nat) (v : Z) :
  byte_list base -> 0 <= v < 256 -> byte_list (<[i := v]> base).
Proof.
  intros Hb Hv. unfold byte_list in *. apply Forall_insert; assumption.
Qed.

Lemma cells_wf_set (m : CoreMemory) (a : Z) (b : list Z) :
  cells_wf m -> length b = 32%nat -> byte_list b ->
  cells_wf (mkCoreMemory (num_cells m) (<[a := b]> (_cells m))).
Proof. intros Hwf Hl Hb. unfold cells_wf. cbn. apply map_Forall_insert_2; auto. Qed.

Lemma write_8B_ok (m : CoreMemory) (cell seg : Z) (data8 : list Z) m' :
  write_8B m cell seg data8 = Ok m' ->
  0 <= cell < num_cells m /\ 0 <= seg <= 3 /\ length data8 = 8%nat /\
  m' = set_cell m cell (splice (_get_cell_buf m cell) (Z.to_nat (seg * 8)) data8).
Proof.
  unfold write_8B, _bounds_check_cell.
  destruct (Z.leb_spec 0 cell), (Z.ltb_spec cell (num_cells m)); cbn; try discriminate.
  destruct (Z.leb_spec 0 seg), (Z.leb_spec seg 3); cbn; try discriminate.
  destruct (Nat.eqb_spec (length data8) 8); cbn; try discriminate.
  intros [= <-]. repeat split; auto.
Qed.

Lemma write_1B_ok (m : CoreMemory) (cell i v : Z) m' :
  write_1B m cell i v = Ok m' ->
  0 <= cell < num_cells m /\ 0 <= i < 32 /\ 0 <= v <= 255 /\
  m' = set_cell m cell (<[Z.to_nat i := v]> (_get_cell_buf m cell)).
Proof.
  unfold write_1B, _bounds_check_cell, MEM_CELL_BYTES.
  destruct (Z.leb_spec 0 cell), (Z.ltb_spec cell (num_cells m)); cbn; try discriminate.
  destruct (Z.leb_spec 0 i), (Z.ltb_spec i 32); cbn; try discriminate.
  destruct (Z.leb_spec 0 v), (Z.leb_spec v 255); cbn; try discriminate.
  intros [= <-]. repeat split; auto; lia.
Qed.

(** X1.  [write_8B] checks the cell address first ([IndexError]), then the
    segment index and the data length ([ValueError]).  On a memory whose
    stored cells are 32 bytes, a valid write changes only the target cell,
    which afterwards reads back as the old cell with bytes
    [8*seg .. 8*seg+7] replaced by [data8]. *)
Theorem write_8B_spec (m : CoreMemory) (cell seg : Z) (data8 : list Z) :
  (~ (0 <= cell < num_cells m) -> write_8B m cell seg data8 = Err IndexError) /\
  (0 <= cell < num_cells m -> ~ (0 <= seg <= 3 /\ length data8 = 8%nat) ->
     write_8B m cell seg data8 = Err ValueError) /\
  (0 <= cell < num_cells m -> 0 <= seg <= 3 -> length data8 = 8%nat -> cells_wf m ->
     exists m', write_8B m cell seg data8 = Ok m' /\ num_cells m' = num_cells m /\
       (byte_list data8 -> cells_wf m') /\
       (forall a, a <> cell -> _cells m' !! a = _cells m !! a) /\
       exists old c, read_cell m cell = Ok old /\ read_cell m' cell = Ok c /\
         length c = 32%nat /\
         forall k, (k < 32)%nat ->
           nth k c 0 = if (Z.to_nat (8 * seg) <=? k)%nat && (k <? Z.to_nat (8 * seg) + 8)%nat
                       then nth (k - Z.to_nat (8 * seg)) data8 0 else nth k old 0).
Proof.
  split; [|split].
  - intros Hc. unfold write_8B. rewrite bounds_out by exact Hc. reflexivity.
  - intros Hc Hv. unfold write_8B. rewrite bounds_ok by exact Hc. cbn.
    destruct (Z.leb_spec 0 seg), (Z.leb_spec seg 3); cbn; try reflexivity.
    destruct (Nat.eqb_spec (length data8) 8); cbn; [exfalso; apply Hv; split; [lia|auto]|].
    reflexivity.
  - intros Hc Hs Hl Hwf.
    destruct (get_cell_buf_wf m cell Hwf) as [Hb Hbb].
    set (buf := splice (_get_cell_buf m cell) (Z.to_nat (seg * 8)) data8).
    exists (set_cell m cell buf). split.
    { unfold write_8B. rewrite bounds_ok by exact Hc. cbn.
      destruct (Z.leb_spec 0 seg), (Z.leb_spec seg 3); try lia. cbn.
      rewrite Hl. reflexivity. }
    split; [reflexivity|]. split.
    { intros Hd. apply cells_wf_set; [exact Hwf| |apply splice_bytes; assumption].
      unfold buf; rewrite splice_length; [exact Hb|]; rewrite Hl, Hb; lia. }
    split.
    { intros a Ha. cbn. apply lookup_insert_ne. congruence. }
    exists (_get_cell_buf m cell), buf. split; [apply read_cell_range; exact Hc|].
    split.
    { rewrite read_cell_range by exact Hc. unfold _get_cell_buf at 1, set_cell. cbn.
      rewrite lookup_insert_eq. reflexivity. }
    split; [unfold buf; rewrite splice_length; [exact Hb|]; rewrite Hl, Hb; lia|].
    intros k Hk. unfold buf. rewrite splice_nth by (rewrite Hl, Hb; lia).
    rewrite Hl. replace (Z.to_nat (seg * 8)) with (Z.to_nat (8 * seg)) by lia. reflexivity.
Qed.

Lemma write_8B_spec_witness :
  exists m', write_8B CoreMemory_new 5 2 [1; 2; 3; 4; 5; 6; 7; 8] = Ok m' /\
    read_cell m' 5 = Ok (repeat 0 16 ++ [1; 2; 3; 4; 5; 6; 7; 8] ++ repeat 0 8).
Proof.
  destruct (proj2 (proj2 (write_8B_spec CoreMemory_new 5 2 [1; 2; 3; 4; 5; 6; 7; 8])))
    as (m' & W & _ & _ & _ & old & c & Ho & Hc & Hl & Hn).
  - vm_compute. split; congruence.
  - lia.
  - reflexivity.
  - intros a b Hab. discriminate.
  - exists m'. split; [exact W|]. rewrite Hc. f_equal.
    vm_compute in Ho. injection Ho as <-.
    apply nth_ext with (d := 0) (d' := 0); [exact Hl|].
    intros k Hk. rewrite Hl in Hk. rewrite (Hn k Hk).
    do 32 (destruct k as [|k]; [reflexivity|]). lia.
Defined.

Lemma insert_nth (l : list Z) (i k : nat) (v : Z) :
  (i < length l)%nat -> nth k (<[i := v]> l) 0 = if (k =? i)%nat then v else nth k l 0.
Proof.
  revert i k; induction l as [|x l IH]; intros i k Hi; cbn in Hi; [lia|].
  destruct i as [|i], k as [|k]; try reflexivity.
  change (<[S i:=v]> (x :: l)) with (x :: <[i:=v]> l). cbn [nth].
  rewrite IH by lia. reflexivity.
Qed.

(** X2.  [write_1B] checks the cell address first ([IndexError]), then the
    byte index and then the value ([ValueError]).  On a memory whose stored
    cells are 32 bytes, a valid write changes only byte [byte_idx] of the
    target cell and keeps every stored cell a 32-byte buffer. *)
Theorem write_1B_spec (m : CoreMemory) (cell i v : Z) :
  (~ (0 <= cell < num_cells m) -> write_1B m cell i v = Err IndexError) /\
  (0 <= cell < num_cells m -> ~ (0 <= i < 32) -> write_1B m cell i v = Err ValueError) /\
  (0 <= cell < num_cells m -> 0 <= i < 32 -> ~ (0 <= v <= 255) ->
     write_1B m cell i v = Err ValueError) /\
  (0 <= cell < num_cells m -> 0 <= i < 32 -> 0 <= v <= 255 -> cells_wf m ->
     exists m', write_1B m cell i v = Ok m' /\ num_cells m' = num_cells m /\ cells_wf m' /\
       (forall a, a <> cell -> _cells m' !! a = _cells m !! a) /\
       exists old c, read_cell m cell = Ok old /\ read_cell m' cell = Ok c /\
         length c = 32%nat /\
         forall k, (k < 32)%nat -> nth k c 0 = if (k =? Z.to_nat i)%nat then v else nth k old 0).
Proof.
  unfold write_1B, MEM_CELL_BYTES. split; [|split; [|split]].
  - intros Hc. rewrite bounds_out by exact Hc. reflexivity.
  - intros Hc Hi. rewrite bounds_ok by exact Hc. cbn.
    destruct (Z.leb_spec 0 i), (Z.ltb_spec i 32); cbn; try reflexivity. lia.
  - intros Hc Hi Hv. rewrite bounds_ok by exact Hc. cbn.
    destruct (Z.leb_spec 0 i), (Z.ltb_spec i 32); try lia. cbn.
    destruct (Z.leb_spec 0 v), (Z.leb_spec v 255); cbn; try reflexivity. lia.
  - intros Hc Hi Hv Hwf. rewrite bounds_ok by exact Hc. cbn.
    destruct (Z.leb_spec 0 i), (Z.ltb_spec i 32); try lia. cbn.
    destruct (Z.leb_spec 0 v), (Z.leb_spec v 255); try lia. cbn.
    destruct (get_cell_buf_wf m cell Hwf) as [Hb Hbb].
    set (buf := <[Z.to_nat i := v]> (_get_cell_buf m cell)).
    assert (Hl : length buf = 32%nat) by (unfold buf; rewrite length_insert; exact Hb).
    exists (set_cell m cell buf). split; [reflexivity|]. split; [reflexivity|]. split.
    { apply cells_wf_set; [exact Hwf|exact Hl|]. apply insert_bytes; [exact Hbb|lia]. }
    split.
    { intros a Ha. cbn. apply lookup_insert_ne. congruence. }
    exists (_get_cell_buf m cell), buf. split; [apply read_cell_range; exact Hc|].
    split.
    { rewrite read_cell_range by exact Hc. unfold _get_cell_buf at 1, set_cell. cbn.
      rewrite lookup_insert_eq. reflexivity. }
    split; [exact Hl|].
    intros k Hk. unfold buf. apply insert_nth. rewrite Hb. lia.
Qed.

Lemma write_1B_spec_witness :
  exists m', write_1B CoreMemory_new 7 3 200 = Ok m' /\
    read_cell m' 7 = Ok ([0; 0; 0; 200] ++ repeat 0 28).
Proof.
  destruct (proj2 (proj2 (proj2 (write_1B_spec CoreMemory_new 7 3 200))))
    as (m' & W & _ & _ & _ & old & c & Ho & Hc & Hl & Hn).
  - vm_compute. split; congruence.
  - lia.
  - lia.
  - intros a b Hab. discriminate.
  - exists m'. split; [exact W|]. rewrite Hc. f_equal.
    vm_compute in Ho. injection Ho as <-.
    apply nth_ext with (d := 0) (d' := 0); [exact Hl|].
    intros k Hk. rewrite Hl in Hk. rewrite (Hn k Hk).
    do 32 (destruct k as [|k]; [reflexivity|]). lia.
Defined.

Lemma byte_at_cell (m : CoreMemory) (c r : Z) :
  0 <= r < 32 -> byte_at m (32 * c + r) = nth (Z.to_nat r) (_get_cell_buf m c) 0.
Proof.
  intros Hr. unfold byte_at.
  assert (E1 : (32 * c + r) / 32 = c) by (symmetry; apply Z.div_unique with r; lia).
  assert (E2 : (32 * c + r) mod 32 = r) by (symmetry; apply Z.mod_unique with c; lia).
  now rewrite E1, E2.
Qed.

Lemma zrange_in (n k : Z) : In k (zrange n) -> 0 <= k < n.
Proof.
  unfold zrange. intros H. apply in_map_iff in H as (j & <- & Hj).
  apply in_seq in Hj. lia.
Qed.

Lemma zrange_nonpos (n : Z) : n <= 0 -> zrange n = [].
Proof. intros Hn. unfold zrange. now replace (Z.to_nat n) with 0%nat by lia. Qed.

Lemma seq_shift_add (s n : nat) : seq s n = map (Nat.add s) (seq 0 n).
Proof.
  induction s as [|s IH].
  - rewrite map_ext with (g := fun x => x) by reflexivity. now rewrite map_id.
  - rewrite <- seq_shift, IH, map_map. apply map_ext. reflexivity.
Qed.

Lemma zrange_add (a b : Z) :
  0 <= a -> 0 <= b -> zrange (a + b) = zrange a ++ map (Z.add a) (zrange b).
Proof.
  intros Ha Hb. unfold zrange. rewrite Z2Nat.inj_add by lia.
  rewrite seq_app, map_app. f_equal. cbn [Nat.add].
  rewrite seq_shift_add, !map_map. apply map_ext. intros x. lia.
Qed.

Lemma nth_map_zrange (f : Z -> Z) (n : Z) (k : nat) (d : Z) :
  (k < Z.to_nat n)%nat -> nth k (map f (zrange n)) d = f (Z.of_nat k).
Proof.
  intros Hk. unfold zrange. rewrite map_map.
  rewrite nth_indep with (d' := (fun x => f (Z.of_nat x)) 0%nat)
    by (rewrite length_map, length_seq; lia).
  rewrite (map_nth (fun x => f (Z.of_nat x))), seq_nth by lia. reflexivity.
Qed.

Lemma pyslice_nth (l : list Z) (lo hi : Z) :
  0 <= lo <= hi -> hi <= Z.of_nat (length l) ->
  pyslice l lo hi = map (fun k => nth (Z.to_nat (lo + k)) l 0) (zrange (hi - lo)).
Proof.
  intros Hlo Hhi. unfold pyslice.
  apply nth_ext with (d := 0) (d' := 0).
  - rewrite length_map, length_zrange, length_firstn, length_skipn. lia.
  - intros k Hk. rewrite length_firstn, length_skipn in Hk.
    rewrite nth_firstn. destruct (Nat.ltb_spec k (Z.to_nat hi - Z.to_nat lo)); [|lia].
    rewrite nth_skipn, nth_map_zrange by lia. f_equal. lia.
Qed.

Lemma read_bytes_loop_spec (fuel : nat) (m : CoreMemory) (cell off rem : Z) (out : list Z) :
  cells_wf m -> 0 <= off < 32 -> 0 <= rem -> (Z.to_nat rem <= fuel)%nat -> 0 <= cell ->
  32 * cell + off + rem <= 32 * num_cells m ->
  read_bytes_loop fuel m cell off rem out =
  Ok (out ++ map (fun k => byte_at m (32 * cell + off + k)) (zrange rem)).
Proof.
  revert cell off rem out.
  induction fuel as [|fuel IH]; intros cell off rem out Hwf Hoff Hrem Hfuel Hcell Hend.
  - cbn. rewrite zrange_nonpos by lia. now rewrite app_nil_r.
  - cbn [read_bytes_loop]. destruct (Z.leb_spec rem 0).
    { rewrite zrange_nonpos by lia. now rewrite app_nil_r. }
    unfold MEM_CELL_BYTES.
    rewrite read_cell_range by lia. cbn [rbind].
    set (chunk := Z.min rem (32 - off)).
    assert (Hch : 0 < chunk <= rem /\ chunk <= 32 - off) by (unfold chunk; lia).
    rewrite IH by (try exact Hwf; lia).
    rewrite <- app_assoc. f_equal. f_equal.
    replace rem with (chunk + (rem - chunk)) at 2 by lia.
    rewrite zrange_add, map_app, map_map by lia. f_equal.
    + destruct (get_cell_buf_wf m cell Hwf) as [Hb _].
      rewrite pyslice_nth by (try rewrite Hb; lia).
      replace (off + chunk - off) with chunk by lia.
      apply map_ext_in. intros k Hk. apply zrange_in in Hk.
      rewrite <- Z.add_assoc, byte_at_cell by lia. reflexivity.
    + apply map_ext_in. intros k Hk. apply zrange_in in Hk.
      assert (chunk = 32 - off) by (unfold chunk in *; lia). f_equal. lia.
Qed.

(** X3.  [read_bytes_linear] asserts [0 <= start_byte_offset < 32]; if the
    first cell of a non-empty window is out of range it raises [IndexError];
    and when the whole window lies inside memory it returns exactly the
    bytes at linear byte addresses [32*start_cell + start_off + k] for
    [k < length] (nothing for a non-positive length). *)
Theorem read_bytes_linear_spec (m : CoreMemory) (c off len : Z) :
  (~ (0 <= off < 32) -> read_bytes_linear m c off len = Err AssertionError) /\
  (0 <= off < 32 -> 0 < len -> ~ (0 <= c < num_cells m) ->
     read_bytes_linear m c off len = Err IndexError) /\
  (cells_wf m -> 0 <= off < 32 -> 0 <= c -> 32 * c + off + len <= 32 * num_cells m ->
     read_bytes_linear m c off len =
     Ok (map (fun k => byte_at m (32 * c + off + k)) (zrange len))).
Proof.
  unfold read_bytes_linear, MEM_CELL_BYTES. split; [|split].
  - intros Hoff. destruct (Z.leb_spec 0 off), (Z.ltb_spec off 32); try reflexivity. lia.
  - intros Hoff Hlen Hc. destruct (Z.leb_spec 0 off), (Z.ltb_spec off 32); try lia. cbn.
    destruct (Z.to_nat len) as [|n] eqn:E; [lia|]. cbn.
    destruct (Z.leb_spec len 0); [lia|]. rewrite read_cell_out by exact Hc. reflexivity.
  - intros Hwf Hoff Hc Hend. destruct (Z.leb_spec 0 off), (Z.ltb_spec off 32); try lia. cbn.
    destruct (Z.leb_spec 0 len).
    + rewrite read_bytes_loop_spec; auto; lia.
    + rewrite zrange_nonpos by lia. now replace (Z.to_nat len) with 0%nat by lia.
Qed.

Lemma read_bytes_linear_spec_witness :
  read_bytes_linear (set_cell (set_cell CoreMemory_new 3 (repeat 1 32)) 4 (repeat 2 32)) 3 30 4
  = Ok [1; 1; 2; 2].
Proof.
  rewrite (proj2 (proj2 (read_bytes_linear_spec _ 3 30 4))).
  - reflexivity.
  - intros a b Hab. cbn in Hab.
    rewrite lookup_insert_Some in Hab. destruct Hab as [[_ <-]|[_ Hab]].
    + split; [reflexivity|]. repeat constructor; lia.
    + rewrite lookup_insert_Some in Hab. destruct Hab as [[_ <-]|[_ Hab]]; [|discriminate].
      split; [reflexivity|]. repeat constructor; lia.
  - lia.
  - lia.
  - cbn. lia.
Defined.

(** X4.  [iter_cells_span_from_A_8B] splits any (also negative) 8-byte
    address [A] into the cell delta and segment with [A = 4*delta + seg],
    [0 <= seg < 4], and this pair is the only one with that property;
    likewise [iter_cells_span_from_A_1B] with [A = 32*delta + byte_idx],
    [0 <= byte_idx < 32]. *)
Theorem iter_cells_span_spec (a d s : Z) :
  (iter_cells_span_from_A_8B a = (d, s) <-> a = 4 * d + s /\ 0 <= s < 4) /\
  (iter_cells_span_from_A_1B a = (d, s) <-> a = 32 * d + s /\ 0 <= s < 32).
Proof.
  unfold iter_cells_span_from_A_8B, iter_cells_span_from_A_1B.
  rewrite !Z.shiftr_div_pow2 by lia.
  change 3 with (Z.ones 2). change 31 with (Z.ones 5).
  rewrite !Z.land_ones by lia. change (2 ^ 2) with 4. change (2 ^ 5) with 32.
  split; split.
  - intros [= <- <-]. pose proof (Z.mod_pos_bound a 4 ltac:(lia)).
    pose proof (Z.div_mod a 4 ltac:(lia)). lia.
  - intros [-> Hs]. f_equal; symmetry;
      [apply Z.div_unique with s | apply Z.mod_unique with d]; lia.
  - intros [= <- <-]. pose proof (Z.mod_pos_bound a 32 ltac:(lia)).
    pose proof (Z.div_mod a 32 ltac:(lia)). lia.
  - intros [-> Hs]. f_equal; symmetry;
      [apply Z.div_unique with s | apply Z.mod_unique with d]; lia.
Qed.

(* ------------------------------------------------------------------ *)
(** ** Parsing the primitive queue *)

Lemma decode_prim_cell_total (l : list Z) :
  length l = 32%nat -> exists o, decode_prim_cell l = Ok o.
Proof.
  intros Hl. unfold decode_prim_cell. rewrite Hl. cbn [Nat.eqb negb].
  repeat match goal with |- context [if ?b then _ else _] => destruct b end; eauto.
Qed.

Lemma parse_prims_loop_spec (fuel : nat) (m : CoreMemory) (addr : Z) (prims : list PrimOp) :
  cells_wf m -> 0 <= addr -> num_cells m - addr <= Z.of_nat fuel ->
  exists qs, parse_prims_loop fuel m addr prims = Ok (prims ++ qs) /\
    addr + Z.of_nat (length qs) <= Z.max addr (num_cells m) /\
    (forall i op, nth_error qs i = Some op ->
       decode_prim_cell (_get_cell_buf m (addr + Z.of_nat i)) = Ok (Some op)) /\
    (addr + Z.of_nat (length qs) < num_cells m ->
       decode_prim_cell (_get_cell_buf m (addr + Z.of_nat (length qs))) = Ok None).
Proof.
  revert addr prims.
  induction fuel as [|fuel IH]; intros addr prims Hwf Ha Hf.
  - exists []. rewrite app_nil_r. cbn. repeat split; try lia.
    intros i op H. destruct i; discriminate.
  - cbn [parse_prims_loop]. destruct (Z.ltb_spec addr (num_cells m)).
    + rewrite read_cell_range by lia. cbn [rbind].
      destruct (get_cell_buf_wf m addr Hwf) as [Hb _].
      destruct (decode_prim_cell_total _ Hb) as [[op|] Ho]; rewrite Ho; cbn [rbind].
      * destruct (IH (addr + 1) (prims ++ [op]) Hwf ltac:(lia) ltac:(lia))
          as (qs & E & Hlen & Hnth & Hend).
        exists (op :: qs). rewrite E, <- app_assoc. split; [reflexivity|].
        cbn [length]. split; [lia|]. split.
        -- intros [|i] op' Hi; cbn in Hi.
           ++ injection Hi as <-. now rewrite Z.add_0_r.
           ++ rewrite <- (Hnth i op' Hi). f_equal. f_equal. lia.
        -- intros Hl. rewrite <- Hend by lia. f_equal. f_equal. lia.
      * exists []. rewrite app_nil_r. split; [reflexivity|]. cbn. split; [lia|]. split.
        -- intros [|i] op' Hi; discriminate.
        -- intros _. now rewrite Z.add_0_r.
    + exists []. rewrite app_nil_r. split; [reflexivity|]. cbn. split; [lia|]. split.
      * intros [|i] op' Hi; discriminate.
      * lia.
Qed.

(** X5.  [_parse_prims_from_memory] never raises on a memory whose stored
    cells are 32 bytes: it returns the ops decoded from cells [0, 1, ...] in
    order, at most [num_cells] of them, and stops exactly at the first cell
    that decodes to [None] (or at the end of memory). *)
Theorem parse_prims_from_memory_total (m : CoreMemory) :
  cells_wf m ->
  exists ps, _parse_prims_from_memory m = Ok ps /\
    Z.of_nat (length ps) <= Z.max 0 (num_cells m) /\
    (forall i op, nth_error ps i = Some op ->
       decode_prim_cell (_get_cell_buf m (Z.of_nat i)) = Ok (Some op)) /\
    (Z.of_nat (length ps) < num_cells m ->
       decode_prim_cell (_get_cell_buf m (Z.of_nat (length ps))) = Ok None).
Proof.
  intros Hwf. unfold _parse_prims_from_memory.
  destruct (parse_prims_loop_spec (Z.to_nat (num_cells m)) m 0 [] Hwf ltac:(lia) ltac:(lia))
    as (qs & E & Hlen & Hnth & Hend).
  exists qs. rewrite E. split; [reflexivity|]. split; [lia|]. split; assumption.
Qed.

Lemma parse_prims_from_memory_total_witness :
  exists ps, _parse_prims_from_memory (set_cell CoreMemory_new 0 (repeat 0 31 ++ [3])) = Ok ps
    /\ Z.of_nat (length ps) <= 24576.
Proof.
  destruct (parse_prims_from_memory_total (set_cell CoreMemory_new 0 (repeat 0 31 ++ [3])))
    as (ps & E & Hl & _).
  - intros a b Hab. cbn in Hab. rewrite lookup_insert_Some in Hab.
    destruct Hab as [[_ <-]|[_ Hab]]; [|discriminate].
    split; [reflexivity|]. repeat constructor; lia.
  - exists ps. split; [exact E|]. cbn [num_cells set_cell CoreMemory_new] in Hl. lia.
Defined.

(* ------------------------------------------------------------------ *)
(** ** Sign extension and range-checked conversions *)

Lemma lxor_pow2_small (r k : Z) : 0 <= k -> 0 <= r < 2 ^ k -> Z.lxor r (2 ^ k) = r + 2 ^ k.
Proof.
  intros Hk Hr. symmetry. apply Z.add_nocarry_lxor.
  apply Z.bits_inj'. intros n Hn. rewrite Z.land_spec, Z.pow2_bits_eqb, Z.bits_0 by lia.
  destruct (Z.eqb_spec k n) as [<-|]; [|apply andb_false_r].
  rewrite (testbit_small r k k) by lia. reflexivity.
Qed.

Lemma sign_extend_eq (v b : Z) :
  1 <= b ->
  _sign_extend v b = if v mod 2 ^ b <? 2 ^ (b - 1) then v mod 2 ^ b else v mod 2 ^ b - 2 ^ b.
Proof.
  intros Hb. unfold _sign_extend. rewrite !Z.shiftl_1_l, pow_pred_ones, Z.land_ones by lia.
  assert (E : 2 ^ b = 2 * 2 ^ (b - 1)).
  { rewrite <- Z.pow_succ_r by lia. f_equal. lia. }
  pose proof (Z.mod_pos_bound v (2 ^ b) ltac:(lia)).
  set (u := v mod 2 ^ b) in *.
  destruct (Z.ltb_spec u (2 ^ (b - 1))).
  - rewrite lxor_pow2_small by lia. lia.
  - replace u with (Z.lxor (u - 2 ^ (b - 1)) (2 ^ (b - 1))) at 1
      by (rewrite lxor_pow2_small by lia; lia).
    rewrite Z.lxor_assoc, Z.lxor_nilpotent, Z.lxor_0_r. lia.
Qed.

(** X6.  For a width [bits >= 1], [_sign_extend value bits] is the unique
    integer in [[-2^(bits-1), 2^(bits-1))] congruent to [value] modulo
    [2^bits]: it lies in that range, differs from [value] by a multiple of
    [2^bits], and leaves values already in that range unchanged. *)
Theorem sign_extend_spec (v b : Z) :
  1 <= b ->
  - 2 ^ (b - 1) <= _sign_extend v b < 2 ^ (b - 1) /\
  (_sign_extend v b - v) mod 2 ^ b = 0 /\
  (- 2 ^ (b - 1) <= v < 2 ^ (b - 1) -> _sign_extend v b = v).
Proof.
  intros Hb. rewrite sign_extend_eq by exact Hb.
  assert (E : 2 ^ b = 2 * 2 ^ (b - 1)).
  { rewrite <- Z.pow_succ_r by lia. f_equal. lia. }
  pose proof (Z.pow_pos_nonneg 2 (b - 1) ltac:(lia) ltac:(lia)).
  pose proof (Z.mod_pos_bound v (2 ^ b) ltac:(lia)).
  pose proof (Z.div_mod v (2 ^ b) ltac:(lia)).
  split; [|split].
  - destruct (Z.ltb_spec (v mod 2 ^ b) (2 ^ (b - 1))); lia.
  - destruct (Z.ltb_spec (v mod 2 ^ b) (2 ^ (b - 1))).
    + replace (v mod 2 ^ b - v) with ((- (v / 2 ^ b)) * 2 ^ b) by lia.
      apply Z.mod_mul. lia.
    + replace (v mod 2 ^ b - 2 ^ b - v) with ((- (v / 2 ^ b) - 1) * 2 ^ b) by lia.
      apply Z.mod_mul. lia.
  - intros Hv. destruct (Z.leb_spec 0 v).
    + rewrite Z.mod_small by lia. destruct (Z.ltb_spec v (2 ^ (b - 1))); lia.
    + assert (Hm : v mod 2 ^ b = v + 2 ^ b).
      { symmetry. apply Z.mod_unique with (-1); lia. }
      rewrite Hm. destruct (Z.ltb_spec (v + 2 ^ b) (2 ^ (b - 1))); lia.
Qed.

Lemma sign_extend_spec_witness :
  _sign_extend 63 6 = -1 /\ _sign_extend (-5) 12 = -5.
Proof.
  split.
  - vm_compute. reflexivity.
  - apply (proj2 (proj2 (sign_extend_spec (-5) 12 ltac:(lia)))). pow_lia.
Defined.

(** X7.  [to_unsigned_bits val width] (for [width >= 0]) accepts exactly
    [0 <= val < 2^width] and returns [val] unchanged, raising [ValueError]
    otherwise; [to_signed_bits val width] (for [width >= 1]) accepts exactly
    [-2^(width-1) <= val < 2^(width-1)] and returns the [width]-bit
    two's-complement pattern [val mod 2^width], raising [ValueError] otherwise. *)
Theorem bits_conversions_spec (v w : Z) :
  (0 <= w -> (0 <= v < 2 ^ w -> to_unsigned_bits v w = Ok v) /\
     (~ (0 <= v < 2 ^ w) -> to_unsigned_bits v w = Err ValueError)) /\
  (1 <= w -> (- 2 ^ (w - 1) <= v < 2 ^ (w - 1) ->
       to_signed_bits v w = Ok (v mod 2 ^ w) /\ 0 <= v mod 2 ^ w < 2 ^ w) /\
     (~ (- 2 ^ (w - 1) <= v < 2 ^ (w - 1)) -> to_signed_bits v w = Err ValueError)).
Proof.
  split; intros Hw; split.
  - apply to_unsigned_bits_ok; lia.
  - intros Hv. unfold to_unsigned_bits.
    destruct (Z.leb_spec 0 v), (Z.ltb_spec v (2 ^ w)); try reflexivity. lia.
  - intros Hv. split; [apply to_signed_bits_ok; lia|].
    apply Z.mod_pos_bound, Z.pow_pos_nonneg; lia.
  - intros Hv. unfold to_signed_bits.
    destruct (Z.leb_spec (- 2 ^ (w - 1)) v), (Z.ltb_spec v (2 ^ (w - 1))); try reflexivity. lia.
Qed.

Lemma bits_conversions_spec_witness :
  to_unsigned_bits 300 8 = Err ValueError /\ to_signed_bits (-1) 6 = Ok 63.
Proof.
  split.
  - apply (proj2 (proj1 (bits_conversions_spec 300 8) ltac:(lia))). pow_lia.
  - apply (proj1 (proj1 (proj2 (bits_conversions_spec (-1) 6) ltac:(lia)) ltac:(pow_lia))).
Defined.

(* ------------------------------------------------------------------ *)
(** ** Router-table cells *)

Lemma int_from_bytes_bound (l : list Z) :
  byte_list l -> 0 <= int_from_bytes l < 256 ^ Z.of_nat (length l).
Proof.
  intros Hl. rewrite <- (rev_involutive l), int_from_bytes_rev, length_rev.
  unfold byte_list in Hl. apply Forall_rev in Hl.
  induction (rev l) as [|x l' IH]; cbn [from_le fold_right length]; [cbn; lia|].
  inversion Hl as [|? ? Hx Hl']; subst. fold (from_le l'). specialize (IH Hl').
  rewrite Nat2Z.inj_succ, Z.pow_succ_r by lia. nia.
Qed.

Lemma decode_two_packets_split (cell : list Z) :
  length cell = 32%nat -> byte_list cell ->
  exists lo up, decode_two_packets_from_cell cell = Ok (lo, up) /\
    0 <= lo < 2 ^ 128 /\ 0 <= up < 2 ^ 128 /\ int_from_bytes cell = up * 2 ^ 128 + lo.
Proof.
  unfold decode_two_packets_from_cell. intros Hl Hb. rewrite Hl. cbn [Nat.eqb negb].
  pose proof (int_from_bytes_bound cell Hb) as Hw. rewrite Hl in Hw.
  change (256 ^ Z.of_nat 32) with (2 ^ 128 * 2 ^ 128) in Hw.
  set (w := int_from_bytes cell) in *.
  rewrite Z.shiftl_1_l, pow_pred_ones, !Z.land_ones, Z.shiftr_div_pow2 by lia.
  assert (Hd : 0 <= w / 2 ^ 128 < 2 ^ 128).
  { split; [apply Z.div_pos; lia|]. apply Z.div_lt_upper_bound; lia. }
  rewrite (Z.mod_small (w / 2 ^ 128)) by lia.
  exists (w mod 2 ^ 128), (w / 2 ^ 128). split; [reflexivity|].
  pose proof (Z.mod_pos_bound w (2 ^ 128) ltac:(lia)).
  pose proof (Z.div_mod w (2 ^ 128) ltac:(lia)). lia.
Qed.

(** X8.  [decode_two_packets_from_cell] raises [ValueError] unless the cell
    has 32 bytes; on a 32-byte cell it splits the big-endian 256-bit word
    into two 128-bit packets [(lower, upper)] with
    [word = upper * 2^128 + lower]. *)
Theorem decode_two_packets_spec (cell : list Z) :
  (length cell <> 32%nat -> decode_two_packets_from_cell cell = Err ValueError) /\
  (length cell = 32%nat -> byte_list cell ->
     exists lo up, decode_two_packets_from_cell cell = Ok (lo, up) /\
       0 <= lo < 2 ^ 128 /\ 0 <= up < 2 ^ 128 /\ int_from_bytes cell = up * 2 ^ 128 + lo).
Proof.
  split; [|exact (decode_two_packets_split cell)].
  intros Hl. unfold decode_two_packets_from_cell.
  destruct (Nat.eqb_spec (length cell) 32); [contradiction|reflexivity].
Qed.

Lemma decode_two_packets_spec_witness :
  decode_two_packets_from_cell (repeat 0 31) = Err ValueError /\
  exists lo up, decode_two_packets_from_cell (repeat 0 15 ++ [1] ++ repeat 0 15 ++ [2])
                = Ok (lo, up) /\ 0 <= lo < 2 ^ 128 /\ 0 <= up < 2 ^ 128.
Proof.
  split.
  - apply (proj1 (decode_two_packets_spec (repeat 0 31))). cbn. discriminate.
  - destruct (proj2 (decode_two_packets_spec (repeat 0 15 ++ [1] ++ repeat 0 15 ++ [2])))
      as (lo & up & E & Hlo & Hup & _).
    + reflexivity.
    + repeat constructor; lia.
    + exists lo, up. auto.
Defined.

Lemma read_cell_ok_inv (m : CoreMemory) (a : Z) (c : list Z) :
  read_cell m a = Ok c -> c = _get_cell_buf m a /\ 0 <= a < num_cells m.
Proof.
  unfold read_cell, _bounds_check_cell.
  destruct (Z.leb_spec 0 a), (Z.ltb_spec a (num_cells m)); cbn; try discriminate.
  intros [= <-]. split; [reflexivity|lia].
Qed.

Lemma zrange_succ (n : Z) : 0 <= n -> zrange (n + 1) = zrange n ++ [n].
Proof.
  intros Hn. rewrite zrange_add by lia. f_equal. change (zrange 1) with [0]. cbn [map].
  now rewrite Z.add_0_r.
Qed.

Lemma parse_rt_loop_ok (m : CoreMemory) (base mn : Z) (k : nat) :
  forall i entries es,
  0 <= i -> i + Z.of_nat k <= (mn + 1) / 2 ->
  entries = map (fun j => from_packet128 (rt_packet_at m base j)) (zrange (Z.min (2 * i) mn)) ->
  parse_rt_loop m base mn i k entries = Ok es ->
  es = map (fun j => from_packet128 (rt_packet_at m base j))
         (zrange (Z.min (2 * (i + Z.of_nat k)) mn)).
Proof.
  induction k as [|k IH]; intros i entries es Hi Hk He Hrun.
  - cbn in Hrun. injection Hrun as <-. rewrite He. f_equal. f_equal. f_equal. lia.
  - cbn [parse_rt_loop] in Hrun.
    destruct (read_cell m (base + i)) as [cell|e] eqn:Ec; cbn [rbind] in Hrun; [|discriminate].
    apply read_cell_ok_inv in Ec as [-> _].
    destruct (decode_two_packets_from_cell (_get_cell_buf m (base + i))) as [[lo up]|e] eqn:Ed;
      cbn [rbind fst snd] in Hrun; [|discriminate].
    pose proof (Z.mul_div_le (mn + 1) 2 ltac:(lia)).
    assert (Hlt : 2 * i + 1 <= mn) by lia.
    replace (Z.min (2 * i) mn) with (2 * i) in He by lia.
    assert (Hlo : rt_packet_at m base (2 * i) = lo).
    { unfold rt_packet_at. rewrite (Z.mul_comm 2 i), Z.div_mul, Z.mod_mul by lia.
      rewrite Ed. reflexivity. }
    assert (Hup : rt_packet_at m base (2 * i + 1) = up).
    { unfold rt_packet_at.
      replace ((2 * i + 1) / 2) with i by (apply Z.div_unique with 1; lia).
      replace ((2 * i + 1) mod 2) with 1 by (apply Z.mod_unique with i; lia).
      rewrite Ed. reflexivity. }
    assert (E1 : entries ++ [from_packet128 lo] =
                 map (fun j => from_packet128 (rt_packet_at m base j)) (zrange (2 * i + 1))).
    { rewrite zrange_succ, map_app, He by lia. cbn [map]. now rewrite Hlo. }
    rewrite E1, length_map, length_zrange in Hrun.
    destruct (Z.ltb_spec (Z.of_nat (Z.to_nat (2 * i + 1))) mn).
    + assert (E2 : map (fun j => from_packet128 (rt_packet_at m base j)) (zrange (2 * i + 1))
                   ++ [from_packet128 up] =
                   map (fun j => from_packet128 (rt_packet_at m base j))
                     (zrange (Z.min (2 * (i + 1)) mn))).
      { replace (Z.min (2 * (i + 1)) mn) with (2 * i + 1 + 1) by lia.
        rewrite (zrange_succ (2 * i + 1)), map_app by lia. cbn [map]. now rewrite Hup. }
      rewrite E2 in Hrun.
      apply IH in Hrun; [rewrite Hrun; f_equal; f_equal; lia | lia | lia | f_equal; f_equal; lia].
    + apply IH in Hrun; [rewrite Hrun; f_equal; f_equal; lia | lia | lia | f_equal; f_equal; lia].
Qed.

Lemma parse_rt_loop_exists (m : CoreMemory) (base mn : Z) (k : nat) :
  forall i entries, cells_wf m -> 0 <= base + i -> base + i + Z.of_nat k <= num_cells m ->
  exists es, parse_rt_loop m base mn i k entries = Ok es.
Proof.
  induction k as [|k IH]; intros i entries Hwf Hi Hk; [eexists; reflexivity|].
  cbn [parse_rt_loop]. rewrite read_cell_range by lia. cbn [rbind].
  destruct (get_cell_buf_wf m (base + i) Hwf) as [Hl Hb].
  destruct (decode_two_packets_split _ Hl Hb) as (lo & up & Ed & _).
  rewrite Ed. cbn [rbind]. apply IH; [exact Hwf|lia|lia].
Qed.

Lemma parse_rt_loop_index_error (m : CoreMemory) (base mn : Z) (k : nat) :
  forall i entries, cells_wf m ->
  (exists j, i <= j < i + Z.of_nat k /\ ~ (0 <= base + j < num_cells m)) ->
  parse_rt_loop m base mn i k entries = Err IndexError.
Proof.
  induction k as [|k IH]; intros i entries Hwf (j & Hj & Hout); [lia|].
  cbn [parse_rt_loop]. destruct (Z.eq_dec j i) as [->|Hne].
  - rewrite read_cell_out by exact Hout. reflexivity.
  - destruct (decide (0 <= base + i < num_cells m)) as [Hin|Hin].
    + rewrite read_cell_range by exact Hin. cbn [rbind].
      destruct (get_cell_buf_wf m (base + i) Hwf) as [Hl Hb].
      destruct (decode_two_packets_split _ Hl Hb) as (lo & up & Ed & _).
      rewrite Ed. cbn [rbind]. apply IH; [exact Hwf|]. exists j. split; [lia|exact Hout].
    + rewrite read_cell_out by exact Hin. reflexivity.
Qed.

(** X9.  [parse_router_table_from_memory mem base message_num] returns [[]]
    when [message_num <= 0]; whenever it succeeds it returns exactly
    [message_num] entries, entry [k] decoded from the lower (even [k]) or
    upper (odd [k]) 128-bit half of cell [base + k/2].  On a memory of
    32-byte cells it succeeds when the [(message_num+1)/2] cells it reads
    are in range, and raises [IndexError] when one of them is not. *)
Theorem parse_router_table_spec (m : CoreMemory) (base mn : Z) :
  (mn <= 0 -> parse_router_table_from_memory m base mn = Ok []) /\
  (forall es, parse_router_table_from_memory m base mn = Ok es ->
     es = map (fun k => from_packet128 (rt_packet_at m base k)) (zrange mn)) /\
  (cells_wf m -> 0 <= base -> base + (mn + 1) / 2 <= num_cells m ->
     exists es, parse_router_table_from_memory m base mn = Ok es) /\
  (cells_wf m -> (exists i, 0 <= i < (mn + 1) / 2 /\ ~ (0 <= base + i < num_cells m)) ->
     parse_router_table_from_memory m base mn = Err IndexError).
Proof.
  unfold parse_router_table_from_memory.
  pose proof (Z.div_mod (mn + 1) 2 ltac:(lia)) as Hdm.
  pose proof (Z.mod_pos_bound (mn + 1) 2 ltac:(lia)) as Hmb.
  assert (Hz : mn <= 0 -> Z.to_nat ((mn + 1) / 2) = 0%nat) by lia.
  split; [|split; [|split]].
  - intros Hmn. rewrite Hz by exact Hmn. cbn. destruct (Z.to_nat mn); reflexivity.
  - intros es Hes. destruct (Z.leb_spec mn 0) as [Hmn|Hmn].
    + rewrite Hz in Hes by exact Hmn. cbn in Hes. injection Hes as <-.
      rewrite zrange_nonpos by exact Hmn. destruct (Z.to_nat mn); reflexivity.
    + destruct (parse_rt_loop m base mn 0 (Z.to_nat ((mn + 1) / 2)) []) as [entries|e] eqn:E;
        cbn [rbind] in Hes; [|discriminate].
      apply parse_rt_loop_ok in E; [|lia|lia|rewrite zrange_nonpos by lia; reflexivity].
      injection Hes as <-. rewrite E.
      replace (Z.min (2 * (0 + Z.of_nat (Z.to_nat ((mn + 1) / 2)))) mn) with mn by lia.
      apply firstn_all2. rewrite length_map, length_zrange. lia.
  - intros Hwf Hb Hend. destruct (Z.leb_spec mn 0) as [Hmn|Hmn].
    + rewrite Hz by exact Hmn. eexists; reflexivity.
    + destruct (parse_rt_loop_exists m base mn (Z.to_nat ((mn + 1) / 2)) 0 [] Hwf
                  ltac:(lia) ltac:(lia)) as [es E].
      rewrite E. eexists; reflexivity.
  - intros Hwf (i & Hi & Hout).
    rewrite (parse_rt_loop_index_error m base mn _ 0 [] Hwf); [reflexivity|].
    exists i. split; [lia|exact Hout].
Qed.

Lemma parse_router_table_spec_witness :
  parse_router_table_from_memory CoreMemory_new 5 (-1) = Ok [] /\
  (exists es, parse_router_table_from_memory CoreMemory_new 0 3 = Ok es /\ length es = 3%nat) /\
  parse_router_table_from_memory CoreMemory_new 24575 4 = Err IndexError.
Proof.
  assert (Hwf : cells_wf CoreMemory_new) by (intros a b Hab; discriminate).
  split; [|split].
  - apply (proj1 (parse_router_table_spec CoreMemory_new 5 (-1))). lia.
  - destruct (proj1 (proj2 (proj2 (parse_router_table_spec CoreMemory_new 0 3))) Hwf
                ltac:(lia) ltac:(vm_compute; discriminate)) as [es E].
    exists es. split; [exact E|].
    rewrite (proj1 (proj2 (parse_router_table_spec CoreMemory_new 0 3)) es E).
    reflexivity.
  - apply (proj2 (proj2 (proj2 (parse_router_table_spec CoreMemory_new 24575 4))) Hwf).
    exists 1. change (num_cells CoreMemory_new) with 24576. change ((4 + 1) / 2) with 2. lia.
Defined.

Lemma le_split_bytes (n : nat) (v : Z) : Forall (fun b => 0 <= b < 256) (le_split n v).
Proof.
  revert v. induction n as [|n IH]; intros v; cbn; constructor; [|apply IH].
  apply Z.mod_pos_bound. lia.
Qed.

Lemma int_to_bytes_32_cell (v : Z) (b : list Z) :
  int_to_bytes 32 v = Ok b -> length b = 32%nat /\ byte_list b.
Proof.
  unfold int_to_bytes. destruct ((0 <=? v) && (v <? 256 ^ Z.of_nat 32)); [|discriminate].
  intros H. assert (Eb : b = rev (le_split 32 v)) by congruence. subst b. split; [now rewrite length_rev, le_split_length|].
  apply Forall_rev, le_split_bytes.
Qed.

Lemma write_rt_loop_frame (n : nat) : forall pkts mem addr m',
  (length pkts <= n)%nat -> write_rt_loop mem addr pkts = Ok m' ->
  num_cells m' = num_cells mem /\
  (forall a, a < addr \/ addr + (Z.of_nat (length pkts) + 1) / 2 <= a ->
     _cells m' !! a = _cells mem !! a) /\
  (forall a, addr <= a < addr + (Z.of_nat (length pkts) + 1) / 2 ->
     exists b, _cells m' !! a = Some b /\ length b = 32%nat /\ byte_list b).
Proof.
  induction n as [|n IH]; intros pkts mem addr m' Hlen Hw.
  - destruct pkts; [|cbn in Hlen; lia]. cbn in Hw. injection Hw as <-.
    split; [reflexivity|]. split; [reflexivity|]. intros a Ha. change ((Z.of_nat (length (@nil Z)) + 1) / 2) with 0 in Ha. lia.
  - destruct pkts as [|low [|up rest]].
    + cbn in Hw. injection Hw as <-. split; [reflexivity|]. split; [reflexivity|].
      intros a Ha. change ((Z.of_nat (length (@nil Z)) + 1) / 2) with 0 in Ha. lia.
    + cbn [write_rt_loop] in Hw.
      destruct (int_to_bytes 32 (Z.lor (Z.shiftl 0 128) low)) as [b|e] eqn:Eb;
        cbn [rbind] in Hw; [|discriminate].
      injection Hw as <-. apply int_to_bytes_32_cell in Eb as [Hl Hb].
      assert (E1 : (Z.of_nat (length [low]) + 1) / 2 = 1) by reflexivity. rewrite E1.
      split; [reflexivity|]. split.
      * intros a Ha. cbn. apply lookup_insert_ne. lia.
      * intros a Ha. exists b. cbn. replace a with addr by lia.
        rewrite lookup_insert_eq. auto.
    + cbn [write_rt_loop] in Hw.
      destruct (int_to_bytes 32 (Z.lor (Z.shiftl up 128) low)) as [b|e] eqn:Eb;
        cbn [rbind] in Hw; [|discriminate].
      apply int_to_bytes_32_cell in Eb as [Hl Hb].
      apply IH in Hw as (Hnc & Hout & Hin); [|cbn in Hlen; lia].
      cbn [num_cells _cells] in Hnc, Hout, Hin.
      assert (Hsz : (Z.of_nat (length (low :: up :: rest)) + 1) / 2 =
                    (Z.of_nat (length rest) + 1) / 2 + 1).
      { cbn [length]. rewrite !Nat2Z.inj_succ.
        replace (Z.succ (Z.succ (Z.of_nat (length rest))) + 1)
          with ((Z.of_nat (length rest) + 1) + 1 * 2) by lia.
        now rewrite Z.div_add by lia. }
      assert (0 <= (Z.of_nat (length rest) + 1) / 2) by (apply Z.div_pos; lia).
      rewrite Hsz. split; [exact Hnc|]. split.
      * intros a Ha. rewrite Hout by lia. apply lookup_insert_ne. lia.
      * intros a Ha. destruct (Z.eq_dec a addr) as [->|Hne].
        -- exists b. rewrite Hout by lia. rewrite lookup_insert_eq. auto.
        -- apply Hin. lia.
Qed.

Lemma write_rt_frame (mem : CoreMemory) (base : Z) (pkts : list Z) (m' : CoreMemory) :
  write_router_table_to_memory mem base pkts = Ok m' ->
  num_cells m' = num_cells mem /\
  (forall a, a < base \/ base + (Z.of_nat (length pkts) + 1) / 2 <= a ->
     _cells m' !! a = _cells mem !! a) /\
  (forall a, base <= a < base + (Z.of_nat (length pkts) + 1) / 2 ->
     exists b, _cells m' !! a = Some b /\ length b = 32%nat /\ byte_list b) /\
  (cells_wf mem -> cells_wf m').
Proof.
  intros Hw. destruct (write_rt_loop_frame (length pkts) pkts mem base m' (le_n _) Hw)
    as (Hnc & Hout & Hin).
  split; [exact Hnc|]. split; [exact Hout|]. split; [exact Hin|].
  intros Hwf a b Hab.
  destruct (decide (base <= a < base + (Z.of_nat (length pkts) + 1) / 2)) as [Hr|Hr].
  - destruct (Hin a Hr) as (b' & E & Hl & Hb). rewrite E in Hab. injection Hab as <-. auto.
  - rewrite Hout in Hab by lia. exact (Hwf a b Hab).
Qed.

(** X10.  A successful [write_router_table_to_memory mem base packets]
    keeps [num_cells], leaves every cell outside
    [[base, base + (len packets + 1)/2)] untouched, stores a 32-byte cell
    at every address of that range (without any bounds check), and so keeps
    every stored cell a 32-byte buffer. *)
Theorem write_router_table_frame (mem : CoreMemory) (base : Z) (pkts : list Z) (m' : CoreMemory) :
  write_router_table_to_memory mem base pkts = Ok m' ->
  num_cells m' = num_cells mem /\
  (forall a, a < base \/ base + (Z.of_nat (length pkts) + 1) / 2 <= a ->
     _cells m' !! a = _cells mem !! a) /\
  (forall a, base <= a < base + (Z.of_nat (length pkts) + 1) / 2 ->
     exists b, _cells m' !! a = Some b /\ length b = 32%nat /\ byte_list b) /\
  (cells_wf mem -> cells_wf m').
Proof. exact (write_rt_frame mem base pkts m'). Qed.

Lemma write_router_table_frame_witness :
  exists m', write_router_table_to_memory CoreMemory_new 30000 [1; 2; 3] = Ok m' /\
    num_cells m' = 24576 /\ _cells m' !! 29999 = None /\
    exists b, _cells m' !! 30001 = Some b /\ length b = 32%nat.
Proof.
  destruct (write_router_table_to_memory CoreMemory_new 30000 [1; 2; 3]) as [m'|e] eqn:E;
    [|vm_compute in E; discriminate].
  destruct (write_router_table_frame _ _ _ _ E) as (Hnc & Hout & Hin & _).
  assert (E2 : (Z.of_nat (length [1; 2; 3]) + 1) / 2 = 2) by reflexivity.
  rewrite E2 in Hout, Hin. exists m'. split; [reflexivity|]. split; [exact Hnc|]. split.
  - rewrite Hout by (left; lia). reflexivity.
  - destruct (Hin 30001 ltac:(lia)) as (b & Eb & Hl & _). eauto.
Defined.

(* ------------------------------------------------------------------ *)
(** ** Router-table packets *)

Lemma sign_extend_range (v b : Z) :
  1 <= b -> - 2 ^ (b - 1) <= _sign_extend v b < 2 ^ (b - 1).
Proof.
  intros Hb. rewrite sign_extend_eq by exact Hb.
  assert (E : 2 ^ b = 2 * 2 ^ (b - 1)).
  { rewrite <- Z.pow_succ_r by lia. f_equal. lia. }
  pose proof (Z.mod_pos_bound v (2 ^ b) ltac:(lia)).
  destruct (Z.ltb_spec (v mod 2 ^ b) (2 ^ (b - 1))); lia.
Qed.

Lemma land_mask_range (x m w : Z) : m = Z.ones w -> 0 <= w -> 0 <= Z.land x m < 2 ^ w.
Proof. intros -> Hw. rewrite Z.land_ones by lia. apply Z.mod_pos_bound, Z.pow_pos_nonneg; lia. Qed.

(** X11.  Every entry [from_packet128] decodes (from any integer) has its
    fields inside the widths of the packet layout, and its [group_size]
    lies in [[1, 128]]. *)
Theorem from_packet128_ranges (p : Z) :
  rte_fields_in_range (from_packet128 p) /\ 1 <= group_size (from_packet128 p) <= 128.
Proof.
  assert (H1 : forall k, 0 <= Z.land (Z.shiftr p k) 1 < 2) by
    (intros k; apply (land_mask_range _ 1 1); [reflexivity|lia]).
  assert (Hr : 0 <= Z.land (Z.shiftr p 56) 127 < 128) by
    (apply (land_mask_range _ 127 7); [reflexivity|lia]).
  split.
  - unfold rte_fields_in_range, from_packet128; cbn [rte_s rte_t rte_e rte_q rte_y rte_x
      rte_a0 rte_cnt rte_a_offset rte_const_raw rte_tag_id].
    pose proof (sign_extend_range (Z.land (Z.shiftr p 6) 63) 6 ltac:(lia)).
    pose proof (sign_extend_range (Z.land (Z.shiftr p 12) 63) 6 ltac:(lia)).
    pose proof (sign_extend_range (Z.land (Z.shiftr p 44) 4095) 12 ltac:(lia)).
    pose proof (land_mask_range (Z.shiftr p 18) 16383 14 eq_refl ltac:(lia)).
    pose proof (land_mask_range (Z.shiftr p 32) 4095 12 eq_refl ltac:(lia)).
    pose proof (land_mask_range (Z.shiftr p 64) 255 8 eq_refl ltac:(lia)).
    pose proof (H1 0); pose proof (H1 1); pose proof (H1 2); pose proof (H1 3).
    repeat split; pow_lia.
  - unfold group_size, from_packet128; cbn [rte_const_raw].
    destruct (Z.eqb_spec (Z.land (Z.shiftr p 56) 127) 0); lia.
Qed.

Lemma to_twos_sign_extend (x m w : Z) :
  m = Z.ones w -> 1 <= w -> to_twos (_sign_extend (Z.land x m) w) w = Z.land x m.
Proof.
  intros Hm Hw. pose proof (land_mask_range x m w Hm ltac:(lia)) as Hu.
  rewrite to_twos_mod, sign_extend_eq by lia.
  set (u := Z.land x m) in *. rewrite (Z.mod_small u) by lia.
  destruct (Z.ltb_spec u (2 ^ (w - 1))).
  - apply Z.mod_small. lia.
  - symmetry. apply Z.mod_unique with (-1); lia.
Qed.

Lemma b2z_land1 (x : Z) : (if Z.land x 1 =? 1 then 1 else 0) = Z.land x 1.
Proof.
  pose proof (land_mask_range x 1 1 eq_refl ltac:(lia)) as H.
  destruct (Z.eqb_spec (Z.land x 1) 1); cbn in H; lia.
Qed.

Lemma land_land_same (x m : Z) : Z.land (Z.land x m) m = Z.land x m.
Proof. now rewrite <- Z.land_assoc, Z.land_diag. Qed.

Lemma testbit_field (p k m n : Z) :
  0 <= k -> 0 <= n ->
  Z.testbit (Z.shiftl (Z.land (Z.shiftr p k) m) k) n
  = (k <=? n) && Z.testbit m (n - k) && Z.testbit p n.
Proof.
  intros Hk Hn. destruct (Z.leb_spec k n).
  - rewrite Z.shiftl_spec, Z.land_spec, Z.shiftr_spec by lia.
    replace (n - k + k) with n by lia. cbn. apply andb_comm.
  - rewrite Z.shiftl_spec by lia. apply Z.testbit_neg_r. lia.
Qed.

(** X12.  Re-encoding a decoded packet keeps exactly the bits the packet
    layout defines: [encode_packet_from_fields (from_packet128 p)] is [p]
    with bits 0-3 and 6-72 kept and every other bit (4, 5 and 73 upwards)
    cleared. *)
Theorem packet_reencode_mask (p : Z) :
  encode_packet_from_fields (from_packet128 p) = Z.land p (2 ^ 73 - 49).
Proof.
  unfold encode_packet_from_fields, from_packet128; cbv zeta;
    cbn [rte_s rte_t rte_e rte_q rte_y rte_x rte_a0 rte_cnt rte_a_offset rte_const_raw
      rte_handshake rte_tag_id rte_en].
  rewrite (to_twos_sign_extend _ 63 6), (to_twos_sign_extend _ 63 6),
    (to_twos_sign_extend _ 4095 12) by (reflexivity || lia).
  rewrite (b2z_land1 (Z.shiftr p 63)), (b2z_land1 (Z.shiftr p 72)).
  repeat rewrite land_land_same. rewrite Z.lor_0_l.
  apply Z.bits_inj'. intros n Hn.
  rewrite Z.shiftl_1_l, pow_pred_ones, !Z.land_spec, Z.testbit_ones by lia.
  rewrite !Z.lor_spec, !testbit_field by lia.
  destruct (Z.ltb_spec n 73) as [Hlt|Hge].
  - assert (Hi : exists i, n = Z.of_nat i /\ (i < 73)%nat) by (exists (Z.to_nat n); lia).
    destruct Hi as (i & -> & Hi). clear Hn Hlt.
    do 73 (destruct i as [|i]; [cbn; destruct (Z.testbit p _); reflexivity|]). lia.
  - rewrite (testbit_small (2 ^ 73 - 49) 73 n) by pow_lia.
    rewrite (testbit_small 1 1 (n - 0)), (testbit_small 1 1 (n - 1)),
      (testbit_small 1 1 (n - 2)), (testbit_small 1 1 (n - 3)),
      (testbit_small 63 6 (n - 6)), (testbit_small 63 6 (n - 12)),
      (testbit_small 16383 14 (n - 18)), (testbit_small 4095 12 (n - 32)),
      (testbit_small 4095 12 (n - 44)), (testbit_small 127 7 (n - 56)),
      (testbit_small 1 1 (n - 63)), (testbit_small 255 8 (n - 64)),
      (testbit_small 1 1 (n - 72)) by pow_lia.
    rewrite !andb_false_r, !andb_false_l. reflexivity.
Qed.

(* ------------------------------------------------------------------ *)
(** ** Seeding a core's memory *)

Lemma encode_packet_bound (f : RouterTableEntry) : 0 <= encode_packet_from_fields f < 2 ^ 128.
Proof.
  unfold encode_packet_from_fields; cbv zeta.
  rewrite Z.shiftl_1_l, pow_pred_ones, Z.land_ones by lia.
  apply Z.mod_pos_bound. lia.
Qed.

Lemma seed_messages_ok (ops : list PrimOp) : forall m,
  exists m', seed_messages m ops = Ok m' /\ num_cells m' = num_cells m /\
    (cells_wf m -> cells_wf m').
Proof.
  induction ops as [|op ops IH]; intros m; [exists m; auto|].
  cbn [seed_messages].
  destruct (op_send op) as [sp|]; [|apply IH].
  destruct (messages_truthy sp) as [msgs|]; [|apply IH].
  assert (Hr : Forall (fun p => 0 <= p < 2 ^ 128) (map encode_packet_from_fields msgs)).
  { apply Forall_forall. intros p Hp. apply list_elem_of_In, in_map_iff in Hp as (f & <- & _).
    apply encode_packet_bound. }
  destruct (write_rt_loop_spec _ _ m (sp_para_addr sp) (le_n _) Hr) as (m1 & W & _).
  unfold write_router_table_to_memory. rewrite W. cbn [rbind].
  destruct (write_rt_frame m (sp_para_addr sp) _ m1 W) as (Hnc & _ & _ & Hwf).
  destruct (IH m1) as (m' & E & Hnc' & Hwf'). exists m'. split; [exact E|]. split; [lia|].
  auto.
Qed.

(** X13.  The third seeding step, which writes the inline router-table
    messages of every send op at its [para_addr], never raises: every packet
    [encode_packet_from_fields] builds is below [2 ** 128]. It keeps the
    number of cells and well-formed cells. *)
Theorem seed_messages_total (m : CoreMemory) (ops : list PrimOp) :
  exists m', seed_messages m ops = Ok m' /\ num_cells m' = num_cells m /\
    (cells_wf m -> cells_wf m').
Proof. apply seed_messages_ok. Qed.

(* ------------------------------------------------------------------ *)
(** ** The guards of [encode_prim_cell] *)

Lemma setslice_inv (x i j v y : Z) :
  setslice x i j v = Ok y -> - 2 ^ (i - j) <= v < 2 ^ (i - j) /\ y = set_slice x i j v.
Proof.
  unfold setslice. intros Hs.
  destruct (Z.geb_spec v (2 ^ (i - j))), (Z.ltb_spec v (- 2 ^ (i - j)));
    cbn in Hs; try discriminate. injection Hs as <-. split; [lia|reflexivity].
Qed.

Lemma setbit_inv (x i v y : Z) :
  setbit x i v = Ok y -> 0 <= i -> 0 <= v <= 1 /\ y = set_slice x (i + 1) i v.
Proof.
  intros H Hi. assert (Hv : 0 <= v <= 1).
  { unfold setbit in H. destruct (Z.eqb_spec v 1); [lia|].
    destruct (Z.eqb_spec v 0); [lia|discriminate]. }
  rewrite setbit_as_slice in H by lia. injection H as <-. auto.
Qed.

Lemma to_unsigned_inv (v w d : Z) :
  to_unsigned_bits v w = Ok d -> 0 <= w -> 0 <= v < 2 ^ w /\ d = v.
Proof.
  intros H Hw. assert (Hv : 0 <= v < 2 ^ w).
  { unfold to_unsigned_bits in H.
    destruct (Z.leb_spec 0 v), (Z.ltb_spec v (2 ^ w)); cbn in H; try discriminate; lia. }
  rewrite to_unsigned_bits_ok in H by lia. injection H as <-. auto.
Qed.

Lemma to_signed_inv (v w d : Z) :
  to_signed_bits v w = Ok d -> 1 <= w ->
  - 2 ^ (w - 1) <= v < 2 ^ (w - 1) /\ d = v mod 2 ^ w.
Proof.
  intros H Hw. assert (Hv : - 2 ^ (w - 1) <= v < 2 ^ (w - 1)).
  { unfold to_signed_bits in H.
    destruct (Z.leb_spec (- 2 ^ (w - 1)) v), (Z.ltb_spec v (2 ^ (w - 1)));
      cbn in H; try discriminate; lia. }
  rewrite to_signed_bits_ok in H by lia. injection H as <-. auto.
Qed.

Ltac peel H :=
  repeat match type of H with
  | rbind ?x _ = _ =>
      let E := fresh "E" in destruct x eqn:E; cbn [rbind] in H; [|try discriminate]
  end.

Ltac enc_inv :=
  repeat match goal with
  | E : setslice _ _ _ _ = Ok _ |- _ => apply setslice_inv in E as [? E]; subst
  | E : setbit _ _ _ = Ok _ |- _ => apply setbit_inv in E as [? E]; [subst|lia]
  | E : to_unsigned_bits _ _ = Ok _ |- _ => apply to_unsigned_inv in E as [? E]; [subst|lia]
  | E : to_signed_bits _ _ = Ok _ |- _ => apply to_signed_inv in E as [? E]; [subst|lia]
  end.

Ltac pow_norm :=
  repeat match goal with
  | H : context [2 ^ ?e] |- _ =>
      let v := eval vm_compute in (2 ^ e) in
      lazymatch v with 2 ^ _ => fail | _ => change (2 ^ e) with v in H end
  end.

Lemma send_half_inv (pic r : Z) (sp : SendPrim) :
  encode_send_half pic sp = Ok r ->
  (0 <= sp_deps sp < 256 /\ 0 <= sp_cell_or_neuron sp <= 1 /\ sp_message_num sp <= 256 /\
   0 <= sp_send_addr sp < 65536 /\ 0 <= sp_para_addr sp < 65536) /\
  (0 <= pic < 2 ^ 256 -> 0 <= r < 2 ^ 256).
Proof.
  unfold encode_send_half. intros H. peel H.
  enc_inv. pow_norm. split; [lia|]. intros Hp.
  repeat (apply set_slice_bound; [|lia|lia|pow_lia]). exact Hp.
Qed.

Lemma recv_half_inv (pic r : Z) (rp : RecvPrim) :
  encode_recv_half pic rp = Ok r ->
  recv_fields_in_range rp /\ (0 <= pic < 2 ^ 256 -> 0 <= r < 2 ^ 256).
Proof.
  unfold encode_recv_half. intros H. peel H.
  enc_inv. pow_norm. split; [unfold recv_fields_in_range; lia|]. intros Hp.
  repeat (apply set_slice_bound; [|lia|lia|
    first [pow_lia | apply Z.mod_pos_bound; reflexivity]]). exact Hp.
Qed.

Lemma setslice_err (x i j v : Z) (e : exc) : setslice x i j v = Err e -> e = ValueError.
Proof. unfold setslice. destruct (_ || _); congruence. Qed.

Lemma setbit_err (x i v : Z) (e : exc) : setbit x i v = Err e -> e = ValueError.
Proof. unfold setbit. destruct (v =? 1), (v =? 0); congruence. Qed.

Lemma to_unsigned_err (v w : Z) (e : exc) : to_unsigned_bits v w = Err e -> e = ValueError.
Proof. unfold to_unsigned_bits. destruct (negb _); congruence. Qed.

Lemma to_signed_err (v w : Z) (e : exc) : to_signed_bits v w = Err e -> e = ValueError.
Proof. unfold to_signed_bits. destruct (negb _); congruence. Qed.

Ltac peel_err H :=
  repeat match type of H with
  | rbind ?x _ = Err _ =>
      let E := fresh "E" in destruct x eqn:E; cbn [rbind] in H; [|injection H as <-]
  end;
  first [ eapply setslice_err; eassumption | eapply setbit_err; eassumption
        | eapply to_unsigned_err; eassumption | eapply to_signed_err; eassumption ].

Lemma send_half_err (pic : Z) (sp : SendPrim) (e : exc) :
  encode_send_half pic sp = Err e -> e = ValueError.
Proof. unfold encode_send_half. intros H. peel_err H. Qed.

Lemma recv_half_err (pic : Z) (rp : RecvPrim) (e : exc) :
  encode_recv_half pic rp = Err e -> e = ValueError.
Proof. unfold encode_recv_half. intros H. peel_err H. Qed.

Lemma send_opt_inv (o : option SendPrim) :
  (forall r, match o with Some sp => encode_send_half 0 sp | None => Ok 0 end = Ok r ->
     0 <= r < 2 ^ 256) /\
  (forall e, match o with Some sp => encode_send_half 0 sp | None => Ok 0 end = Err e ->
     e = ValueError).
Proof.
  destruct o as [sp|]; split.
  - intros r H. apply (proj2 (send_half_inv 0 r sp H)). pow_lia.
  - apply send_half_err.
  - intros r [= <-]. pow_lia.
  - discriminate.
Qed.

Lemma recv_opt_inv (o : option RecvPrim) (pic : Z) :
  (forall r, match o with Some rp => encode_recv_half pic rp | None => Ok pic end = Ok r ->
     0 <= pic < 2 ^ 256 -> 0 <= r < 2 ^ 256) /\
  (forall e, match o with Some rp => encode_recv_half pic rp | None => Ok pic end = Err e ->
     e = ValueError).
Proof.
  destruct o as [rp|]; split.
  - intros r H. apply (proj2 (recv_half_inv pic r rp H)).
  - apply recv_half_err.
  - intros r [= <-]. auto.
  - discriminate.
Qed.

Lemma encode_prim_cell_inv (op : PrimOp) :
  (forall e, encode_prim_cell op = Err e -> e = ValueError) /\
  (forall cell, encode_prim_cell op = Ok cell ->
     length cell = 32%nat /\ byte_list cell /\
     (kind op <> KStop ->
        (forall sp, op_send op = Some sp ->
           0 <= sp_deps sp < 256 /\ 0 <= sp_cell_or_neuron sp <= 1 /\
           sp_message_num sp <= 256 /\ 0 <= sp_send_addr sp < 65536 /\
           0 <= sp_para_addr sp < 65536) /\
        (forall rp, op_recv op = Some rp -> recv_fields_in_range rp))).
Proof.
  split.
  - intros e. unfold encode_prim_cell. destruct (kind op).
    3: { intros H. vm_compute in H. discriminate. }
    all: destruct (send_opt_inv (op_send op)) as [S1 S2];
      destruct (match op_send op with Some sp => encode_send_half 0 sp | None => Ok 0 end)
        as [r1|e1] eqn:E1; cbn [rbind]; [|intros [= <-]; exact (S2 _ eq_refl)];
      destruct (recv_opt_inv (op_recv op) r1) as [R1 R2];
      destruct (match op_recv op with Some rp => encode_recv_half r1 rp | None => Ok r1 end)
        as [r2|e2] eqn:E2; cbn [rbind]; [|intros [= <-]; exact (R2 _ eq_refl)];
      destruct (int_to_bytes_ok r2 (R1 r2 eq_refl (S1 r1 eq_refl))) as (-> & _);
      discriminate.
  - intros cell. unfold encode_prim_cell. destruct (kind op) eqn:Ek.
    3: { intros H. peel H. split; [|split]; try (apply (int_to_bytes_32_cell _ _ H)).
         congruence. }
    all: intros H; peel H;
      split; [apply (int_to_bytes_32_cell _ _ H)|]; split; [apply (int_to_bytes_32_cell _ _ H)|];
      intros _;
      destruct (op_send op) as [sp|] eqn:Es;
      destruct (op_recv op) as [rp|] eqn:Er; try discriminate;
      (split; intros ? [= <-]);
      first [ eapply send_half_inv; eassumption | eapply recv_half_inv; eassumption ].
Qed.

(** X14.  [encode_prim_cell] only ever raises [ValueError] (never
    [OverflowError] from [to_bytes]), and a cell it returns is 32 bytes. For a
    send or recv op, a successful encoding implies the range checks of every
    field it writes: send [deps] below 256, [cell_or_neuron] 0 or 1,
    [message_num] at most 256 (zero and negative counts are accepted),
    [send_addr] and [para_addr] below 65536, and every recv field in range. *)
Theorem encode_prim_cell_guards (op : PrimOp) :
  (forall e, encode_prim_cell op = Err e -> e = ValueError) /\
  (forall cell, encode_prim_cell op = Ok cell ->
     length cell = 32%nat /\ byte_list cell /\
     (kind op <> KStop ->
        (forall sp, op_send op = Some sp ->
           0 <= sp_deps sp < 256 /\ 0 <= sp_cell_or_neuron sp <= 1 /\
           sp_message_num sp <= 256 /\ 0 <= sp_send_addr sp < 65536 /\
           0 <= sp_para_addr sp < 65536) /\
        (forall rp, op_recv op = Some rp -> recv_fields_in_range rp))).
Proof. exact (encode_prim_cell_inv op). Qed.

Lemma decode_stop_no_recv (c : list Z) (op : PrimOp) :
  decode_prim_cell c = Ok (Some op) -> kind op = KStop -> op_recv op = None.
Proof.
  unfold decode_prim_cell. intros H Hk.
  destruct (negb _); [discriminate|].
  destruct (_ =? 0); [discriminate|].
  destruct (_ =? PRIM_KIND_STOP); [injection H as <-; reflexivity|].
  destruct (negb _ && negb _); [discriminate|].
  destruct (Z.testbit (int_from_bytes c) 4); injection H as <-; cbn [kind] in Hk; discriminate.
Qed.

(** X15.  The decoder returns [mc_x] and [mc_y] as the raw 6-bit fields
    (0..63), while the encoder requires them in [-32, 32). So an op that
    [decode_prim_cell] returns with a recv half whose [mc_x] or [mc_y] is 32 or
    more (a negative coordinate when it was encoded) is rejected by
    [encode_prim_cell] with [ValueError]. *)
Theorem decoded_recv_not_reencodable (c : list Z) (op : PrimOp) (rp : RecvPrim)
  (Hd : decode_prim_cell c = Ok (Some op)) (Hr : op_recv op = Some rp)
  (Hm : 32 <= rp_mc_x rp \/ 32 <= rp_mc_y rp) :
  encode_prim_cell op = Err ValueError.
Proof.
  destruct (encode_prim_cell_inv op) as [Herr Hok].
  destruct (encode_prim_cell op) as [cell|e] eqn:E.
  - exfalso. destruct (Hok cell eq_refl) as (_ & _ & Hk).
    assert (Hns : kind op <> KStop).
    { intros Hs. rewrite (decode_stop_no_recv c op Hd Hs) in Hr. discriminate. }
    destruct (Hk Hns) as [_ Hrp]. specialize (Hrp rp Hr).
    unfold recv_fields_in_range in Hrp. lia.
  - f_equal. apply Herr. reflexivity.
Qed.

Lemma decoded_recv_not_reencodable_witness :
  decode_prim_cell (rev (le_split 32 (Z.lor (Z.shiftl 63 192) 32))) =
    Ok (Some (mkPrimOp KRecv None (Some (mkRecvPrim 0 0 0 0 0 0 0 63 false)) None None)) /\
  encode_prim_cell (mkPrimOp KRecv None (Some (mkRecvPrim 0 0 0 0 0 0 0 63 false)) None None)
    = Err ValueError.
Proof.
  split; [vm_compute; reflexivity|].
  apply (decoded_recv_not_reencodable (rev (le_split 32 (Z.lor (Z.shiftl 63 192) 32))) _
           (mkRecvPrim 0 0 0 0 0 0 0 63 false)); [vm_compute; reflexivity|reflexivity|cbn; lia].
Defined.

(* ------------------------------------------------------------------ *)
(** ** The three seeding passes *)

Lemma cells_wf_insert_encoded (m : CoreMemory) (a : Z) (op : PrimOp) (c : list Z) :
  encode_prim_cell op = Ok c -> cells_wf m ->
  cells_wf (mkCoreMemory (num_cells m) (<[a := c]> (_cells m))).
Proof.
  intros E Hwf. destruct (proj2 (encode_prim_cell_inv op) c E) as (Hl & Hb & _).
  unfold cells_wf. cbn [_cells]. apply map_Forall_insert_2; auto.
Qed.

Lemma seed_explicit_spec (ops : list PrimOp) : forall m occ,
  (forall r, seed_explicit m occ ops = Ok r ->
     num_cells r.1 = num_cells m /\ (cells_wf m -> cells_wf r.1)) /\
  (forall e, seed_explicit m occ ops = Err e -> e = ValueError) /\
  ((forall op, In op ops -> exists c, encode_prim_cell op = Ok c) ->
     exists r, seed_explicit m occ ops = Ok r).
Proof.
  induction ops as [|op ops IH]; intros m occ; cbn [seed_explicit].
  - split; [intros r [= <-]; auto|]. split; [discriminate|]. intros _. eauto.
  - destruct (mem_addr op) as [a|]; [|destruct (IH m occ) as (H1 & H2 & H3);
      split; [exact H1|]; split; [exact H2|]; intros Hall; apply H3; intros o Ho; apply Hall; right; exact Ho].
    destruct (encode_prim_cell op) as [c|e0] eqn:E; cbn [rbind].
    + destruct (IH (mkCoreMemory (num_cells m) (<[a:=c]> (_cells m))) ({[a]} ∪ occ))
        as (H1 & H2 & H3).
      split; [|split; [exact H2|]].
      * intros r Hr. destruct (H1 r Hr) as [Hn Hw]. cbn [num_cells] in Hn.
        split; [exact Hn|]. intros Hwf. apply Hw. eapply cells_wf_insert_encoded; eauto.
      * intros Hall. apply H3. intros o Ho. apply Hall. right. exact Ho.
    + split; [discriminate|]. split.
      * intros e [= <-]. exact (proj1 (encode_prim_cell_inv op) e0 E).
      * intros Hall. destruct (Hall op (or_introl eq_refl)) as [c Hc]. congruence.
Qed.

Lemma seed_sequential_spec (ops : list PrimOp) : forall m occ n,
  (forall m', seed_sequential m occ n ops = Ok m' ->
     num_cells m' = num_cells m /\ (cells_wf m -> cells_wf m')) /\
  (forall e, seed_sequential m occ n ops = Err e -> e = ValueError) /\
  ((forall op, In op ops -> exists c, encode_prim_cell op = Ok c) ->
     exists m', seed_sequential m occ n ops = Ok m').
Proof.
  induction ops as [|op ops IH]; intros m occ n; cbn [seed_sequential].
  - split; [intros r [= <-]; auto|]. split; [discriminate|]. intros _. eauto.
  - destruct (mem_addr op) as [a|]; [destruct (IH m occ n) as (H1 & H2 & H3);
      split; [exact H1|]; split; [exact H2|]; intros Hall; apply H3; intros o Ho; apply Hall; right; exact Ho|].
    set (n' := skip_occupied _ occ n (num_cells m)).
    destruct (n' >=? num_cells m).
    { split; [intros r [= <-]; auto|]. split; [discriminate|]. intros _. eauto. }
    destruct (encode_prim_cell op) as [c|e0] eqn:E; cbn [rbind].
    + destruct (IH (mkCoreMemory (num_cells m) (<[n':=c]> (_cells m))) ({[n']} ∪ occ) (n' + 1))
        as (H1 & H2 & H3).
      split; [|split; [exact H2|]].
      * intros r Hr. destruct (H1 r Hr) as [Hn Hw]. cbn [num_cells] in Hn.
        split; [exact Hn|]. intros Hwf. apply Hw. eapply cells_wf_insert_encoded; eauto.
      * intros Hall. apply H3. intros o Ho. apply Hall. right. exact Ho.
    + split; [discriminate|]. split.
      * intros e [= <-]. exact (proj1 (encode_prim_cell_inv op) e0 E).
      * intros Hall. destruct (Hall op (or_introl eq_refl)) as [c Hc]. congruence.
Qed.

Lemma seed_config_gen (m : CoreMemory) (cfg : CoreConfig) :
  (forall m', _seed_config_into_memory m cfg = Ok m' ->
     num_cells m' = num_cells m /\ (cells_wf m -> cells_wf m')) /\
  (forall e, _seed_config_into_memory m cfg = Err e -> e = ValueError) /\
  ((forall op, In op (cfg_prim_queue cfg) -> exists c, encode_prim_cell op = Ok c) ->
     exists m', _seed_config_into_memory m cfg = Ok m').
Proof.
  unfold _seed_config_into_memory.
  set (occ := dom _).
  destruct (seed_explicit_spec (cfg_prim_queue cfg) m occ) as (E1 & E2 & E3).
  destruct (seed_explicit m occ (cfg_prim_queue cfg)) as [[m1 occ1]|e1] eqn:S1; cbn [rbind].
  - destruct (E1 _ eq_refl) as [Hn1 Hw1]. cbn [fst] in Hn1, Hw1.
    destruct (seed_sequential_spec (cfg_prim_queue cfg) m1 occ1 0) as (F1 & F2 & F3).
    cbn [fst snd].
    destruct (seed_sequential m1 occ1 0 (cfg_prim_queue cfg)) as [m2|e2] eqn:S2; cbn [rbind].
    + destruct (F1 _ eq_refl) as [Hn2 Hw2].
      destruct (seed_messages_ok (cfg_prim_queue cfg) m2) as (m3 & -> & Hn3 & Hw3).
      split; [|split; [discriminate|eauto]].
      intros m' [= <-]. split; [lia|auto].
    + split; [discriminate|]. split; [intros e [= <-]; exact (F2 e2 eq_refl)|].
      intros Hall. destruct (F3 Hall) as [x Hx]. discriminate.
  - split; [discriminate|]. split; [intros e [= <-]; exact (E2 e1 eq_refl)|].
    intros Hall. destruct (E3 Hall) as [x Hx]. discriminate.
Qed.

(** X16.  [_seed_config_into_memory] keeps the number of cells and
    well-formed (32-byte) cells; the only exception it can raise is the
    [ValueError] of [encode_prim_cell]; and when every op of the queue can be
    encoded it succeeds (the message pass never fails). *)
Theorem seed_config_spec (m : CoreMemory) (cfg : CoreConfig) :
  (forall m', _seed_config_into_memory m cfg = Ok m' ->
     num_cells m' = num_cells m /\ (cells_wf m -> cells_wf m')) /\
  (forall e, _seed_config_into_memory m cfg = Err e -> e = ValueError) /\
  ((forall op, In op (cfg_prim_queue cfg) -> exists c, encode_prim_cell op = Ok c) ->
     exists m', _seed_config_into_memory m cfg = Ok m').
Proof. exact (seed_config_gen m cfg). Qed.

Lemma skip_occupied_spec (fuel : nat) (occ : gset Z) : forall n nc,
  nc - n <= Z.of_nat fuel ->
  n <= skip_occupied fuel occ n nc /\
  (skip_occupied fuel occ n nc < nc -> skip_occupied fuel occ n nc ∉ occ).
Proof.
  induction fuel as [|fuel IH]; intros n nc Hf; cbn [skip_occupied].
  - split; lia.
  - destruct (bool_decide (n ∈ occ)) eqn:Eb; destruct (Z.ltb_spec n nc); cbn [andb].
    + destruct (IH (n + 1) nc ltac:(lia)) as [H1 H2]. split; [lia|exact H2].
    + split; lia.
    + split; [lia|]. intros _. apply bool_decide_eq_false in Eb. exact Eb.
    + split; lia.
Qed.

Lemma seed_sequential_frame_gen (ops : list PrimOp) : forall m occ n m',
  seed_sequential m occ n ops = Ok m' ->
  (forall a, a ∈ occ \/ a < n \/ num_cells m <= a -> _cells m' !! a = _cells m !! a) /\
  (forall a c, _cells m' !! a = Some c -> _cells m' !! a <> _cells m !! a ->
     exists op, In op ops /\ mem_addr op = None /\ encode_prim_cell op = Ok c).
Proof.
  induction ops as [|op ops IH]; intros m occ n m' H; cbn [seed_sequential] in H.
  - injection H as <-. split; [auto|]. intros a c _ Hne. congruence.
  - destruct (mem_addr op) as [b|] eqn:Ea.
    { destruct (IH m occ n m' H) as [H1 H2]. split; [exact H1|].
      intros a c Hc Hne. destruct (H2 a c Hc Hne) as (o & ? & ? & ?). exists o. split; [right|]; auto. }
    set (n' := skip_occupied _ occ n (num_cells m)) in H.
    destruct (skip_occupied_spec (Z.to_nat (num_cells m - n)) occ n (num_cells m)
      ltac:(lia)) as [Hge Hno]. fold n' in Hge, Hno.
    destruct (Z.geb_spec n' (num_cells m)).
    { injection H as <-. split; [auto|]. intros a c _ Hne. congruence. }
    specialize (Hno ltac:(lia)).
    destruct (encode_prim_cell op) as [c0|e0] eqn:E; cbn [rbind] in H; [|discriminate].
    destruct (IH _ _ _ _ H) as [H1 H2]. cbn [num_cells _cells] in H1, H2.
    split.
    + intros a Ha. rewrite H1 by (rewrite elem_of_union; destruct Ha as [Ha|[Ha|Ha]]; [left; right; exact Ha|right; left; lia|right; right; lia]).
      apply lookup_insert_ne. intros <-. destruct Ha as [Ha|[Ha|Ha]]; [tauto|lia|lia].
    + intros a c Hc Hne.
      destruct (decide (_cells m' !! a = <[n':=c0]> (_cells m) !! a)) as [Heq|Hd].
      * destruct (decide (a = n')) as [->|Hna].
        -- rewrite lookup_insert_eq in Heq. rewrite Hc in Heq. injection Heq as ->.
           exists op. split; [left; reflexivity|]. auto.
        -- rewrite lookup_insert_ne in Heq by congruence. congruence.
      * destruct (H2 a c Hc Hd) as (o & ? & ? & ?). exists o. split; [right|]; auto.
Qed.

(** X17.  The second seeding pass, which places the ops without [mem_addr]
    one after the other from [next_addr], never changes a cell that is in
    [occupied] (non-zero init data and explicitly placed ops), below the start
    address, or at or above [num_cells]; and every cell it does change holds
    the encoding of one of the queue's ops without [mem_addr]. *)
Theorem seed_sequential_frame (ops : list PrimOp) (m : CoreMemory) (occ : gset Z) (n : Z)
  (m' : CoreMemory) (H : seed_sequential m occ n ops = Ok m') :
  (forall a, a ∈ occ \/ a < n \/ num_cells m <= a -> _cells m' !! a = _cells m !! a) /\
  (forall a c, _cells m' !! a = Some c -> _cells m' !! a <> _cells m !! a ->
     exists op, In op ops /\ mem_addr op = None /\ encode_prim_cell op = Ok c).
Proof. exact (seed_sequential_frame_gen ops m occ n m' H). Qed.

Lemma seed_sequential_frame_witness :
  exists m', seed_sequential CoreMemory_new {[0]} 0 [stop_op] = Ok m' /\
    _cells m' !! 0 = None.
Proof.
  assert (H : seed_sequential CoreMemory_new {[0]} 0 [stop_op] =
    Ok (mkCoreMemory 24576 {[1 := rev (le_split 32 (Z.shiftl 3 4))]})) by (vm_compute; reflexivity).
  eexists. split; [exact H|].
  rewrite (proj1 (seed_sequential_frame _ _ _ _ _ H) 0) by (left; set_solver).
  reflexivity.
Defined.

(* ------------------------------------------------------------------ *)
(** ** Loading the init file *)

Lemma load_init_gen (lines : list (Z * list Z)) : forall m,
  let m' := load_init_if_any m (Some lines) in
  num_cells m' = num_cells m /\
  (forall a, a < 0 \/ num_cells m <= a \/ ~ In a (map fst lines) ->
     _cells m' !! a = _cells m !! a) /\
  (Forall (fun l => length l.2 = 32%nat /\ byte_list l.2) lines -> cells_wf m -> cells_wf m').
Proof.
  unfold load_init_if_any.
  induction lines as [|[b d] lines IH]; intros m; cbn [fold_left].
  - split; [reflexivity|]. split; [auto|]. auto.
  - destruct (Z.ltb_spec b 0), (Z.geb_spec b (num_cells m)); cbn [orb];
      try (destruct (IH m) as (H1 & H2 & H3); split; [exact H1|]; split;
        [intros a Ha; apply H2; cbn [map In] in Ha; tauto
        |intros Hf; apply H3; inversion Hf; assumption]).
    destruct (IH (mkCoreMemory (num_cells m) (<[b:=d]> (_cells m)))) as (H1 & H2 & H3).
    cbn [num_cells _cells] in H1, H2, H3. split; [exact H1|]. split.
    + intros a Ha. rewrite H2 by (cbn [map In] in Ha; tauto).
      apply lookup_insert_ne. intros <-.
      destruct Ha as [?|[?|Hn]]; [lia|lia|apply Hn; left; reflexivity].
    + intros Hf Hwf. apply Forall_cons in Hf as [[Hl Hb] Hf]. apply H3; [exact Hf|].
      unfold cells_wf. cbn [_cells]. apply map_Forall_insert_2; auto.
Qed.

(** X18.  [load_from_inputs_file] keeps the number of cells; a cell whose
    address is negative, at or above [num_cells], or on no line of the file
    keeps its old content; an in-range address holds the data of the LAST line
    that names it; and the cells stay well formed when every line carries
    32 bytes. *)
Theorem load_init_spec (m : CoreMemory) (lines : list (Z * list Z)) :
  num_cells (load_init_if_any m (Some lines)) = num_cells m /\
  (forall a, a < 0 \/ num_cells m <= a \/ ~ In a (map fst lines) ->
     _cells (load_init_if_any m (Some lines)) !! a = _cells m !! a) /\
  (forall a d l1 l2, lines = l1 ++ (a, d) :: l2 -> 0 <= a < num_cells m ->
     ~ In a (map fst l2) -> _cells (load_init_if_any m (Some lines)) !! a = Some d) /\
  (Forall (fun l => length l.2 = 32%nat /\ byte_list l.2) lines -> cells_wf m ->
     cells_wf (load_init_if_any m (Some lines))).
Proof.
  destruct (load_init_gen lines m) as (H1 & H2 & H3).
  split; [exact H1|]. split; [exact H2|]. split; [|exact H3].
  intros a d l1 l2 -> Ha Hn.
  destruct (load_init_gen l1 m) as (G1 & _ & _).
  unfold load_init_if_any in *. rewrite fold_left_app. cbn [fold_left].
  set (m1 := fold_left _ l1 m) in G1 |- *.
  destruct (Z.ltb_spec a 0), (Z.geb_spec a (num_cells m1)); try lia. cbn [orb].
  destruct (load_init_gen l2 (mkCoreMemory (num_cells m1) (<[a:=d]> (_cells m1))))
    as (_ & K2 & _).
  unfold load_init_if_any in K2. rewrite K2 by (right; right; exact Hn).
  apply lookup_insert_eq.
Qed.

(* ------------------------------------------------------------------ *)
(** ** The constructor *)

Lemma in_coords (h w : Z) (c : Z * Z) : In c (coords h w) <-> 0 <= c.1 < h /\ 0 <= c.2 < w.
Proof.
  destruct c as [y x]. cbn [fst snd]. split.
  - unfold coords. intros Hc. apply in_flat_map in Hc as (y' & Hy & Hx).
    apply in_map_iff in Hx as (x' & [= <- <-] & Hx).
    apply zrange_in in Hy, Hx. lia.
  - intros [Hy Hx]. eapply nth_error_In. apply coords_nth; lia.
Qed.

Lemma build_core_spec (cfgs : gmap (Z * Z) CoreConfig) (c : Z * Z) (n : CoreNode) :
  build_core cfgs c = Ok n ->
  cy n = c.1 /\ cx n = c.2 /\ pending_by_tag n = ∅ /\ num_cells (mem n) = 24576 /\
  _parse_prims_from_memory (mem n) = Ok (prim_queue n).
Proof.
  unfold build_core. set (cfg := default _ _).
  set (m0 := load_init_if_any CoreMemory_new (init_mem cfg)).
  assert (H0 : num_cells m0 = 24576).
  { unfold m0. destruct (init_mem cfg) as [lines|]; [|reflexivity].
    exact (proj1 (load_init_gen lines CoreMemory_new)). }
  destruct (seed_config_gen m0 cfg) as (S1 & _ & _).
  destruct (_seed_config_into_memory m0 cfg) as [m1|e] eqn:E1; cbn [rbind]; [|discriminate].
  destruct (S1 m1 eq_refl) as [Hn _].
  destruct (_parse_prims_from_memory m1) as [q|e] eqn:E2; cbn [rbind]; [|discriminate].
  intros [= <-]. cbn. repeat split; auto. lia.
Qed.

Lemma build_cores_spec (cfgs : gmap (Z * Z) CoreConfig) (cs : list (Z * Z)) :
  forall acc r, build_cores cfgs cs acc = Ok r ->
  (forall c, In c cs -> exists n, build_core cfgs c = Ok n /\ r !! c = Some n) /\
  (forall c, ~ In c cs -> r !! c = acc !! c).
Proof.
  induction cs as [|c cs IH]; intros acc r H; cbn [build_cores] in H.
  - injection H as <-. split; [contradiction|auto].
  - destruct (build_core cfgs c) as [n|e] eqn:E; cbn [rbind] in H; [|discriminate].
    destruct (IH _ _ H) as [H1 H2]. split.
    + intros c' [<-|Hc].
      * destruct (in_dec (fun a b : Z * Z => decide (a = b)) c cs) as [Hin|Hn]; [apply H1, Hin|].
        exists n. split; [exact E|]. rewrite H2 by exact Hn. apply lookup_insert_eq.
      * apply H1, Hc.
    + intros c' Hc. rewrite H2 by (intros ?; apply Hc; right; assumption).
      apply lookup_insert_ne. intros ->. apply Hc. left. reflexivity.
Qed.

(** X19.  A simulator built by [NoCSimulator.__init__] has the requested
    shape and exactly one core per coordinate [(y, x)] with [0 <= y < h] and
    [0 <= x < w]. Each core knows its own coordinate, has no pending messages,
    24576 memory cells, and a queue equal to what
    [_parse_prims_from_memory] reads back from its seeded memory. For a
    non-empty grid, [_wrap_coord] always names an existing core. *)
Theorem noc_init_spec (h w : Z) (cfgs : gmap (Z * Z) CoreConfig) (sim : Sim)
  (H : NoCSimulator_init h w cfgs = Ok sim) :
  sim_h sim = h /\ sim_w sim = w /\
  (forall c, is_Some (cores sim !! c) <-> 0 <= c.1 < h /\ 0 <= c.2 < w) /\
  (forall c n, cores sim !! c = Some n ->
     cy n = c.1 /\ cx n = c.2 /\ pending_by_tag n = ∅ /\ num_cells (mem n) = 24576 /\
     _parse_prims_from_memory (mem n) = Ok (prim_queue n)) /\
  (forall y x, 0 < h -> 0 < w -> is_Some (cores sim !! _wrap_coord sim y x)).
Proof.
  unfold NoCSimulator_init in H.
  destruct (build_cores cfgs (coords h w) ∅) as [cs|e] eqn:E; cbn [rbind] in H; [|discriminate].
  injection H as <-. cbn [sim_h sim_w cores].
  destruct (build_cores_spec cfgs (coords h w) ∅ cs E) as [H1 H2].
  assert (Hdom : forall c, is_Some (cs !! c) <-> 0 <= c.1 < h /\ 0 <= c.2 < w).
  { intros c. rewrite <- in_coords. split.
    - intros [n Hn]. destruct (in_dec (fun a b : Z * Z => decide (a = b)) c (coords h w))
        as [Hin|Hout]; [exact Hin|]. rewrite H2, lookup_empty in Hn by exact Hout. discriminate.
    - intros Hin. destruct (H1 c Hin) as (n & _ & ->). eauto. }
  split; [reflexivity|]. split; [reflexivity|]. split; [exact Hdom|]. split.
  - intros c n Hn. destruct (in_dec (fun a b : Z * Z => decide (a = b)) c (coords h w))
      as [Hin|Hout].
    + destruct (H1 c Hin) as (n' & Hb & Hl). rewrite Hl in Hn. injection Hn as <-.
      exact (build_core_spec cfgs c _ Hb).
    + rewrite H2, lookup_empty in Hn by exact Hout. discriminate.
  - intros y x Hh Hw. apply Hdom. unfold _wrap_coord. cbn [sim_h sim_w fst snd].
    pose proof (Z.mod_pos_bound y h Hh). pose proof (Z.mod_pos_bound x w Hw). lia.
Qed.

Lemma noc_init_spec_witness :
  exists sim, NoCSimulator_init 2 3 ∅ = Ok sim /\
    is_Some (cores sim !! _wrap_coord sim 5 (-4)).
Proof.
  set (sim := match NoCSimulator_init 2 3 ∅ with Ok s => s | Err _ => mkSim 0 0 ∅ end).
  assert (H : NoCSimulator_init 2 3 ∅ = Ok sim) by (vm_compute; reflexivity).
  exists sim. split; [exact H|].
  apply (noc_init_spec 2 3 ∅ sim H); lia.
Defined.

(* ------------------------------------------------------------------ *)
(** ** The scheduler of [run] *)

Lemma core_step_mono (ss : Sched) (c : Z * Z) (ss' : Sched) (b : bool) :
  core_step ss c = Ok (ss', b) -> forall c',
  (stopped_of ss c' = true -> stopped_of ss' c' = true /\ idx_of ss' c' = idx_of ss c') /\
  (idx_of ss c' <= idx_of ss' c')%nat.
Proof.
  unfold core_step. destruct (stopped_of ss c) eqn:Es.
  { intros [= <- _] c'. split; [auto|lia]. }
  destruct (nth_error (queue_of ss c) (idx_of ss c)) as [op|].
  2: { intros [= <- _] c'. split; [auto|lia]. }
  destruct (match kind op with KStop => _ | _ => _ end) as [st'|e]; cbn [rbind]; [|discriminate].
  intros [= <- _] c'. unfold stopped_of, idx_of in *. cbn [indices stopped].
  destruct (decide (c' = c)) as [->|Hne].
  - rewrite lookup_insert_eq. simpl. split; [|lia].
    intros Hs. congruence.
  - rewrite (lookup_insert_ne (indices ss)) by congruence.
    split; [|lia]. intros Hs. split; [|reflexivity].
    destruct (kind op); try exact Hs. rewrite lookup_insert_ne by congruence. exact Hs.
Qed.

Lemma round_mono (cs : list (Z * Z)) : forall ss p ss' p',
  round ss cs p = Ok (ss', p') -> forall c,
  (stopped_of ss c = true -> stopped_of ss' c = true /\ idx_of ss' c = idx_of ss c) /\
  (idx_of ss c <= idx_of ss' c)%nat.
Proof.
  induction cs as [|c0 cs IH]; intros ss p ss' p' H c; cbn [round] in H.
  - injection H as <- _. split; [auto|lia].
  - destruct (core_step ss c0) as [[ss1 b]|e] eqn:E; cbn [rbind fst snd] in H; [|discriminate].
    destruct (core_step_mono ss c0 ss1 b E c) as [A1 A2].
    destruct (IH ss1 _ ss' p' H c) as [B1 B2].
    split; [|lia]. intros Hs. destruct (A1 Hs) as [S1 I1]. destruct (B1 S1) as [S2 I2].
    split; [exact S2|]. congruence.
Qed.

Lemma run_loop_mono (fuel : nat) : forall cs ss ss',
  run_loop fuel cs ss = Ok ss' -> forall c,
  (stopped_of ss c = true -> stopped_of ss' c = true /\ idx_of ss' c = idx_of ss c) /\
  (idx_of ss c <= idx_of ss' c)%nat.
Proof.
  induction fuel as [|fuel IH]; intros cs ss ss' H c; cbn [run_loop] in H.
  - injection H as <-. split; [auto|lia].
  - destruct (remaining ss <=? 0).
    { injection H as <-. split; [auto|lia]. }
    destruct (round ss cs false) as [[ss1 b]|e] eqn:E; cbn [rbind fst snd] in H; [|discriminate].
    destruct (round_mono cs ss false ss1 b E c) as [A1 A2].
    destruct b.
    + destruct (IH cs ss1 ss' H c) as [B1 B2].
      split; [|lia]. intros Hs. destruct (A1 Hs) as [S1 I1]. destruct (B1 S1) as [S2 I2].
      split; [exact S2|]. congruence.
    + injection H as <-. split; [exact A1|exact A2].
Qed.

(** X20.  In the main loop of [run], a core's op index never goes back, and
    a core that has executed its Stop stays stopped and never runs another op
    (its index no longer moves). *)
Theorem run_loop_stop_final (fuel : nat) (cs : list (Z * Z)) (ss ss' : Sched)
  (H : run_loop fuel cs ss = Ok ss') (c : Z * Z) :
  (idx_of ss c <= idx_of ss' c)%nat /\
  (stopped_of ss c = true -> stopped_of ss' c = true /\ idx_of ss' c = idx_of ss c).
Proof. destruct (run_loop_mono fuel cs ss ss' H c) as [A B]. split; assumption. Qed.

Lemma run_loop_stop_final_witness :
  let sim := mkSim 1 1 {[(0, 0) := mkCoreNode 0 0 CoreMemory_new [stop_op; stop_op] ∅]} in
  exists ss1 ss2, run_loop 1 (coords 1 1) (sched_init sim) = Ok ss1 /\
    stopped_of ss1 (0, 0) = true /\ run_loop 5 (coords 1 1) ss1 = Ok ss2 /\
    idx_of ss2 (0, 0) = idx_of ss1 (0, 0).
Proof.
  intros sim.
  set (ss1 := match run_loop 1 (coords 1 1) (sched_init sim) with
              | Ok s => s | Err _ => sched_init sim end).
  assert (H1 : run_loop 1 (coords 1 1) (sched_init sim) = Ok ss1) by (vm_compute; reflexivity).
  set (ss2 := match run_loop 5 (coords 1 1) ss1 with Ok s => s | Err _ => ss1 end).
  assert (H2 : run_loop 5 (coords 1 1) ss1 = Ok ss2) by (vm_compute; reflexivity).
  assert (Hs : stopped_of ss1 (0, 0) = true) by (vm_compute; reflexivity).
  exists ss1, ss2. split; [exact H1|]. split; [exact Hs|]. split; [exact H2|].
  apply (run_loop_stop_final 5 (coords 1 1) ss1 ss2 H2 (0, 0)). exact Hs.
Defined.

Lemma round_true (cs : list (Z * Z)) : forall ss ss' p',
  round ss cs true = Ok (ss', p') -> p' = true.
Proof.
  induction cs as [|c cs IH]; intros ss ss' p' H; cbn [round] in H.
  - congruence.
  - destruct (core_step ss c) as [[ss1 b]|e]; cbn [rbind fst snd orb] in H; [|discriminate].
    exact (IH _ _ _ H).
Qed.

Lemma core_step_false (ss : Sched) (c : Z * Z) (ss' : Sched) :
  core_step ss c = Ok (ss', false) -> ss' = ss /\ eligible ss c = false.
Proof.
  unfold core_step, eligible. destruct (stopped_of ss c) eqn:Es.
  { intros [= <-]. auto. }
  destruct (nth_error (queue_of ss c) (idx_of ss c)) as [op|] eqn:En.
  2: { intros [= <-]. split; [reflexivity|]. cbn [negb andb].
       apply Nat.ltb_ge. apply nth_error_None. exact En. }
  destruct (match kind op with KStop => _ | _ => _ end); cbn [rbind]; discriminate.
Qed.

(** X21.  A pass of [run] over the cores that makes no progress changes
    nothing, and then no core of the pass is eligible: each is stopped (even with ops left) or has
    run all the ops of its queue. So when [run] leaves its loop for lack of
    progress, no core has an op it could still execute. *)
Theorem round_no_progress (ss : Sched) (cs : list (Z * Z)) (ss' : Sched)
  (H : round ss cs false = Ok (ss', false)) :
  ss' = ss /\ forall c, In c cs -> eligible ss c = false.
Proof.
  revert ss H. induction cs as [|c0 cs IH]; intros ss H; cbn [round] in H.
  - injection H as <-. split; [reflexivity|contradiction].
  - destruct (core_step ss c0) as [[ss1 b]|e] eqn:E; cbn [rbind fst snd orb] in H; [|discriminate].
    destruct b; [apply round_true in H; discriminate|].
    destruct (core_step_false ss c0 ss1 E) as [-> Hc0].
    destruct (IH ss H) as [-> Hcs]. split; [reflexivity|].
    intros c [<-|Hc]; auto.
Qed.

Lemma round_no_progress_witness :
  let ss0 := sched_init (mkSim 1 2 {[(0, 0) := mkCoreNode 0 0 CoreMemory_new [stop_op; stop_op] ∅;
                                    (0, 1) := mkCoreNode 0 1 CoreMemory_new [] ∅]}) in
  exists ss1, round ss0 (coords 1 2) false = Ok (ss1, true) /\
    round ss1 (coords 1 2) false = Ok (ss1, false) /\
    stopped_of ss1 (0, 0) = true /\ Nat.lt (idx_of ss1 (0, 0)) (length (queue_of ss1 (0, 0))) /\
    eligible ss1 (0, 0) = false.
Proof.
  intros ss0.
  set (ss1 := match round ss0 (coords 1 2) false with Ok (s, _) => s | Err _ => ss0 end).
  assert (H0 : round ss0 (coords 1 2) false = Ok (ss1, true)) by (vm_compute; reflexivity).
  assert (H1 : round ss1 (coords 1 2) false = Ok (ss1, false)) by (vm_compute; reflexivity).
  exists ss1. split; [exact H0|]. split; [exact H1|].
  split; [vm_compute; reflexivity|]. split; [vm_compute; lia|].
  apply (round_no_progress ss1 (coords 1 2) ss1 H1). left. reflexivity.
Defined.

(* ------------------------------------------------------------------ *)
(** ** Recv consumes the pending buffer of its tag *)

Lemma kp_bind {A B} (m : M A) (k : A -> M B) :
  keeps_pending m -> (forall a, keeps_pending (k a)) -> keeps_pending (mbind_M m k).
Proof.
  intros Hm Hk st b st'' H c.
  destruct (bind_ok _ _ _ _ _ H) as (a & st' & E1 & E2).
  rewrite (Hk a st' b st'' E2 c). exact (Hm st a st' E1 c).
Qed.

Lemma kp_ret {A} (a : A) : keeps_pending (ret a).
Proof. intros st b st' H c. now injection H as _ <-. Qed.

Lemma kp_update_mem c f : keeps_pending (update_mem c f).
Proof.
  intros st u st' H. unfold update_mem in H.
  destruct (bind_ok _ _ _ _ _ H) as (n & s1 & G & H1).
  destruct (get_core_ok _ _ _ _ G) as [-> Hn].
  destruct (bind_ok _ _ _ _ _ H1) as (m & s2 & L & H2).
  rewrite (lift_ok _ _ _ _ L) in H2. intros c'. rewrite (put_core_ok _ _ _ _ _ H2).
  destruct (decide (c = c')) as [<-|Hne].
  - rewrite lookup_insert_eq, Hn. reflexivity.
  - rewrite lookup_insert_ne by exact Hne. reflexivity.
Qed.

Create HintDb kp_db.
#[local] Hint Resolve kp_ret kp_update_mem : kp_db.

Ltac kp_solve :=
  repeat first
    [ solve [eauto with kp_db]
    | apply kp_bind; [|intros ?]
    | match goal with
      | |- keeps_pending (if ?b then _ else _) => destruct b
      | |- keeps_pending (match ?e with pair _ _ => _ end) => destruct e
      end ].

Lemma kp_seg_loop dst q rte cell_data segs a : keeps_pending (seg_loop dst q rte cell_data segs a).
Proof. revert a; induction segs as [|seg segs IH]; intros a; cbn [seg_loop]; kp_solve. Qed.
#[local] Hint Resolve kp_seg_loop : kp_db.

Lemma kp_replay_cells dst q rte gs payload ks a :
  keeps_pending (replay_cells dst q rte gs payload ks a).
Proof. revert a; induction ks as [|k ks IH]; intros a; cbn [replay_cells]; kp_solve. Qed.

Lemma kp_replay_bytes dst q rte gs payload : forall idx a,
  keeps_pending (replay_bytes dst q rte gs payload idx a).
Proof. induction payload as [|bv payload IH]; intros idx a; cbn [replay_bytes]; kp_solve. Qed.
#[local] Hint Resolve kp_replay_cells kp_replay_bytes : kp_db.

Lemma kp_replay_list dst q es : keeps_pending (replay_list dst q es).
Proof.
  induction es as [|[[b r] p] es IH]; cbn [replay_list]; [kp_solve|].
  apply kp_bind; [|intros; exact IH]. unfold replay_entry. kp_solve.
Qed.

Lemma execute_recv_pending (dst : Z * Z) (rp : RecvPrim) (st : St) (u : unit) (st' : St)
  (H : _execute_recv dst rp st = Ok (u, st')) :
  exists n, cores (fst st) !! dst = Some n /\
  forall c, option_map pending_by_tag (cores (fst st') !! c) =
    (if decide (c = dst) then Some (delete (rp_tag_id rp) (pending_by_tag n))
     else option_map pending_by_tag (cores (fst st) !! c)).
Proof.
  unfold _execute_recv in H.
  destruct (bind_ok _ _ _ _ _ H) as (n & s1 & G & H1).
  destruct (get_core_ok _ _ _ _ G) as [-> Hn]. exists n. split; [exact Hn|].
  intros c. destruct (pending_by_tag n !! rp_tag_id rp) as [l|] eqn:El.
  - destruct (bind_ok _ _ _ _ _ H1) as (v & s2 & P & R).
    rewrite (kp_replay_list _ _ _ _ _ _ R c), (put_core_ok _ _ _ _ _ P).
    destruct (decide (c = dst)) as [->|Hne].
    + rewrite lookup_insert_eq. reflexivity.
    + rewrite lookup_insert_ne by congruence. reflexivity.
  - injection H1 as _ <-. destruct (decide (c = dst)) as [->|Hne]; [|reflexivity].
    rewrite Hn. cbn. f_equal. symmetry. apply delete_id. exact El.
Qed.

(** X22.  A Recv that completes removes the pending buffer of its tag from
    its core and touches no other pending buffer: afterwards the core's
    [pending_by_tag] is the old one with the tag deleted (unchanged when no
    buffer was waiting), and every other core's [pending_by_tag] is as
    before. *)
Theorem execute_recv_consumes (dst : Z * Z) (rp : RecvPrim) (st : St) (u : unit) (st' : St)
  (H : _execute_recv dst rp st = Ok (u, st')) :
  exists n, cores (fst st) !! dst = Some n /\
  forall c, option_map pending_by_tag (cores (fst st') !! c) =
    (if decide (c = dst) then Some (delete (rp_tag_id rp) (pending_by_tag n))
     else option_map pending_by_tag (cores (fst st) !! c)).
Proof. exact (execute_recv_pending dst rp st u st' H). Qed.

Lemma execute_recv_consumes_witness :
  exists st', _execute_recv (0, 0) (mkRecvPrim 0 64 5 0 0 0 0 0 false) (pending_sim, []) =
    Ok (tt, st') /\
  option_map pending_by_tag (cores (fst st') !! (0, 0)) =
    Some (delete 5 (pending_by_tag pending_node)).
Proof.
  set (st' := match _execute_recv (0, 0) (mkRecvPrim 0 64 5 0 0 0 0 0 false) (pending_sim, [])
              with Ok (_, s) => s | Err _ => (pending_sim, []) end).
  assert (H : _execute_recv (0, 0) (mkRecvPrim 0 64 5 0 0 0 0 0 false) (pending_sim, []) =
    Ok (tt, st')) by (vm_compute; reflexivity).
  exists st'. split; [exact H|].
  destruct (execute_recv_consumes _ _ _ _ _ H) as (n & Hn & Hc).
  rewrite (Hc (0, 0)). cbn in Hn. injection Hn as <-. reflexivity.
Defined.

Lemma hex_digit_range (c : Ascii.ascii) : 0 <= default 0 (hex_digit c) < 16.
Proof.
  unfold hex_digit. set (n := Z.of_nat (Ascii.nat_of_ascii c)).
  destruct ((48 <=? n) && (n <=? 57)) eqn:E1; [apply andb_true_iff in E1 as [A B]; cbn; lia|].
  destruct ((65 <=? n) && (n <=? 70)) eqn:E2; [apply andb_true_iff in E2 as [A B]; cbn; lia|].
  destruct ((97 <=? n) && (n <=? 102)) eqn:E3; [apply andb_true_iff in E3 as [A B]; cbn; lia|].
  cbn. lia.
Qed.

Lemma hex_digit_char (c : Ascii.ascii) :
  is_Some (hex_digit c) ->
  ascii_isspace c = false /\ py_isspace c = false /\
  (Ascii.nat_of_ascii c =? 43)%nat = false /\ (Ascii.nat_of_ascii c =? 45)%nat = false.
Proof.
  destruct c as [[] [] [] [] [] [] [] []]; vm_compute;
    intros H; first [destruct H as [? Hx]; discriminate Hx | repeat split].
Qed.

Lemma hv_acc (s : list Ascii.ascii) : forall acc,
  fold_left (fun a c => a * 16 + default 0 (hex_digit c)) s acc =
  acc * 16 ^ Z.of_nat (length s) + hex_value s.
Proof.
  unfold hex_value. induction s as [|c s IH]; intros acc; cbn [fold_left length].
  - rewrite Z.pow_0_r. lia.
  - rewrite (IH (acc * 16 + _)), (IH (0 * 16 + _)).
    rewrite Nat2Z.inj_succ, Z.pow_succ_r by lia. ring.
Qed.

Lemma hv_bound (s : list Ascii.ascii) : 0 <= hex_value s < 16 ^ Z.of_nat (length s).
Proof.
  induction s as [|c s IH]; [cbn; lia|].
  unfold hex_value. cbn [fold_left length]. rewrite hv_acc. fold (hex_value s).
  pose proof (hex_digit_range c).
  rewrite Nat2Z.inj_succ, Z.pow_succ_r by lia.
  replace (Z.succ (Z.of_nat (length s)) - 1) with (Z.of_nat (length s)) by lia.
  nia.
Qed.

Lemma hv_app (l1 l2 : list Ascii.ascii) :
  hex_value (l1 ++ l2) = hex_value l1 * 16 ^ Z.of_nat (length l2) + hex_value l2.
Proof. unfold hex_value at 1. rewrite fold_left_app. apply hv_acc. Qed.

Lemma hv_zeros (k : nat) : hex_value (repeat (Ascii.ascii_of_nat 48) k) = 0.
Proof.
  induction k as [|k IH]; [reflexivity|].
  change (repeat (Ascii.ascii_of_nat 48) (S k)) with ([Ascii.ascii_of_nat 48] ++ repeat (Ascii.ascii_of_nat 48) k).
  rewrite hv_app, IH. reflexivity.
Qed.

Lemma fromhex_digits (n : nat) : forall s acc,
  length s = (2 * n)%nat -> Forall (fun c => is_Some (hex_digit c)) s ->
  exists b, bytes_fromhex s = Ok b /\ length b = n /\ byte_list b /\
    fold_left (fun a x => a * 256 + x) b acc =
    fold_left (fun a c => a * 16 + default 0 (hex_digit c)) s acc.
Proof.
  induction n as [|n IH]; intros s acc Hl Hd.
  - destruct s; [|discriminate]. exists []. repeat split; constructor.
  - destruct s as [|c [|d s]]; cbn in Hl; try lia.
    apply Forall_cons in Hd as [Hc Hd]. apply Forall_cons in Hd as [Hdd Hd].
    destruct (hex_digit_char c Hc) as (Hs & _).
    destruct Hc as [t Ht]. destruct Hdd as [u Hu].
    pose proof (hex_digit_range c) as Rt. pose proof (hex_digit_range d) as Ru.
    rewrite Ht in Rt. rewrite Hu in Ru. cbn [default id] in Rt, Ru.
    destruct (IH s (acc * 256 + (16 * t + u)) ltac:(lia) Hd) as (b & E & Hlb & Hb & Hf).
    exists ((16 * t + u) :: b). cbn [bytes_fromhex]. rewrite Hs, Ht, Hu, E. cbn [rbind].
    split; [reflexivity|]. split; [cbn; lia|]. split.
    + constructor; [cbv beta; lia|exact Hb].
    + cbn [fold_left]. rewrite Hf, Ht, Hu. cbn [default id]. f_equal. ring.
Qed.

Lemma fromhex_err (n : nat) : forall s e,
  (length s <= n)%nat -> bytes_fromhex s = Err e -> e = ValueError.
Proof.
  induction n as [|n IH]; intros s e Hl H.
  - destruct s; [discriminate|cbn in Hl; lia].
  - destruct s as [|c s']; [discriminate|]. cbn [bytes_fromhex] in H.
    destruct (ascii_isspace c); [apply (IH s'); [cbn in Hl; lia|exact H]|].
    destruct s' as [|d s'']; [congruence|].
    destruct (hex_digit c), (hex_digit d); try congruence.
    destruct (bytes_fromhex s'') eqn:E; cbn [rbind] in H; [discriminate|].
    injection H as <-. apply (IH s''); [cbn in Hl; lia|exact E].
Qed.

Lemma hex_to_bytes_gen (hs : list Ascii.ascii) :
  (forall e, _hex_to_bytes_32B hs = Err e -> e = ValueError) /\
  (Forall (fun c => py_isspace c = true \/ is_Some (hex_digit c)) hs ->
     exists b, _hex_to_bytes_32B hs = Ok b /\ length b = 32%nat /\ byte_list b /\
       int_from_bytes b = hex_value (List.filter (fun c => negb (py_isspace c)) hs) mod 2 ^ 256).
Proof.
  unfold _hex_to_bytes_32B. set (d := List.filter _ hs).
  split; [intros e; apply (fromhex_err _ _ e (le_n _))|]. intros Hall.
  assert (Hd : Forall (fun c => is_Some (hex_digit c)) d).
  { unfold d. apply Forall_forall. intros c Hc.
    apply list_elem_of_In, filter_In in Hc as [Hc Hn].
    rewrite Forall_forall in Hall. apply list_elem_of_In in Hc.
    destruct (Hall c Hc) as [Hs|Hs]; [rewrite Hs in Hn; discriminate|exact Hs]. }
  assert (Hzero : Forall (fun c => is_Some (hex_digit c)) (repeat (Ascii.ascii_of_nat 48) (64 - length d))).
  { apply Forall_forall. intros c Hc. apply list_elem_of_In, repeat_spec in Hc as ->.
    vm_compute. eauto. }
  assert (P : 2 ^ 256 = 16 ^ 64) by reflexivity.
  pose proof (hv_bound d) as Bd.
  assert (Main : forall s, length s = 64%nat -> Forall (fun c => is_Some (hex_digit c)) s ->
    hex_value s = hex_value d mod 2 ^ 256 ->
    exists b, bytes_fromhex s = Ok b /\ length b = 32%nat /\ byte_list b /\
      int_from_bytes b = hex_value d mod 2 ^ 256).
  { intros s Hl Hs Hv. destruct (fromhex_digits 32 s 0 Hl Hs) as (b & E & Hlb & Hb & Hf).
    exists b. split; [exact E|]. split; [exact Hlb|]. split; [exact Hb|].
    unfold int_from_bytes. rewrite Hf. exact Hv. }
  destruct (Nat.ltb_spec (length d) 64) as [Hlt|Hge].
  - unfold zfill. destruct (Nat.leb_spec 64 (length d)); [lia|].
    assert (Hz : (match d with
        | c :: s' => if (Ascii.nat_of_ascii c =? 43)%nat || (Ascii.nat_of_ascii c =? 45)%nat
                     then c :: repeat (Ascii.ascii_of_nat 48) (64 - length d) ++ s'
                     else repeat (Ascii.ascii_of_nat 48) (64 - length d) ++ d
        | [] => repeat (Ascii.ascii_of_nat 48) (64 - length d)
        end) = repeat (Ascii.ascii_of_nat 48) (64 - length d) ++ d).
    { destruct d as [|c s'] eqn:Ed; [rewrite app_nil_r; reflexivity|].
      apply Forall_cons in Hd as [Hc _].
      destruct (hex_digit_char c Hc) as (_ & _ & -> & ->). reflexivity. }
    rewrite Hz. apply Main.
    + rewrite length_app, repeat_length. lia.
    + apply Forall_app. split; assumption.
    + rewrite hv_app, hv_zeros, Z.mod_small; [lia|].
      split; [lia|]. rewrite P. apply (Z.lt_le_trans _ _ _ (proj2 Bd)).
      apply Z.pow_le_mono_r; lia.
  - destruct (Nat.ltb_spec 64 (length d)) as [Hgt|Hle].
    + apply Main.
      * rewrite length_skipn. lia.
      * apply Forall_drop. exact Hd.
      * replace (hex_value d) with (hex_value (firstn (length d - 64) d ++ skipn (length d - 64) d))
          by (rewrite firstn_skipn; reflexivity).
        rewrite hv_app.
        rewrite length_skipn. replace (Z.of_nat (length d - (length d - 64))) with 64 by lia.
        rewrite P, Z.add_comm, Z.mod_add by lia.
        pose proof (hv_bound (skipn (length d - 64) d)) as Bs. rewrite length_skipn in Bs.
        replace (Z.of_nat (length d - (length d - 64))) with 64 in Bs by lia.
        rewrite Z.mod_small by lia. reflexivity.
    + apply Main; [lia|exact Hd|].
      rewrite Z.mod_small; [reflexivity|]. rewrite P.
      replace (Z.of_nat (length d)) with 64 in Bd by lia. exact Bd.
Qed.

(** X23.  [_hex_to_bytes_32B] raises nothing but [ValueError]. When every
    non-whitespace character of its input is a hex digit, it returns exactly
    32 bytes, whose big-endian value is the hex number written by those digits
    taken modulo [2 ** 256]: short inputs are padded with zeros on the left,
    long ones keep their last 64 digits. *)
Theorem hex_to_bytes_32B_spec (hs : list Ascii.ascii) :
  (forall e, _hex_to_bytes_32B hs = Err e -> e = ValueError) /\
  (Forall (fun c => py_isspace c = true \/ is_Some (hex_digit c)) hs ->
     exists b, _hex_to_bytes_32B hs = Ok b /\ length b = 32%nat /\ byte_list b /\
       int_from_bytes b = hex_value (List.filter (fun c => negb (py_isspace c)) hs) mod 2 ^ 256).
Proof. exact (hex_to_bytes_gen hs). Qed.

(* ------------------------------------------------------------------ *)
(** ** Handshake FIFO: from the Send loop to the Recv *)

Lemma kd_bind {A B} (m : M A) (k : A -> M B) :
  keeps_dims m -> (forall a, keeps_dims (k a)) -> keeps_dims (mbind_M m k).
Proof.
  intros Hm Hk st b st'' H.
  destruct (bind_ok _ _ _ _ _ H) as (a & st' & E1 & E2).
  destruct (Hk a st' b st'' E2) as [-> ->]. exact (Hm st a st' E1).
Qed.

Lemma kd_ret {A} (a : A) : keeps_dims (ret a).
Proof. intros st b st' H. now injection H as _ <-. Qed.

Lemma kd_lift {A} (r : result A) : keeps_dims (lift r).
Proof. intros st b st' H. now rewrite (lift_ok _ _ _ _ H). Qed.

Lemma kd_get_core c : keeps_dims (get_core c).
Proof. intros st b st' H. now destruct (get_core_ok _ _ _ _ H) as [-> _]. Qed.

Lemma kd_get_sim : keeps_dims get_sim.
Proof. intros st b st' H. now injection H as _ <-. Qed.

Lemma kd_log_src x : keeps_dims (log_src x).
Proof. intros st b st' H. now injection H as _ <-. Qed.

Lemma kd_put_core c n : keeps_dims (put_core c n).
Proof. intros st b st' H. now injection H as _ <-. Qed.

Create HintDb kd_db.
#[local] Hint Resolve kd_ret kd_lift kd_get_core kd_get_sim kd_log_src kd_put_core : kd_db.

Ltac kd_solve :=
  repeat first
    [ solve [eauto with kd_db]
    | apply kd_bind; [|intros ?]
    | match goal with
      | |- keeps_dims (if ?b then _ else _) => destruct b
      | |- keeps_dims (match ?e with pair _ _ => _ end) => destruct e
      | |- keeps_dims (match ?e with Some _ => _ | None => _ end) => destruct e
      end ].

Lemma kd_update_mem c f : keeps_dims (update_mem c f).
Proof. unfold update_mem. kd_solve. Qed.

Lemma kd_ensure_pending dst tag : keeps_dims (ensure_pending dst tag).
Proof. unfold ensure_pending. kd_solve. Qed.

Lemma kd_append_pending dst tag e : keeps_dims (append_pending dst tag e).
Proof. unfold append_pending. kd_solve. Qed.

Lemma kd_src_read_cell src addr : keeps_dims (src_read_cell src addr).
Proof. unfold src_read_cell. kd_solve. Qed.

Lemma kd_src_read_byte src cell off : keeps_dims (src_read_byte src cell off).
Proof. unfold src_read_byte. kd_solve. Qed.
#[local] Hint Resolve kd_update_mem kd_ensure_pending kd_append_pending
  kd_src_read_cell kd_src_read_byte : kd_db.

Lemma kd_seg_loop dst q rte cell_data segs a : keeps_dims (seg_loop dst q rte cell_data segs a).
Proof. revert a; induction segs as [|seg segs IH]; intros a; cbn [seg_loop]; kd_solve. Qed.
#[local] Hint Resolve kd_seg_loop : kd_db.

Lemma kd_cell_loop src dst q rte gs base is a : keeps_dims (cell_loop src dst q rte gs base is a).
Proof. revert a; induction is as [|i is IH]; intros a; cbn [cell_loop]; kd_solve. Qed.

Lemma kd_neuron_loop fuel src dst q rte gs npm :
  forall sc so rem a, keeps_dims (neuron_loop fuel src dst q rte gs npm sc so rem a).
Proof. induction fuel; intros sc so rem a; cbn [neuron_loop]; kd_solve. Qed.

Lemma kd_buf_cells src base is data : keeps_dims (buf_cells src base is data).
Proof. revert data; induction is as [|i is IH]; intros data; cbn [buf_cells]; kd_solve. Qed.

Lemma kd_buf_bytes fuel src : forall sc so data, keeps_dims (buf_bytes fuel src sc so data).
Proof. induction fuel; intros sc so data; cbn [buf_bytes]; kd_solve. Qed.
#[local] Hint Resolve kd_cell_loop kd_neuron_loop kd_buf_cells kd_buf_bytes : kd_db.

Lemma kd_send_loop src src_core sp rtes : forall i counts,
  keeps_dims (send_loop src src_core sp rtes i counts).
Proof.
  induction rtes as [|rte rtes IH]; intros i counts; cbn [send_loop]; [kd_solve|].
  apply kd_bind; [|intros; apply IH].
  unfold _find_recv_acceptor, _buffer_send_payload, _send_cell_mode, _send_neuron_mode.
  kd_solve.
Qed.

Lemma kp_get_core c : keeps_pending (get_core c).
Proof. intros st b st' H c'. now destruct (get_core_ok _ _ _ _ H) as [-> _]. Qed.

Lemma kp_lift {A} (r : result A) : keeps_pending (lift r).
Proof. intros st b st' H c. now rewrite (lift_ok _ _ _ _ H). Qed.

Lemma kp_log_src x : keeps_pending (log_src x).
Proof. intros st b st' H c. now injection H as _ <-. Qed.
#[local] Hint Resolve kp_get_core kp_lift kp_log_src : kp_db.

Lemma kp_src_read_cell src addr : keeps_pending (src_read_cell src addr).
Proof. unfold src_read_cell. kp_solve. Qed.

Lemma kp_src_read_byte src cell off : keeps_pending (src_read_byte src cell off).
Proof. unfold src_read_byte. kp_solve. Qed.
#[local] Hint Resolve kp_src_read_cell kp_src_read_byte : kp_db.

Lemma kp_cell_loop src dst q rte gs base is a : keeps_pending (cell_loop src dst q rte gs base is a).
Proof. revert a; induction is as [|i is IH]; intros a; cbn [cell_loop]; kp_solve. Qed.

Lemma kp_neuron_loop fuel src dst q rte gs npm :
  forall sc so rem a, keeps_pending (neuron_loop fuel src dst q rte gs npm sc so rem a).
Proof. induction fuel; intros sc so rem a; cbn [neuron_loop]; kp_solve. Qed.
#[local] Hint Resolve kp_cell_loop kp_neuron_loop : kp_db.

Lemma kp_send_cell_mode src dst sp rte i counts : keeps_pending (_send_cell_mode src dst sp rte i counts).
Proof. unfold _send_cell_mode. kp_solve. Qed.

Lemma kp_send_neuron_mode src dst sp rte i counts :
  keeps_pending (_send_neuron_mode src dst sp rte i counts).
Proof. unfold _send_neuron_mode. kp_solve. Qed.

Lemma pend_at_kp {A} (m : M A) st a st' c t :
  keeps_pending m -> m st = Ok (a, st') -> pend_at (fst st') c t = pend_at (fst st) c t.
Proof.
  intros K H. pose proof (K st a st' H c) as E. unfold pend_at.
  destruct (cores (fst st') !! c), (cores (fst st) !! c); cbn in *; congruence.
Qed.

Lemma ensure_pending_other dst tag st u s c :
  ensure_pending dst tag st = Ok (u, s) -> c <> dst -> cores (fst s) !! c = cores (fst st) !! c.
Proof.
  unfold ensure_pending. intros H Hc.
  destruct (bind_ok _ _ _ _ _ H) as (n & s1 & G & H1).
  destruct (get_core_ok _ _ _ _ G) as [-> _].
  destruct (pending_by_tag n !! tag).
  - now injection H1 as _ <-.
  - rewrite (put_core_ok _ _ _ _ _ H1). apply lookup_insert_ne. congruence.
Qed.

Lemma append_pending_other dst tag e st u s c :
  append_pending dst tag e st = Ok (u, s) -> c <> dst -> cores (fst s) !! c = cores (fst st) !! c.
Proof.
  unfold append_pending. intros H Hc.
  destruct (bind_ok _ _ _ _ _ H) as (n & s1 & G & H1).
  destruct (get_core_ok _ _ _ _ G) as [-> _].
  rewrite (put_core_ok _ _ _ _ _ H1). apply lookup_insert_ne. congruence.
Qed.

Lemma buffer_other_cores src dst' sp rte i counts st u st' c :
  _buffer_send_payload src dst' sp rte i counts st = Ok (u, st') -> c <> dst' ->
  cores (fst st') !! c = cores (fst st) !! c.
Proof.
  unfold _buffer_send_payload. intros H Hc.
  destruct (bind_ok _ _ _ _ _ H) as (n0 & s1 & G & H1).
  destruct (get_core_ok _ _ _ _ G) as [-> _].
  destruct (bind_ok _ _ _ _ _ H1) as (v & s2 & Ens & H2).
  rewrite <- (ensure_pending_other _ _ _ _ _ _ Ens Hc).
  destruct (sp_cell_or_neuron sp =? 0);
    destruct (bind_ok _ _ _ _ _ H2) as (data & s3 & B & Ap);
    rewrite (append_pending_other _ _ _ _ _ _ _ Ap Hc);
    [rewrite (keeps_buf_cells _ _ _ _ _ _ _ B) | rewrite (keeps_buf_bytes _ _ _ _ _ _ _ _ B)];
    reflexivity.
Qed.

(** A buffering call changes the pending list of [(dst, t)] only when it
    buffers there, and then appends one entry. *)
Lemma buffer_pend_at src dst' sp rte i counts st st' dst t :
  _buffer_send_payload src dst' sp rte i counts st = Ok (tt, st') ->
  exists data,
    (dst' = dst -> rte_tag_id rte = t ->
       pend_at (fst st') dst t =
       option_map (fun o => append_opt o [(sp_cell_or_neuron sp =? 0, rte, data)])
         (pend_at (fst st) dst t)) /\
    (dst' <> dst \/ rte_tag_id rte <> t -> pend_at (fst st') dst t = pend_at (fst st) dst t).
Proof.
  intros H. destruct (decide (dst' = dst)) as [<-|Hd].
  - destruct (buffer_appends _ _ _ _ _ _ _ _ H) as (n & n' & data & Hn & Hn' & P & O).
    exists data. unfold pend_at. rewrite Hn, Hn'. cbn [option_map]. split.
    + intros _ <-. cbn [append_opt]. f_equal. exact P.
    + intros [Hc|Ht]; [congruence|]. rewrite O by congruence. reflexivity.
  - exists []. split; [intros; congruence|]. intros _.
    unfold pend_at. rewrite (buffer_other_cores _ _ _ _ _ _ _ _ _ _ H); [reflexivity|congruence].
Qed.

Lemma append_opt_app {A} (o : option (list A)) (e1 e2 : list A) :
  append_opt (append_opt o e1) e2 = append_opt o (e1 ++ e2).
Proof.
  destruct e1 as [|x e1]; [reflexivity|]. destruct e2 as [|y e2]; cbn.
  - now rewrite app_nil_r.
  - now rewrite <- app_assoc.
Qed.

Lemma buffers_to_ext sim sim' src_core dst t r :
  sim_h sim' = sim_h sim -> sim_w sim' = sim_w sim ->
  option_map prim_queue (cores sim' !! dst) = option_map prim_queue (cores sim !! dst) ->
  buffers_to sim' src_core dst t r = buffers_to sim src_core dst t r.
Proof.
  intros Hh Hw Hq. unfold buffers_to, _wrap_coord. rewrite Hh, Hw. do 2 f_equal.
  destruct (cores sim' !! dst), (cores sim !! dst); cbn in Hq; try discriminate; [|reflexivity].
  injection Hq as ->. reflexivity.
Qed.

Lemma append_opt_some {A} (o : option (list A)) (es l : list A) :
  append_opt o es = Some l -> l = default [] o ++ es.
Proof.
  destruct es as [|e es]; cbn; intros H.
  - rewrite H, app_nil_r. reflexivity.
  - injection H as <-. reflexivity.
Qed.

(** The pending list of [(dst, t)] after a Send's loop: the old list with
    one entry per buffering message appended, in message order. *)
Lemma send_loop_pend src src_core sp dst t rtes : forall i counts st st',
  send_loop src src_core sp rtes i counts st = Ok (tt, st') ->
  exists datas,
    length datas = length (List.filter (buffers_to (fst st) src_core dst t) rtes) /\
    pend_at (fst st') dst t =
    option_map (fun o => append_opt o
                  (pending_entries sp (List.filter (buffers_to (fst st) src_core dst t) rtes) datas))
      (pend_at (fst st) dst t).
Proof.
  induction rtes as [|rte rtes IH]; intros i counts st st' H; pose proof H as H0;
    cbn [send_loop] in H.
  - injection H as <-. exists []. split; [reflexivity|].
    destruct (pend_at (fst st) dst t); reflexivity.
  - destruct (bind_ok _ _ _ _ _ H) as ([] & st1 & E1 & E2).
    destruct (IH _ _ _ _ E2) as (datas & Hlen & Hp).
    (* the rest of the loop sees the same array shape and queues *)
    assert (Hb : forall r, buffers_to (fst st1) src_core dst t r = buffers_to (fst st) src_core dst t r).
    { intros r. destruct (kd_send_loop _ _ _ _ _ _ _ _ _ E2) as [Dh Dw].
      destruct (kd_send_loop _ _ _ _ _ _ _ _ _ H0) as [Dh' Dw'].
      pose proof (kq_send_loop _ _ _ _ _ _ _ _ _ E2 dst) as Q.
      pose proof (kq_send_loop _ _ _ _ _ _ _ _ _ H0 dst) as Q'.
      apply buffers_to_ext; congruence. }
    rewrite (List.filter_ext _ _ Hb) in Hlen, Hp.
    set (fs := List.filter (buffers_to (fst st) src_core dst t) rtes) in *.
    (* the first message *)
    assert (Step : exists d,
               (buffers_to (fst st) src_core dst t rte = true ->
                pend_at (fst st1) dst t =
                option_map (fun o => append_opt o [(sp_cell_or_neuron sp =? 0, rte, d)])
                  (pend_at (fst st) dst t)) /\
               (buffers_to (fst st) src_core dst t rte = false ->
                pend_at (fst st1) dst t = pend_at (fst st) dst t)).
    { unfold buffers_to. destruct (rte_en rte) eqn:Een; cbn [negb] in E1.
      2: { injection E1 as <-. exists []. split; [discriminate|reflexivity]. }
      destruct (bind_ok _ _ _ _ _ E1) as (sim & s1 & Gs & E3). injection Gs as <- <-.
      set (dst' := _wrap_coord (fst st) (cy src_core + rte_y rte) (cx src_core + rte_x rte)) in *.
      destruct (bind_ok _ _ _ _ _ E3) as (acc & s2 & Acc & E4).
      assert (Send : acc = true -> pend_at (fst st1) dst t = pend_at (fst st) dst t).
      { intros ->. cbn [negb] in E4. destruct (sp_cell_or_neuron sp =? 0).
        - destruct (rte_handshake rte).
          + unfold _find_recv_acceptor in Acc.
            destruct (bind_ok _ _ _ _ _ Acc) as (n0 & s3 & G & R).
            destruct (get_core_ok _ _ _ _ G) as [-> _]. injection R as _ <-.
            exact (pend_at_kp _ _ _ _ _ _ (kp_send_cell_mode _ _ _ _ _ _) E4).
          + injection Acc as <-.
            exact (pend_at_kp _ _ _ _ _ _ (kp_send_cell_mode _ _ _ _ _ _) E4).
        - destruct (rte_handshake rte).
          + unfold _find_recv_acceptor in Acc.
            destruct (bind_ok _ _ _ _ _ Acc) as (n0 & s3 & G & R).
            destruct (get_core_ok _ _ _ _ G) as [-> _]. injection R as _ <-.
            exact (pend_at_kp _ _ _ _ _ _ (kp_send_neuron_mode _ _ _ _ _ _) E4).
          + injection Acc as <-.
            exact (pend_at_kp _ _ _ _ _ _ (kp_send_neuron_mode _ _ _ _ _ _) E4). }
      destruct (rte_handshake rte) eqn:Ehs.
      2: { injection Acc as <- <-. exists []. split; [discriminate|]. intros _. exact (Send eq_refl). }
      unfold _find_recv_acceptor in Acc.
      destruct (bind_ok _ _ _ _ _ Acc) as (n0 & s3 & G & R).
      destruct (get_core_ok _ _ _ _ G) as [-> Hn0]. injection R as <- <-.
      destruct (existsb (has_recv_tag (rte_tag_id rte)) (prim_queue n0)) eqn:Eacc.
      + exists []. split.
        * cbn [andb]. intros Hb1.
          apply andb_true_iff in Hb1 as [Hb1 Hq]. apply andb_true_iff in Hb1 as [Ht Hd].
          apply Z.eqb_eq in Ht. apply bool_decide_eq_true in Hd. fold dst' in Hd.
          subst dst'. rewrite Hd in Hn0. rewrite Hn0, <- Ht, Eacc in Hq. discriminate.
        * intros _. exact (Send eq_refl).
      + cbn [negb] in E4. destruct (buffer_pend_at _ _ _ _ _ _ _ _ dst t E4) as (d & Y & N).
        exists d. cbn [andb]. split.
        * intros Hb1.
          apply andb_true_iff in Hb1 as [Hb1 _]. apply andb_true_iff in Hb1 as [Ht Hd].
          apply Z.eqb_eq in Ht. apply bool_decide_eq_true in Hd. exact (Y Hd Ht).
        * intros Hb1. apply N.
          destruct (decide (dst' = dst)) as [Hd|Hd]; [|left; exact Hd].
          destruct (Z.eq_dec (rte_tag_id rte) t) as [Ht|Ht]; [|right; exact Ht].
          exfalso. fold dst' in Hb1. rewrite (bool_decide_eq_true_2 _ Hd), <- Ht in Hb1.
          rewrite Z.eqb_refl in Hb1. subst dst'. rewrite Hd in Hn0. rewrite Hn0, Eacc in Hb1.
          discriminate. }
    destruct Step as (d & Y & N). cbn [List.filter].
    destruct (buffers_to (fst st) src_core dst t rte) eqn:Eb.
    + exists (d :: datas). split; [cbn [length]; f_equal; exact Hlen|].
      rewrite Hp, (Y eq_refl). destruct (pend_at (fst st) dst t); [|reflexivity].
      cbn [option_map]. f_equal. rewrite append_opt_app. reflexivity.
    + exists datas. split; [exact Hlen|]. rewrite Hp, (N eq_refl). reflexivity.
Qed.

(** C7 (confirmed).  Take a Send's message loop that runs to the end,
    and a destination core [dst] and tag [t]. Every message that takes the
    buffering branch towards [(dst, t)] appends one entry, and these entries
    come in message order, after whatever was already pending there (the
    list is created empty on the first append). A Recv with tag [t] that
    then runs at [dst] removes the tag's list and replays that very list,
    entry after entry, from the oldest to the newest. *)
Theorem handshake_fifo (src : Z * Z) (src_core : CoreNode) (sp : SendPrim)
  (rtes : list RouterTableEntry) (i : nat) (counts : list Z) (st st' : St)
  (dst : Z * Z) (t : Z) (n : CoreNode)
  (Hn : cores (fst st) !! dst = Some n)
  (H : send_loop src src_core sp rtes i counts st = Ok (tt, st')) :
  exists n' datas,
    cores (fst st') !! dst = Some n' /\ prim_queue n' = prim_queue n /\
    length datas = length (List.filter (buffers_to (fst st) src_core dst t) rtes) /\
    pending_by_tag n' !! t =
      append_opt (pending_by_tag n !! t)
        (pending_entries sp (List.filter (buffers_to (fst st) src_core dst t) rtes) datas) /\
    forall rp, rp_tag_id rp = t -> pending_by_tag n' !! t <> None ->
      _execute_recv dst rp st' =
      (put_core dst (set_pending n' (delete t (pending_by_tag n'))) ;;;
       fold_right (fun e k => replay_entry dst (prim_queue n) e ;;; k) (ret tt)
         (default [] (pending_by_tag n !! t) ++
          pending_entries sp (List.filter (buffers_to (fst st) src_core dst t) rtes) datas)) st'.
Proof.
  destruct (send_loop_pend src src_core sp dst t rtes i counts st st' H) as (datas & Hlen & Hp).
  set (es := pending_entries sp (List.filter (buffers_to (fst st) src_core dst t) rtes) datas) in *.
  unfold pend_at in Hp. rewrite Hn in Hp. cbn [option_map] in Hp.
  destruct (cores (fst st') !! dst) as [n'|] eqn:Hn'; [|discriminate].
  cbn [option_map] in Hp. injection Hp as Hp.
  assert (Hq : prim_queue n' = prim_queue n).
  { pose proof (kq_send_loop _ _ _ _ _ _ _ _ _ H dst) as Q. rewrite Hn', Hn in Q.
    cbn in Q. congruence. }
  exists n', datas. split; [reflexivity|]. split; [exact Hq|]. split; [exact Hlen|].
  split; [exact Hp|].
  intros rp <- Hne. unfold _execute_recv, mbind_M at 1, get_core. rewrite Hn'. cbn [fst].
  destruct (pending_by_tag n' !! rp_tag_id rp) as [l|] eqn:El; [|congruence].
  pose proof (append_opt_some _ _ _ (eq_sym Hp)) as Hl.
  rewrite Hl, replay_list_in_order, Hq. reflexivity.
Qed.

Lemma handshake_fifo_witness :
  exists st' st'',
    send_loop (0, 0) s3_node s3_sp [fifo_rte; fifo_rte] 0 [1; 1] (s3_sim, []) = Ok (tt, st') /\
    pend_at (fst st') (0, 0) 5 =
      Some (Some [(true, fifo_rte, repeat 1 32); (true, fifo_rte, repeat 2 32)]) /\
    _execute_recv (0, 0) (mkRecvPrim 0 0 5 0 0 0 0 0 false) st' = Ok (tt, st'') /\
    option_map (fun n => read_cell (mem n) 0) (cores (fst st'') !! (0, 0)) = Some (Ok (repeat 2 32)).
Proof.
  set (st' := match send_loop (0, 0) s3_node s3_sp [fifo_rte; fifo_rte] 0 [1; 1] (s3_sim, [])
              with Ok (_, s) => s | Err _ => (s3_sim, []) end).
  assert (H : send_loop (0, 0) s3_node s3_sp [fifo_rte; fifo_rte] 0 [1; 1] (s3_sim, []) =
              Ok (tt, st')) by (vm_compute; reflexivity).
  destruct (handshake_fifo (0, 0) s3_node s3_sp [fifo_rte; fifo_rte] 0 [1; 1] (s3_sim, []) st'
              (0, 0) 5 s3_node eq_refl H) as (n' & datas & Hn' & Hq & Hlen & Hp & Hrecv).
  assert (Hc : Some n' = cores (fst st') !! (0, 0)) by (symmetry; exact Hn').
  vm_compute in Hc. injection Hc as Hc.
  vm_compute in Hlen. destruct datas as [|d1 [|d2 [|d3 ds]]]; try discriminate Hlen.
  pose proof Hp as Hp1. rewrite Hc in Hp1. vm_compute in Hp1. injection Hp1 as E1 E2.
  subst d1 d2.
  set (rp := mkRecvPrim 0 0 5 0 0 0 0 0 false).
  assert (Hne : pending_by_tag n' !! 5 <> None) by (rewrite Hp; vm_compute; intros E; discriminate E).
  exists st', (match _execute_recv (0, 0) rp st' with Ok (_, s) => s | Err _ => st' end).
  split; [exact H|]. split.
  - unfold pend_at. rewrite Hn'. cbn [option_map]. rewrite Hp. vm_compute. reflexivity.
  - rewrite (Hrecv rp eq_refl Hne), Hc. split; vm_compute; reflexivity.
Defined.
